(** * notion-ssh: a shallow embedding of the virtual filesystem, the Notion
    gateway filter, the Markdown codec and the edit session.

    Sources embedded here:
    - [src/vfs/index.ts]      (shortId, slugFromTitle, uniqueName, VirtualFs)
    - [src/notion/gateway.ts] (filterByRoot, listRecords, page read/replace,
                               withRetry, titleFromPage, titleFromDataSource)
    - [src/notion/markdown.ts] (renderBlock, notionBlocksToMarkdown,
                                 isBlockBoundary, markdownToNotionBlocks)
    - [src/session/shell.ts]  (handleLine, handleEditLine, filterEntries)
    - [src/session/parser.ts] (tokenize, parseCommandLine)
    - [src/utils/path.ts]     (resolveVirtualPath) and Node's [path.posix].

    Conventions.  A JavaScript string is a Rocq [string]; the model is exact
    on ASCII text (white space is TAB, LF, VT, FF, CR and SPACE; the only
    line terminators of a regular expression's [.] are LF and CR).  Above
    127 JavaScript has further white space and line terminators; a
    statement that depends on these classes is made for ASCII text
    ([asciiText]).  A [Map]
    is a [gmap], a [Set] a [gset].  A loop that the source writes as an
    unbounded [while] takes a fuel argument; the theorems show which fuel is
    enough.  Thrown exceptions are the [Throw] case of [res]. *)

From Stdlib Require Import String Ascii ZArith Lia DecimalString DecimalNat.
From stdpp Require Import base option gmap sets list strings.

Open Scope string_scope.
Open Scope nat_scope.
Open Scope list_scope.

(* ================================================================= *)
(** ** Results of fallible computations *)

Inductive res (A : Type) : Type :=
| Done (a : A)
| Throw (msg : string)
| Diverge.
Arguments Done {A} a.
Arguments Throw {A} msg.
Arguments Diverge {A}.

Global Instance res_ret : MRet res := λ A a, Done a.
Global Instance res_bind : MBind res := λ A B k m,
  match m with
  | Done a => k a
  | Throw msg => Throw msg
  | Diverge => Diverge
  end.

(* ================================================================= *)
(** ** JavaScript string primitives *)

(** [s.slice(0, n)] *)
Fixpoint str_take (n : nat) (s : string) : string :=
  match n, s with
  | S n', String c s' => String c (str_take n' s')
  | _, _ => ""
  end.

(** [s.replace(/-/g, '')] *)
Fixpoint remove_dashes (s : string) : string :=
  match s with
  | "" => ""
  | String c s' =>
      if Ascii.eqb c "-" then remove_dashes s' else String c (remove_dashes s')
  end.

(** [`${i}`] for a non-negative integer [i] *)
Definition nat_to_string (n : nat) : string :=
  NilEmpty.string_of_uint (Nat.to_uint n).

(** The characters of a string, for membership arguments. *)
Fixpoint chars (s : string) : list ascii :=
  match s with
  | "" => []
  | String c s' => c :: chars s'
  end.

Definition no_slash (s : string) : Prop := "/"%char ∉ chars s.

(* ================================================================= *)
(** ** src/vfs/index.ts: shortId, slugFromTitle, uniqueName *)

Definition shortId (id : string) : string := str_take 8 (remove_dashes id).

(** The [while (usedNames.has(`${withId}-${i}`)) i += 1] loop of
    [uniqueName]: the first [i], counting up, whose candidate is unused. *)
Fixpoint uniqueName_loop (fuel : nat) (withId : string)
    (usedNames : gset string) (i : nat) : option nat :=
  match fuel with
  | O => None
  | S fuel' =>
      if decide (withId +:+ "-" +:+ nat_to_string i ∈ usedNames)
      then uniqueName_loop fuel' withId usedNames (S i)
      else Some i
  end.

(** [uniqueName(baseName, usedNames, fallbackId)] returns the chosen name
    together with the updated set ([usedNames] is mutated in place by the
    source).  [None] stands for a loop that has not stopped within
    [S (size usedNames)] rounds; [uniqueName_total] shows it never happens. *)
Definition uniqueName (baseName : string) (usedNames : gset string)
    (fallbackId : string) : option (string * gset string) :=
  if decide (baseName ∈ usedNames) then
    let withId := baseName +:+ "-" +:+ shortId fallbackId in
    if decide (withId ∈ usedNames) then
      match uniqueName_loop (S (size usedNames)) withId usedNames 2 with
      | Some i =>
          let candidate := withId +:+ "-" +:+ nat_to_string i in
          Some (candidate, {[candidate]} ∪ usedNames)
      | None => None
      end
    else Some (withId, {[withId]} ∪ usedNames)
  else Some (baseName, {[baseName]} ∪ usedNames).

(** White space of [trim], [trimEnd] and the regular expression class
    [\s], among the characters below 128. *)
Definition is_ws (c : ascii) : bool :=
  let n := N_of_ascii c in
  ((9 <=? n)%N && (n <=? 13)%N) || (n =? 32)%N.

(** A regular expression's [.] matches anything but a line terminator;
    below 128 these are LF and CR. *)
Definition is_line_term (c : ascii) : bool :=
  let n := N_of_ascii c in (n =? 10)%N || (n =? 13)%N.

Definition is_digit (c : ascii) : bool :=
  let n := N_of_ascii c in (48 <=? n)%N && (n <=? 57)%N.

Fixpoint str_forallb (p : ascii → bool) (s : string) : bool :=
  match s with
  | "" => true
  | String c s' => p c && str_forallb p s'
  end.

Definition str_nonempty (s : string) : bool :=
  match s with "" => false | _ => true end.

(** The characters below 128.  Among them [is_ws] is the white space of
    [trim], [trimEnd] and [\s], and [is_line_term] is what [.] refuses.
    Above 127 JavaScript has more of both (U+00A0, U+FEFF, U+2028, U+2029
    and others) that the classes above leave out: the statements that
    depend on them are made for ASCII text. *)
Definition is_ascii (c : ascii) : bool := (N_of_ascii c <? 128)%N.

Definition asciiText (s : string) : Prop := str_forallb is_ascii s = true.

(** [s.trimStart()], [s.trimEnd()], [s.trim()], on ASCII text: the white
    space they strip is [is_ws]. *)
Fixpoint trimStart (s : string) : string :=
  match s with
  | "" => ""
  | String c s' => if is_ws c then trimStart s' else s
  end.

Fixpoint trimEnd (s : string) : string :=
  match s with
  | "" => ""
  | String c s' =>
      let t := trimEnd s' in
      if is_ws c && negb (str_nonempty t) then "" else String c t
  end.

Definition trim (s : string) : string := trimEnd (trimStart s).

(** [s.split(sep)] for a one-character separator: never the empty list. *)
Fixpoint split_on (sep : ascii) (s : string) : list string :=
  match s with
  | "" => [""]
  | String c s' =>
      if Ascii.eqb c sep then "" :: split_on sep s'
      else match split_on sep s' with
           | [] => [String c ""]
           | w :: ws => String c w :: ws
           end
  end.

(** [parts.join(sep)] *)
Fixpoint str_join (sep : string) (parts : list string) : string :=
  match parts with
  | [] => ""
  | [p] => p
  | p :: rest => p +:+ sep +:+ str_join sep rest
  end.

(** [s.replace(/\r\n/g, '\n')] *)
Fixpoint replace_crlf (s : string) : string :=
  match s with
  | "" => ""
  | String c s' =>
      match s' with
      | String c' s'' =>
          if (N_of_ascii c =? 13)%N && (N_of_ascii c' =? 10)%N
          then String c' (replace_crlf s'')
          else String c (replace_crlf s')
      | "" => String c ""
      end
  end.

(** [s.startsWith(p)], returning what follows the prefix. *)
Fixpoint strip_prefix (p s : string) : option string :=
  match p, s with
  | "", _ => Some s
  | String a p', String b s' =>
      if Ascii.eqb a b then strip_prefix p' s' else None
  | String _ _, "" => None
  end.

Definition startsWith (p s : string) : bool :=
  match strip_prefix p s with Some _ => true | None => false end.

(** The longest prefix of characters satisfying [p], and the rest. *)
Fixpoint span_while (p : ascii → bool) (s : string) : string * string :=
  match s with
  | "" => ("", "")
  | String c s' =>
      if p c then let '(a, b) := span_while p s' in (String c a, b)
      else ("", s)
  end.

(** [s.toLowerCase()] on ASCII letters. *)
Definition lower_char (c : ascii) : ascii :=
  let n := N_of_ascii c in
  if (65 <=? n)%N && (n <=? 90)%N then ascii_of_N (n + 32) else c.

Fixpoint str_repeat (s : string) (n : nat) : string :=
  match n with
  | O => ""
  | S n' => s +:+ str_repeat s n'
  end.

(* ================================================================= *)
(** ** src/notion/markdown.ts: blocks *)

(** One element of a [rich_text] array.  The decoder reads [plain_text]
    (present in what the API returns); the encoder writes [text.content]
    (what the API accepts). *)
Record RichText := {
  plain_text : option string;
  text_content : option string }.

(** [block.callout.icon] *)
Inductive Icon :=
| IconAbsent
| IconEmoji (emoji : option string)
| IconCustomEmoji (name : option string)
| IconOther.

(** A block as the codec reads it: [b_rich_text] is [block[type].rich_text]
    when it is an array, [b_checked] is the truth value of
    [block.to_do.checked], [b_language] is [block.code.language],
    [b_title] is [block.child_page.title], [b_children] is [block.children]
    when it is an array. *)
#[warning="-register-all"]
Inductive Block :=
| MkBlock (b_type : string) (b_id : option string)
    (b_rich_text : option (list RichText)) (b_checked : bool)
    (b_language : option string) (b_icon : Icon) (b_title : option string)
    (b_children : option (list Block)).

Definition b_type (b : Block) : string :=
  match b with MkBlock t _ _ _ _ _ _ _ => t end.
Definition b_id (b : Block) : option string :=
  match b with MkBlock _ i _ _ _ _ _ _ => i end.
Definition b_rich_text (b : Block) : option (list RichText) :=
  match b with MkBlock _ _ r _ _ _ _ _ => r end.
Definition b_children (b : Block) : option (list Block) :=
  match b with MkBlock _ _ _ _ _ _ _ c => c end.

(** [`${value}`] of a value that may be [undefined] *)
Definition js_template (v : option string) : string :=
  match v with Some s => s | None => "undefined" end.

Definition INDENT : string := "  ".

Definition richTextToPlain (richText : option (list RichText)) : string :=
  match richText with
  | None => ""
  | Some chunks =>
      str_join "" (map (λ chunk, default "" (plain_text chunk)) chunks)
  end.

Definition textContent (content : string) : list RichText :=
  [ {| plain_text := None; text_content := Some content |} ].

Definition speech_balloon : string := "💬".

Definition calloutIconToPlain (icon : Icon) : string :=
  match icon with
  | IconAbsent => speech_balloon
  | IconEmoji (Some e) => if str_nonempty e then e else speech_balloon
  | IconEmoji None => speech_balloon
  | IconCustomEmoji (Some n) =>
      if str_nonempty n then ":" +:+ n +:+ ":" else speech_balloon
  | IconCustomEmoji None => speech_balloon
  | IconOther => speech_balloon
  end.

(** [renderListChildren], over the function that renders one block. *)
Definition renderListChildren_of (render : Block → nat → list string)
    (children : option (list Block)) (depth : nat) : list string :=
  match children with
  | None => []
  | Some cs =>
      flat_map (λ child,
        map (λ line, str_repeat INDENT depth +:+ line)
            (render child (S depth))) cs
  end.

Definition unsupported_marker (type : string) (id : option string) : string :=
  "<!-- unsupported:" +:+ type +:+ " id:" +:+ js_template id +:+ " -->".

Fixpoint renderBlock (block : Block) (depth : nat) {struct block}
    : list string :=
  match block with
  | MkBlock type id rich checked language icon title children =>
    if decide (type = "paragraph") then
      let text := richTextToPlain rich in
      if str_nonempty text then [text] else [""]
    else if decide (type = "heading_1") then ["# " +:+ richTextToPlain rich]
    else if decide (type = "heading_2") then ["## " +:+ richTextToPlain rich]
    else if decide (type = "heading_3") then ["### " +:+ richTextToPlain rich]
    else if decide (type = "bulleted_list_item") then
      (str_repeat INDENT depth +:+ "- " +:+ richTextToPlain rich)
        :: renderListChildren_of renderBlock children (S depth)
    else if decide (type = "numbered_list_item") then
      (str_repeat INDENT depth +:+ "1. " +:+ richTextToPlain rich)
        :: renderListChildren_of renderBlock children (S depth)
    else if decide (type = "to_do") then
      let checked := if checked then "x" else " " in
      (str_repeat INDENT depth +:+ "- [" +:+ checked +:+ "] "
         +:+ richTextToPlain rich)
        :: renderListChildren_of renderBlock children (S depth)
    else if decide (type = "quote") then ["> " +:+ richTextToPlain rich]
    else if decide (type = "callout") then
      let text := richTextToPlain rich in
      let icon := calloutIconToPlain icon in
      let base :=
        if str_nonempty text then "> " +:+ icon +:+ " " +:+ text
        else "> " +:+ icon in
      let childLines :=
        map (λ line, if str_nonempty line then "> " +:+ line else ">")
            match children with
            | Some cs => flat_map (λ child, renderBlock child 0) cs
            | None => []
            end in
      base :: childLines
    else if decide (type = "code") then
      ["```" +:+ default "" language; richTextToPlain rich; "```"]
    else if decide (type = "divider") then ["---"]
    else if decide (type = "child_database") then
      ["[db:" +:+ js_template id +:+ "]"]
    else if decide (type = "child_page") then
      ["[[" +:+ default "child-page" title +:+ "]]"]
    else [unsupported_marker type id]
  end.

Definition renderListChildren := renderListChildren_of renderBlock.

(** The section a top-level block contributes:
    [renderBlock(block).join('\n').trimEnd()]. *)
Definition blockSection (block : Block) : string :=
  trimEnd (str_join (String "010" "") (renderBlock block 0)).

Definition notionBlocksToMarkdown (blocks : list Block) : string :=
  let sections := map blockSection blocks in
  trimEnd (str_join (String "010" (String "010" ""))
             (filter (λ section, str_nonempty section = true) sections)).

(* ----------------------------------------------------------------- *)
(** *** The regular expressions of the encoder, on a trimmed line *)

(** [codeStart]: three backquotes, then the rest of the line, which is the
    group (the language). *)
Definition match_codeStart (s : string) : option string :=
  match strip_prefix "```" s with
  | Some r => if str_forallb (λ c, negb (is_line_term c)) r then Some r else None
  | None => None
  end.

(** The end of the patterns below, [\s+] then a group up to [$]: a
    non-empty run of white space, then a rest without line terminator,
    which is the group. *)
Definition after_spaces (s : string) : option string :=
  let '(w, r) := span_while is_ws s in
  if str_nonempty w && str_forallb (λ c, negb (is_line_term c)) r
  then Some r else None.

(** [heading]: one to three [#], white space, the heading text. *)
Definition match_heading (s : string) : option (nat * string) :=
  let '(hs, r) := span_while (λ c, Ascii.eqb c "#") s in
  let level := String.length hs in
  if decide (1 ≤ level ≤ 3)%nat then
    match after_spaces r with
    | Some content => Some (level, content)
    | None => None
    end
  else None.

(** [todo]: [-], one white space, [[ ]], [[x]] or [[X]], white space, the
    text. *)
Definition match_todo (s : string) : option (ascii * string) :=
  match s with
  | String d (String w (String l (String m (String r rest)))) =>
      if Ascii.eqb d "-" && is_ws w && Ascii.eqb l "[" && Ascii.eqb r "]"
         && (Ascii.eqb m " " || Ascii.eqb m "x" || Ascii.eqb m "X")
      then match after_spaces rest with
           | Some text => Some (m, text)
           | None => None
           end
      else None
  | _ => None
  end.

(** [bullet]: [-], white space, the text. *)
Definition match_bullet (s : string) : option string :=
  match s with
  | String d rest => if Ascii.eqb d "-" then after_spaces rest else None
  | "" => None
  end.

(** [number]: digits, [.], white space, the text. *)
Definition match_number (s : string) : option string :=
  let '(ds, r) := span_while is_digit s in
  if str_nonempty ds then
    match r with
    | String dot rest => if Ascii.eqb dot "." then after_spaces rest else None
    | "" => None
    end
  else None.

(** [quote]: [>], at most one white space, the text. *)
Definition match_quote (s : string) : option string :=
  match s with
  | String g rest =>
      if Ascii.eqb g ">" then
        let r := match rest with
                 | String w rest' => if is_ws w then rest' else rest
                 | "" => rest
                 end in
        if str_forallb (λ c, negb (is_line_term c)) r then Some r else None
      else None
  | "" => None
  end.

(** The divider [/^---+$/] *)
Definition is_divider (s : string) : bool :=
  str_forallb (λ c, Ascii.eqb c "-") s && (3 <=? String.length s)%nat.

Definition isBlockBoundary (line : string) : bool :=
  (let '(hs, r) := span_while (λ c, Ascii.eqb c "#") line in
   let level := String.length hs in
   (1 <=? level)%nat && (level <=? 3)%nat
   && match r with String w _ => is_ws w | "" => false end)
  || match line with
     | String d (String w (String l (String m (String r (String w' _))))) =>
         Ascii.eqb d "-" && is_ws w && Ascii.eqb l "[" && Ascii.eqb r "]"
         && (Ascii.eqb m " " || Ascii.eqb m "x" || Ascii.eqb m "X")
         && is_ws w'
     | _ => false
     end
  || match line with
     | String d (String w _) => Ascii.eqb d "-" && is_ws w
     | _ => false
     end
  || (let '(ds, r) := span_while is_digit line in
      str_nonempty ds
      && match r with
         | String dot (String w _) => Ascii.eqb dot "." && is_ws w
         | _ => false
         end)
  || startsWith ">" line
  || startsWith "```" line
  || is_divider line.

(** A block as the encoder builds it:
    [{ object: 'block', type, [type]: { rich_text: textContent(content) } }]. *)
Definition textBlock (type content : string) : Block :=
  MkBlock type None (Some (textContent content)) false None IconAbsent None None.

Definition codeBlock (language : string) (codeLines : list string) : Block :=
  MkBlock "code" None (Some (textContent (str_join (String "010" "") codeLines)))
    false (Some language) IconAbsent None None.

Definition todoBlock (mark : ascii) (content : string) : Block :=
  MkBlock "to_do" None (Some (textContent content))
    (Ascii.eqb (lower_char mark) "x") None IconAbsent None None.

Definition dividerBlock : Block :=
  MkBlock "divider" None None false None IconAbsent None None.

(** The main loop of [markdownToNotionBlocks], on the lines from index [i]
    on.  Each inner [while] is a local loop over the following lines; it
    hands the lines it leaves to the main loop. *)
Fixpoint encodeLines (lines : list string) : list Block :=
  match lines with
  | [] => []
  | raw :: rest =>
    let line := trimEnd raw in
    let trimmed := trim line in
    if negb (str_nonempty trimmed) then encodeLines rest
    else match match_codeStart trimmed with
    | Some lang =>
      let language :=
        if str_nonempty (trim lang) then trim lang else "plain text" in
      (fix codeLoop (ls : list string) (codeLines : list string) : list Block :=
         match ls with
         | [] => [codeBlock language codeLines]
         | l :: ls' =>
             if startsWith "```" (trim l)
             then codeBlock language codeLines :: encodeLines ls'
             else codeLoop ls' (codeLines ++ [l])
         end) rest []
    | None =>
    match match_heading trimmed with
    | Some (level, content) =>
      textBlock ("heading_" +:+ nat_to_string level) content :: encodeLines rest
    | None =>
    match match_todo trimmed with
    | Some (mark, content) => todoBlock mark content :: encodeLines rest
    | None =>
    match match_bullet trimmed with
    | Some content =>
      textBlock "bulleted_list_item" content :: encodeLines rest
    | None =>
    match match_number trimmed with
    | Some content =>
      textBlock "numbered_list_item" content :: encodeLines rest
    | None =>
    match match_quote trimmed with
    | Some first =>
      (fix quoteLoop (ls : list string) (quoteLines : list string) : list Block :=
         match ls with
         | [] => [textBlock "quote" (str_join (String "010" "") quoteLines)]
         | l :: ls' =>
             match match_quote (trim l) with
             | Some next => quoteLoop ls' (quoteLines ++ [next])
             | None =>
                 textBlock "quote" (str_join (String "010" "") quoteLines)
                   :: encodeLines ls
             end
         end) rest [first]
    | None =>
    if is_divider trimmed then dividerBlock :: encodeLines rest
    else
      (fix paragraphLoop (ls : list string) (paragraphLines : list string)
           : list Block :=
         match ls with
         | [] => [textBlock "paragraph" (str_join (String "010" "") paragraphLines)]
         | l :: ls' =>
             let next := trimEnd l in
             if negb (str_nonempty (trim next)) || isBlockBoundary (trim next)
             then textBlock "paragraph" (str_join (String "010" "") paragraphLines)
                    :: encodeLines ls
             else paragraphLoop ls' (paragraphLines ++ [next])
         end) rest [line]
    end end end end end end
  end.

Definition markdownToNotionBlocks (markdown : string) : list Block :=
  encodeLines (split_on "010" (replace_crlf markdown)).

(** What the Notion API gives back for rich text it was sent: a chunk
    written with [text.content] is read back with the same [plain_text]. *)
Definition materializeRichText (chunk : RichText) : RichText :=
  match plain_text chunk with
  | Some _ => chunk
  | None =>
      {| plain_text := text_content chunk; text_content := text_content chunk |}
  end.

Fixpoint materializeBlock (block : Block) : Block :=
  match block with
  | MkBlock type id rich checked language icon title children =>
      MkBlock type id (option_map (map materializeRichText) rich) checked
        language icon title
        match children with
        | Some cs => Some (map materializeBlock cs)
        | None => None
        end
  end.

(* ================================================================= *)
(** ** Node's path.posix and src/utils/path.ts *)

(** Node's [normalizeString] on the segments between slashes; [res] holds
    the segments kept so far, last one first. *)
Fixpoint normalizeSegments (allowAboveRoot : bool) (res segs : list string)
    : list string :=
  match segs with
  | [] => rev res
  | seg :: rest =>
      if decide (seg = "") then normalizeSegments allowAboveRoot res rest
      else if decide (seg = ".") then normalizeSegments allowAboveRoot res rest
      else if decide (seg = "..") then
        match res with
        | last :: res' =>
            if decide (last = "..") then
              normalizeSegments allowAboveRoot
                (if allowAboveRoot then ".." :: res else res) rest
            else normalizeSegments allowAboveRoot res' rest
        | [] =>
            normalizeSegments allowAboveRoot
              (if allowAboveRoot then [".."] else []) rest
        end
      else normalizeSegments allowAboveRoot (seg :: res) rest
  end.

Definition normalizeString (path : string) (allowAboveRoot : bool) : string :=
  str_join "/" (normalizeSegments allowAboveRoot [] (split_on "/" path)).

Fixpoint endsWithSlash (s : string) : bool :=
  match s with
  | "" => false
  | String c "" => Ascii.eqb c "/"
  | String _ s' => endsWithSlash s'
  end.

(** [s.slice(0, -1)] *)
Fixpoint dropLast (s : string) : string :=
  match s with
  | "" => ""
  | String _ "" => ""
  | String c s' => String c (dropLast s')
  end.

Definition posix_normalize (path : string) : string :=
  if negb (str_nonempty path) then "."
  else
    let isAbsolute := startsWith "/" path in
    let trailingSeparator := endsWithSlash path in
    let p := normalizeString path (negb isAbsolute) in
    if negb (str_nonempty p) then
      if isAbsolute then "/" else if trailingSeparator then "./" else "."
    else
      let p := if trailingSeparator then p +:+ "/" else p in
      if isAbsolute then "/" +:+ p else p.

(** [posix.join(a, b)] *)
Definition posix_join (a b : string) : string :=
  match str_nonempty a, str_nonempty b with
  | false, false => "."
  | true, false => posix_normalize a
  | false, true => posix_normalize b
  | true, true => posix_normalize (a +:+ "/" +:+ b)
  end.

Definition resolveVirtualPath (input cwd : string) : string :=
  let base := if startsWith "/" input then input else posix_join cwd input in
  let normalized := posix_normalize base in
  let normalized :=
    if startsWith "/" normalized then normalized else "/" +:+ normalized in
  if (1 <? String.length normalized) && endsWithSlash normalized
  then dropLast normalized else normalized.

(* ================================================================= *)
(** ** src/notion/gateway.ts: records and the root filter *)

(** [record.parent]: only its [type] and the id it carries are read. *)
Inductive Parent :=
| ParentPageId (page_id : string)
| ParentDatabaseId (database_id : string)
| ParentWorkspace
| ParentOther.

Inductive RecordObject := ObjPage | ObjDataSource.

Record NotionRecordMeta := {
  r_id : string;
  r_object : RecordObject;
  r_title : string;
  r_parent : Parent;
  r_createdTime : string;
  r_lastEditedTime : string;
  r_owner : string }.

Definition idNoDash (item : NotionRecordMeta) : string :=
  remove_dashes (r_id item).

Definition parentPageNoDash (item : NotionRecordMeta) : option string :=
  match r_parent item with
  | ParentPageId pid => Some (remove_dashes pid)
  | _ => None
  end.

(** One round of the [for (const item of items)] loop of [filterByRoot]:
    the grown [included] set and the [changed] flag. *)
Definition filterByRoot_step (acc : gset string * bool)
    (item : NotionRecordMeta) : gset string * bool :=
  let '(included, changed) := acc in
  if decide (idNoDash item ∈ included) then acc
  else match parentPageNoDash item with
       | Some p =>
           if str_nonempty p && bool_decide (p ∈ included)
           then ({[idNoDash item]} ∪ included, true)
           else acc
       | None => acc
       end.

Definition filterByRoot_pass (items : list NotionRecordMeta)
    (included : gset string) : gset string * bool :=
  fold_left filterByRoot_step items (included, false).

(** The [while (changed)] loop. *)
Fixpoint filterByRoot_loop (fuel : nat) (items : list NotionRecordMeta)
    (included : gset string) : option (gset string) :=
  match fuel with
  | O => None
  | S fuel' =>
      let '(included', changed) := filterByRoot_pass items included in
      if changed then filterByRoot_loop fuel' items included'
      else Some included'
  end.

(** [filterByRoot(records, rootPageId)]; an absent or empty root id keeps
    every record.  [None] is a loop still running after
    [S (length records)] rounds. *)
Definition filterByRoot (records : list NotionRecordMeta)
    (rootPageId : option string) : option (list NotionRecordMeta) :=
  match rootPageId with
  | None => Some records
  | Some root =>
      if negb (str_nonempty root) then Some records
      else
        match filterByRoot_loop (S (length records)) records
                {[remove_dashes root]} with
        | Some included =>
            Some (filter (λ item, idNoDash item ∈ included) records)
        | None => None
        end
  end.

(** [listRecords(rootPageId)] on what the two searches return. *)
Definition listRecords_of (rawPages rawDatabases : list NotionRecordMeta)
    (rootPageId : option string)
    : option (list NotionRecordMeta * list NotionRecordMeta) :=
  match filterByRoot rawPages rootPageId,
        filterByRoot rawDatabases rootPageId with
  | Some pages, Some databases => Some (pages, databases)
  | _, _ => None
  end.

(* ================================================================= *)
(** ** The remote workspace behind the gateway *)

Inductive GatewayCall :=
| CallListRecords (rootPageId : option string)
| CallReadPageMarkdown (pageId : string)
| CallGetPageMeta (pageId : string)
| CallReplacePageMarkdown (pageId markdown : string).

(** The remote workspace and the clock, as one session step sees them:
    [w_pages] and [w_databases] are what the two searches return,
    [w_blocks] the block tree of each page, [w_now] is [Date.now()],
    [w_latency] the time one gateway call takes, [w_stamp] the
    [last_edited_time] the server gives to an edit made now, [w_calls] the
    gateway calls made so far, oldest first. *)
Record World := {
  w_pages : list NotionRecordMeta;
  w_databases : list NotionRecordMeta;
  w_blocks : gmap string (list Block);
  w_now : Z;
  w_latency : Z;
  w_stamp : string;
  w_calls : list GatewayCall }.

Definition gatewayCall (call : GatewayCall) (w : World) : World :=
  {| w_pages := w_pages w; w_databases := w_databases w;
     w_blocks := w_blocks w; w_now := (w_now w + w_latency w)%Z;
     w_latency := w_latency w; w_stamp := w_stamp w;
     w_calls := w_calls w ++ [call] |}.

(** [readPageMarkdown(pageId)] *)
Definition readPageMarkdown (pageId : string) (w : World)
    : World * res string :=
  let w := gatewayCall (CallReadPageMarkdown pageId) w in
  match w_blocks w !! pageId with
  | Some blocks => (w, Done (notionBlocksToMarkdown blocks))
  | None => (w, Throw ("Could not find block with ID: " +:+ pageId))
  end.

(** Modelled from the spec: [getPageMeta], which [writeFile] calls and the
    gateway source at hand does not define.  The spec's
    [getMetadata(id) -> {lastEditedAt, owner}] is a metadata-only fetch of
    one record; it fails for an unknown id. *)
Definition getPageMeta (pageId : string) (w : World)
    : World * res NotionRecordMeta :=
  let w := gatewayCall (CallGetPageMeta pageId) w in
  match find (λ r, bool_decide (r_id r = pageId)) (w_pages w) with
  | Some meta => (w, Done meta)
  | None => (w, Throw ("Could not find page with ID: " +:+ pageId))
  end.

Definition stampRecord (pageId stamp : string) (r : NotionRecordMeta)
    : NotionRecordMeta :=
  if bool_decide (r_id r = pageId) then
    {| r_id := r_id r; r_object := r_object r; r_title := r_title r;
       r_parent := r_parent r; r_createdTime := r_createdTime r;
       r_lastEditedTime := stamp; r_owner := r_owner r |}
  else r.

(** [replacePageMarkdown(pageId, markdown)]: the existing blocks are
    archived and the encoded ones appended; the server stamps the page. *)
Definition replacePageMarkdown (pageId markdown : string) (w : World)
    : World * res unit :=
  let w := gatewayCall (CallReplacePageMarkdown pageId markdown) w in
  match w_blocks w !! pageId with
  | Some _ =>
      ({| w_pages := map (stampRecord pageId (w_stamp w)) (w_pages w);
          w_databases := w_databases w;
          w_blocks :=
            <[pageId := map materializeBlock (markdownToNotionBlocks markdown)]>
              (w_blocks w);
          w_now := w_now w; w_latency := w_latency w; w_stamp := w_stamp w;
          w_calls := w_calls w |}, Done ())
  | None => (w, Throw ("Could not find block with ID: " +:+ pageId))
  end.

(* ================================================================= *)
(** ** src/vfs/types.ts and the state of VirtualFs *)

Record EntryMeta := {
  m_createdTime : option string;
  m_lastEditedTime : option string;
  m_owner : option string;
  m_pageId : option string;
  m_databaseId : option string }.

Definition emptyMeta : EntryMeta :=
  {| m_createdTime := None; m_lastEditedTime := None; m_owner := None;
     m_pageId := None; m_databaseId := None |}.

Inductive FsEntry :=
| DirEntry (name path parentPath : string) (children : gset string)
    (meta : EntryMeta)
| FileEntry (name path parentPath : string) (readonly : bool)
    (pageId : string) (meta : EntryMeta)
| DbPlaceholderEntry (name path parentPath : string) (databaseId : string)
    (meta : EntryMeta).

Definition e_name (e : FsEntry) : string :=
  match e with
  | DirEntry n _ _ _ _ | FileEntry n _ _ _ _ _ | DbPlaceholderEntry n _ _ _ _ => n
  end.
Definition e_path (e : FsEntry) : string :=
  match e with
  | DirEntry _ p _ _ _ | FileEntry _ p _ _ _ _ | DbPlaceholderEntry _ p _ _ _ => p
  end.
Definition e_parentPath (e : FsEntry) : string :=
  match e with
  | DirEntry _ _ q _ _ | FileEntry _ _ q _ _ _ | DbPlaceholderEntry _ _ q _ _ => q
  end.
Definition e_meta (e : FsEntry) : EntryMeta :=
  match e with
  | DirEntry _ _ _ _ m | FileEntry _ _ _ _ _ m | DbPlaceholderEntry _ _ _ _ m => m
  end.
Definition e_children (e : FsEntry) : gset string :=
  match e with
  | DirEntry _ _ _ c _ => c
  | _ => ∅
  end.
Definition is_dir (e : FsEntry) : bool :=
  match e with DirEntry _ _ _ _ _ => true | _ => false end.

Record MarkdownCacheEntry := {
  c_markdown : string;
  c_fetchedAt : Z;
  c_lastEditedTime : option string }.

(** [refreshPromise] holds the number of the rebuild in flight. *)
Record VirtualFs := {
  entries : gmap string FsEntry;
  pageDirPathById : gmap string string;
  cache : gmap string MarkdownCacheEntry;
  notionPages : gmap string NotionRecordMeta;
  ttlMs : Z;
  rootPageId : option string;
  refreshPromise : option nat;
  lastRefreshAt : Z;
  indexedAtLeastOnce : bool }.

Definition set_entries (es : gmap string FsEntry) (fs : VirtualFs) : VirtualFs :=
  {| entries := es; pageDirPathById := pageDirPathById fs; cache := cache fs;
     notionPages := notionPages fs; ttlMs := ttlMs fs;
     rootPageId := rootPageId fs; refreshPromise := refreshPromise fs;
     lastRefreshAt := lastRefreshAt fs;
     indexedAtLeastOnce := indexedAtLeastOnce fs |}.

Definition set_pageDirPathById (m : gmap string string) (fs : VirtualFs)
    : VirtualFs :=
  {| entries := entries fs; pageDirPathById := m; cache := cache fs;
     notionPages := notionPages fs; ttlMs := ttlMs fs;
     rootPageId := rootPageId fs; refreshPromise := refreshPromise fs;
     lastRefreshAt := lastRefreshAt fs;
     indexedAtLeastOnce := indexedAtLeastOnce fs |}.

Definition set_cache (c : gmap string MarkdownCacheEntry) (fs : VirtualFs)
    : VirtualFs :=
  {| entries := entries fs; pageDirPathById := pageDirPathById fs; cache := c;
     notionPages := notionPages fs; ttlMs := ttlMs fs;
     rootPageId := rootPageId fs; refreshPromise := refreshPromise fs;
     lastRefreshAt := lastRefreshAt fs;
     indexedAtLeastOnce := indexedAtLeastOnce fs |}.

Definition set_notionPages (m : gmap string NotionRecordMeta) (fs : VirtualFs)
    : VirtualFs :=
  {| entries := entries fs; pageDirPathById := pageDirPathById fs;
     cache := cache fs; notionPages := m; ttlMs := ttlMs fs;
     rootPageId := rootPageId fs; refreshPromise := refreshPromise fs;
     lastRefreshAt := lastRefreshAt fs;
     indexedAtLeastOnce := indexedAtLeastOnce fs |}.

Definition set_refreshPromise (p : option nat) (fs : VirtualFs) : VirtualFs :=
  {| entries := entries fs; pageDirPathById := pageDirPathById fs;
     cache := cache fs; notionPages := notionPages fs; ttlMs := ttlMs fs;
     rootPageId := rootPageId fs; refreshPromise := p;
     lastRefreshAt := lastRefreshAt fs;
     indexedAtLeastOnce := indexedAtLeastOnce fs |}.

Definition set_indexed (now : Z) (fs : VirtualFs) : VirtualFs :=
  {| entries := entries fs; pageDirPathById := pageDirPathById fs;
     cache := cache fs; notionPages := notionPages fs; ttlMs := ttlMs fs;
     rootPageId := rootPageId fs; refreshPromise := refreshPromise fs;
     lastRefreshAt := now; indexedAtLeastOnce := true |}.

(** The constructor: [new VirtualFs(notion, cacheTtlSeconds, rootPageId)]
    leaves the two fixed directories of [reset]. *)
Definition rootEntries : gmap string FsEntry :=
  <["/pages" := DirEntry "pages" "/pages" "/" ∅ emptyMeta]>
    (<["/" := DirEntry "/" "/" "/" {["/pages"]} emptyMeta]> ∅).

Definition reset (fs : VirtualFs) : VirtualFs :=
  set_notionPages ∅ (set_pageDirPathById ∅ (set_entries rootEntries fs)).

Definition newVirtualFs (cacheTtlSeconds : Z) (root : option string)
    : VirtualFs :=
  {| entries := rootEntries; pageDirPathById := ∅; cache := ∅;
     notionPages := ∅; ttlMs := (cacheTtlSeconds * 1000)%Z;
     rootPageId := root; refreshPromise := None; lastRefreshAt := 0%Z;
     indexedAtLeastOnce := false |}.

(** [ensureParentDir]: the directory entry stored at [parentPath]. *)
Definition ensureParentDir (parentPath : string) (fs : VirtualFs)
    : res FsEntry :=
  match entries fs !! parentPath with
  | Some (DirEntry n p q c m) => Done (DirEntry n p q c m)
  | _ => Throw ("Parent directory missing for " +:+ parentPath)
  end.

(** [parent.children.add(pathname)] on the object [parent], which was read
    from the map before [entries.set(pathname, entry)]: when the new entry
    took the parent's key the mutated object is no longer in the map. *)
Definition addChild (parent : FsEntry) (parentPath pathname : string)
    (es : gmap string FsEntry) : gmap string FsEntry :=
  if decide (pathname = parentPath) then es
  else match parent with
       | DirEntry n p q c m => <[parentPath := DirEntry n p q ({[pathname]} ∪ c) m]> es
       | _ => es
       end.

Definition insertEntry (pathname parentPath : string) (entry : FsEntry)
    (fs : VirtualFs) : res VirtualFs :=
  parent ← ensureParentDir parentPath fs;
  mret (set_entries
          (addChild parent parentPath pathname (<[pathname := entry]> (entries fs)))
          fs).

Definition addDir (pathname name parentPath : string) (meta : EntryMeta)
    (fs : VirtualFs) : res VirtualFs :=
  insertEntry pathname parentPath (DirEntry name pathname parentPath ∅ meta) fs.

Definition pageMeta (page : NotionRecordMeta) : EntryMeta :=
  {| m_createdTime := Some (r_createdTime page);
     m_lastEditedTime := Some (r_lastEditedTime page);
     m_owner := Some (r_owner page);
     m_pageId := Some (r_id page); m_databaseId := None |}.

Definition databaseMeta (database : NotionRecordMeta) : EntryMeta :=
  {| m_createdTime := Some (r_createdTime database);
     m_lastEditedTime := Some (r_lastEditedTime database);
     m_owner := Some (r_owner database);
     m_pageId := None; m_databaseId := Some (r_id database) |}.

Definition addPageFile (pathname parentPath : string) (page : NotionRecordMeta)
    (fs : VirtualFs) : res VirtualFs :=
  insertEntry pathname parentPath
    (FileEntry "index.md" pathname parentPath false (r_id page) (pageMeta page)) fs.

Definition addDbPlaceholder (pathname name parentPath : string)
    (database : NotionRecordMeta) (fs : VirtualFs) : res VirtualFs :=
  insertEntry pathname parentPath
    (DbPlaceholderEntry name pathname parentPath (r_id database)
       (databaseMeta database)) fs.

Definition resolve (pathInput cwd : string) : string :=
  resolveVirtualPath pathInput cwd.

(** [ensurePageFile]: the file entry, with the key it is stored under. *)
Definition ensurePageFile (pathInput cwd : string) (fs : VirtualFs)
    : res (string * FsEntry) :=
  let resolved := resolve pathInput cwd in
  match entries fs !! resolved with
  | Some (FileEntry n p q ro pid m) => Done (resolved, FileEntry n p q ro pid m)
  | Some (DirEntry n p q c m) =>
      let indexPath := posix_join p "index.md" in
      match entries fs !! indexPath with
      | Some (FileEntry n' p' q' ro pid m') =>
          Done (indexPath, FileEntry n' p' q' ro pid m')
      | _ => Throw ("File does not exist: " +:+ resolved)
      end
  | Some (DbPlaceholderEntry n p q did m) =>
      Throw ("Read-only database placeholder: " +:+ p)
  | None => Throw ("File does not exist: " +:+ resolved)
  end.

(** [findUniquePath]: the [while (this.entries.has(...)) i += 1] loop. *)
Fixpoint findUniquePath_loop (fuel : nat) (parentPath filename : string)
    (es : gmap string FsEntry) (i : nat) : option nat :=
  match fuel with
  | O => None
  | S fuel' =>
      match es !! posix_join parentPath (filename +:+ "-" +:+ nat_to_string i) with
      | Some _ => findUniquePath_loop fuel' parentPath filename es (S i)
      | None => Some i
      end
  end.

Definition findUniquePath (parentPath filename : string) (fs : VirtualFs)
    : option string :=
  match entries fs !! posix_join parentPath filename with
  | None => Some (posix_join parentPath filename)
  | Some _ =>
      match findUniquePath_loop (S (size (entries fs))) parentPath filename
              (entries fs) 2 with
      | Some i =>
          Some (posix_join parentPath (filename +:+ "-" +:+ nat_to_string i))
      | None => None
      end
  end.

Section NotionSsh.

(** [slugify(title, { lower: true, strict: true, trim: true })] of the
    [slugify] package, and [String.prototype.localeCompare]. *)
Variable slugify : string → string.
Variable localeCompare : string → string → Z.

Definition slugFromTitle (title : string) : string :=
  let slugged := slugify title in
  if decide (0 < String.length slugged) then slugged else "untitled".

(** The names given to the records of one sibling set: the calls
    [uniqueName(slugFromTitle(page.title), used, page.id)] that
    [buildPageTree] makes for the children of one parent, in order, on the
    [used] set of that parent.  A sibling is a pair [(title, id)]. *)
Fixpoint siblingNames (siblings : list (string * string))
    (used : gset string) : option (list string) :=
  match siblings with
  | [] => Some []
  | (title, id) :: rest =>
      match uniqueName (slugFromTitle title) used id with
      | Some (name, used') =>
          match siblingNames rest used' with
          | Some names => Some (name :: names)
          | None => None
          end
      | None => None
      end
  end.

(* ----------------------------------------------------------------- *)
(** *** refresh: the rebuild of the tree *)

(** [list.sort((a, b) => a.title.localeCompare(b.title))]: the sort is
    stable, so it is the insertion of each record, in order, behind the
    records that do not come after it. *)
Fixpoint insertByTitle (x : NotionRecordMeta) (sorted : list NotionRecordMeta)
    : list NotionRecordMeta :=
  match sorted with
  | [] => [x]
  | y :: rest =>
      if (localeCompare (r_title x) (r_title y) <? 0)%Z then x :: y :: rest
      else y :: insertByTitle x rest
  end.

Definition sortByTitle (l : list NotionRecordMeta) : list NotionRecordMeta :=
  fold_left (λ sorted x, insertByTitle x sorted) l [].

Definition eligiblePage (page : NotionRecordMeta) : bool :=
  match r_parent page with ParentDatabaseId _ => false | _ => true end.

(** The loop that fills [childrenByParentPage] and [roots]. *)
Definition classifyPage (known : gmap string NotionRecordMeta)
    (acc : gmap string (list NotionRecordMeta) * list NotionRecordMeta)
    (page : NotionRecordMeta)
    : gmap string (list NotionRecordMeta) * list NotionRecordMeta :=
  let '(childrenByParentPage, roots) := acc in
  match r_parent page with
  | ParentPageId pid =>
      match known !! pid with
      | None => (childrenByParentPage, roots ++ [page])
      | Some _ =>
          let children := default [] (childrenByParentPage !! pid) in
          (<[pid := children ++ [page]]> childrenByParentPage, roots)
      end
  | _ => (childrenByParentPage, roots ++ [page])
  end.

(** The state [buildPageTree] works on: the file system and the local
    [siblingNamesByPath]. *)
Definition BuildState : Type := VirtualFs * gmap string (gset string).

Fixpoint forEachM {A S : Type} (body : A → S → res S) (l : list A) (st : S)
    : res S :=
  match l with
  | [] => Done st
  | x :: rest => st' ← body x st; forEachM body rest st'
  end.

(** [buildPageTree(page, parentPath)]; [fuel] bounds the depth of the
    recursion. *)
Fixpoint buildPageTree (fuel : nat)
    (childrenByParentPage : gmap string (list NotionRecordMeta))
    (page : NotionRecordMeta) (parentPath : string) (st : BuildState)
    : res BuildState :=
  match fuel with
  | O => Diverge
  | S fuel' =>
      let '(fs, siblingNamesByPath) := st in
      let used := default ∅ (siblingNamesByPath !! parentPath) in
      let base := slugFromTitle (r_title page) in
      match uniqueName base used (r_id page) with
      | None => Diverge
      | Some (dirName, used') =>
          let siblingNamesByPath := <[parentPath := used']> siblingNamesByPath in
          let dirPath := posix_join parentPath dirName in
          fs ← addDir dirPath dirName parentPath (pageMeta page) fs;
          let fs :=
            set_pageDirPathById (<[r_id page := dirPath]> (pageDirPathById fs)) fs in
          fs ← addPageFile (posix_join dirPath "index.md") dirPath page fs;
          let children :=
            sortByTitle (default [] (childrenByParentPage !! r_id page)) in
          forEachM (λ child st,
                      buildPageTree fuel' childrenByParentPage child dirPath st)
            children (fs, siblingNamesByPath)
      end
  end.

(** The truth value of [this.pageDirPathById.get(id)] and the path. *)
Definition parentDirOf (database : NotionRecordMeta) (fs : VirtualFs) : string :=
  match r_parent database with
  | ParentPageId pid =>
      match pageDirPathById fs !! pid with
      | Some parentDir => if str_nonempty parentDir then parentDir else "/pages"
      | None => "/pages"
      end
  | _ => "/pages"
  end.

(** One round of [for (const database of databases)]. *)
Definition addDatabase (database : NotionRecordMeta) (st : BuildState)
    : res BuildState :=
  let '(fs, dbNamesByParent) := st in
  let parentPath := parentDirOf database fs in
  let used := default ∅ (dbNamesByParent !! parentPath) in
  let base := "[db:" +:+ shortId (r_id database) +:+ "]" in
  match uniqueName base used (r_id database) with
  | None => Diverge
  | Some (name, used') =>
      match findUniquePath parentPath name fs with
      | None => Diverge
      | Some dbPath =>
          fs ← addDbPlaceholder dbPath name parentPath database fs;
          mret (fs, <[parentPath := used']> dbNamesByParent)
      end
  end.

(** What the body of [refresh] does once [listRecords] has answered with
    [pages] and [databases], up to the two flags. *)
Definition rebuild (pages databases : list NotionRecordMeta) (fs : VirtualFs)
    : res VirtualFs :=
  let fs := reset fs in
  let fs :=
    set_notionPages
      (fold_left (λ m page, <[r_id page := page]> m) pages (notionPages fs)) fs in
  let eligiblePages := filter (λ page, eligiblePage page = true) pages in
  let '(childrenByParentPage, roots) :=
    fold_left (classifyPage (notionPages fs)) eligiblePages (∅, []) in
  '(fs, _) ← forEachM (λ root st,
                 buildPageTree (S (length pages)) childrenByParentPage root
                   "/pages" st)
               (sortByTitle roots) (fs, ∅);
  '(fs, _) ← forEachM addDatabase databases (fs, ∅);
  mret fs.

(* ----------------------------------------------------------------- *)
(** *** refresh: who rebuilds *)

Inductive RefreshOutcome :=
| RefreshNoop
| RefreshFollows (promise : nat)
| RefreshStarts (promise : nat).

Definition refreshIsFresh (fs : VirtualFs) (now : Z) : bool :=
  indexedAtLeastOnce fs && (now - lastRefreshAt fs <? ttlMs fs)%Z.

(** [refresh(force)] up to its first [await]: a fresh index answers at
    once, a rebuild in flight is handed out, otherwise the rebuild starts
    and calls [listRecords] (the promise is numbered by the calls made so
    far). *)
Definition refresh_call (force : bool) (fs : VirtualFs) (w : World)
    : VirtualFs * World * RefreshOutcome :=
  let now := w_now w in
  if negb force && refreshIsFresh fs now then (fs, w, RefreshNoop)
  else match refreshPromise fs with
       | Some promise => (fs, w, RefreshFollows promise)
       | None =>
           let promise := length (w_calls w) in
           (set_refreshPromise (Some promise) fs,
            gatewayCall (CallListRecords (rootPageId fs)) w,
            RefreshStarts promise)
       end.

(** The rest of the rebuild in flight, run when [listRecords] has answered
    with the records of [w]: the rebuilt tree, the two flags, and the
    [finally] that clears [refreshPromise]. *)
Definition refresh_settle (fs : VirtualFs) (w : World) : res VirtualFs :=
  match listRecords_of (w_pages w) (w_databases w) (rootPageId fs) with
  | None => Diverge
  | Some (pages, databases) =>
      fs ← rebuild pages databases fs;
      mret (set_refreshPromise None (set_indexed (w_now w) fs))
  end.

(** The calls [refresh(force)] made one after the other, each at its own
    time, before the rebuild in flight settles. *)
Fixpoint refresh_calls (calls : list (bool * Z)) (fs : VirtualFs) (w : World)
    : VirtualFs * World * list RefreshOutcome :=
  match calls with
  | [] => (fs, w, [])
  | (force, now) :: rest =>
      let w := {| w_pages := w_pages w; w_databases := w_databases w;
                  w_blocks := w_blocks w; w_now := now;
                  w_latency := w_latency w; w_stamp := w_stamp w;
                  w_calls := w_calls w |} in
      let '(fs, w, outcome) := refresh_call force fs w in
      let '(fs, w, outcomes) := refresh_calls rest fs w in
      (fs, w, outcome :: outcomes)
  end.

Definition isListing (call : GatewayCall) : bool :=
  match call with CallListRecords _ => true | _ => false end.

Definition listingPasses (w : World) : nat :=
  length (filter (λ call, isListing call = true) (w_calls w)).

(* ----------------------------------------------------------------- *)
(** *** readFile and writeFile *)

Definition js_truthy (v : option string) : bool :=
  match v with Some s => str_nonempty s | None => false end.

Definition dbPlaceholderText (databaseId : string) : string :=
  trim ("# Database Placeholder" +:+ String "010" (String "010" "")
        +:+ "[db:" +:+ databaseId +:+ "]" +:+ String "010" (String "010" "")
        +:+ "Database mounting is disabled in MVP.").

Definition pageIdOf (file : FsEntry) : string :=
  match file with FileEntry _ _ _ _ pid _ => pid | _ => "" end.

(** [readFile] from [const cached = ...] on, for the file entry that
    [ensurePageFile] returned. *)
Definition readFileEntry (file : FsEntry) (fs : VirtualFs) (w : World)
    : VirtualFs * World * res string :=
  let pageId := pageIdOf file in
  let hit :=
    match cache fs !! pageId with
    | Some cached =>
        if (w_now w - c_fetchedAt cached <? ttlMs fs)%Z
        then Some (c_markdown cached) else None
    | None => None
    end in
  match hit with
  | Some markdown => (fs, w, Done markdown)
  | None =>
      match readPageMarkdown pageId w with
      | (w, Done markdown) =>
          (set_cache
             (<[pageId := {| c_markdown := markdown;
                             c_fetchedAt := w_now w;
                             c_lastEditedTime :=
                               m_lastEditedTime (e_meta file) |}]>
                (cache fs)) fs,
           w, Done markdown)
      | (w, Throw msg) => (fs, w, Throw msg)
      | (w, Diverge) => (fs, w, Diverge)
      end
  end.

Definition readFile (pathInput cwd : string) (fs : VirtualFs) (w : World)
    : VirtualFs * World * res string :=
  match entries fs !! resolve pathInput cwd with
  | Some (DbPlaceholderEntry _ _ _ databaseId _) =>
      (fs, w, Done (dbPlaceholderText databaseId))
  | _ =>
      match ensurePageFile pathInput cwd fs with
      | Throw msg => (fs, w, Throw msg)
      | Diverge => (fs, w, Diverge)
      | Done (_, file) => readFileEntry file fs w
      end
  end.

Definition conflictMessage (path remote local : string) : string :=
  "Conflict detected for " +:+ path
  +:+ ". Remote page changed since last sync (remote: " +:+ remote
  +:+ ", local: " +:+ local +:+ "). Run refresh and merge manually.".

(** [file.meta.lastEditedTime = ...; file.meta.owner = ...] on the entry
    object, which the map still holds under [key]. *)
Definition touchMeta (updated : NotionRecordMeta) (file : FsEntry) : FsEntry :=
  match file with
  | FileEntry n p q ro pid m =>
      FileEntry n p q ro pid
        {| m_createdTime := m_createdTime m;
           m_lastEditedTime := Some (r_lastEditedTime updated);
           m_owner := Some (r_owner updated);
           m_pageId := m_pageId m; m_databaseId := m_databaseId m |}
  | _ => file
  end.

(** [writeFile] from [const remoteMeta = ...] on, for the file entry that
    [ensurePageFile] returned and the key it is stored under. *)
Definition writeFileEntry (key : string) (file : FsEntry) (markdown : string)
    (fs : VirtualFs) (w : World) : VirtualFs * World * res unit :=
  let pageId := pageIdOf file in
  match getPageMeta pageId w with
  | (w, Throw msg) => (fs, w, Throw msg)
  | (w, Diverge) => (fs, w, Diverge)
  | (w, Done remoteMeta) =>
      let expectedLastEditedTime := m_lastEditedTime (e_meta file) in
      if js_truthy expectedLastEditedTime
         && str_nonempty (r_lastEditedTime remoteMeta)
         && negb (bool_decide
                    (Some (r_lastEditedTime remoteMeta) = expectedLastEditedTime))
      then
        (fs, w,
         Throw (conflictMessage (e_path file) (r_lastEditedTime remoteMeta)
                  (default "" expectedLastEditedTime)))
      else
        match replacePageMarkdown pageId markdown w with
        | (w, Throw msg) => (fs, w, Throw msg)
        | (w, Diverge) => (fs, w, Diverge)
        | (w, Done _) =>
            match getPageMeta pageId w with
            | (w, Throw msg) => (fs, w, Throw msg)
            | (w, Diverge) => (fs, w, Diverge)
            | (w, Done updatedMeta) =>
                let file := touchMeta updatedMeta file in
                let fs := set_entries (<[key := file]> (entries fs)) fs in
                (set_cache
                   (<[pageId := {| c_markdown := markdown;
                                   c_fetchedAt := w_now w;
                                   c_lastEditedTime :=
                                     m_lastEditedTime (e_meta file) |}]>
                      (cache fs)) fs,
                 w, Done ())
            end
        end
  end.

Definition writeFile (pathInput markdown cwd : string) (fs : VirtualFs)
    (w : World) : VirtualFs * World * res unit :=
  match entries fs !! resolve pathInput cwd with
  | Some (DbPlaceholderEntry _ path _ _ _) =>
      (fs, w, Throw ("Cannot write to database placeholder: " +:+ path))
  | _ =>
      match ensurePageFile pathInput cwd fs with
      | Throw msg => (fs, w, Throw msg)
      | Diverge => (fs, w, Diverge)
      | Done (key, file) => writeFileEntry key file markdown fs w
      end
  end.

(* ================================================================= *)
(** ** src/session/shell.ts: the edit session *)

Record EditState := {
  es_path : string;
  es_buffer : list string }.

(** [channel] is the text written to the terminal so far, oldest first. *)
Record ShellSession := {
  cwd : string;
  editState : option EditState;
  channel : list string }.

Definition writeLine (text : string) (sh : ShellSession) : ShellSession :=
  {| cwd := cwd sh; editState := editState sh;
     channel := channel sh ++ [text +:+ String "013" (String "010" "")] |}.

Definition set_editState (es : option EditState) (sh : ShellSession)
    : ShellSession :=
  {| cwd := cwd sh; editState := es; channel := channel sh |}.

Definition promptLabel (sh : ShellSession) : string :=
  match editState sh with
  | Some _ => "edit> "
  | None => "notion:" +:+ cwd sh +:+ "$ "
  end.

Definition writePrompt (sh : ShellSession) : ShellSession :=
  {| cwd := cwd sh; editState := editState sh;
     channel := channel sh ++ [promptLabel sh] |}.

(** [Number(digits)] for a run of decimal digits. *)
Definition numberOf (digits : string) : nat :=
  match NilEmpty.uint_of_string digits with
  | Some d => Nat.of_uint d
  | None => 0
  end.

(** [:set], white space, digits, white space, the text: the digits and
    the text. *)
Definition match_set (s : string) : option (string * string) :=
  match strip_prefix ":set" s with
  | Some r =>
      let '(w, r) := span_while is_ws r in
      let '(ds, r) := span_while is_digit r in
      if str_nonempty w && str_nonempty ds then
        match after_spaces r with
        | Some text => Some (ds, text)
        | None => None
        end
      else None
  | None => None
  end.

(** [:del], white space, digits up to the end: the digits. *)
Definition match_del (s : string) : option string :=
  match strip_prefix ":del" s with
  | Some r =>
      let '(w, r) := span_while is_ws r in
      let '(ds, r) := span_while is_digit r in
      if str_nonempty w && str_nonempty ds && negb (str_nonempty r)
      then Some ds else None
  | None => None
  end.

(** [buffer.splice(index, 1)] *)
Fixpoint spliceOne {A} (index : nat) (l : list A) : list A :=
  match index, l with
  | _, [] => []
  | O, _ :: rest => rest
  | S i, x :: rest => x :: spliceOne i rest
  end.

Definition withBuffer (es : EditState) (buffer : list string)
    (sh : ShellSession) : ShellSession :=
  set_editState (Some {| es_path := es_path es; es_buffer := buffer |}) sh.

Definition handleEditLine (line : string) (sh : ShellSession)
    (fs : VirtualFs) (w : World)
    : ShellSession * VirtualFs * World * res unit :=
  match editState sh with
  | None => (sh, fs, w, Done ())
  | Some es =>
      let trimmed := trim line in
      if decide (trimmed = ":q!") then
        (writeLine "edit cancelled" (set_editState None sh), fs, w, Done ())
      else if decide (trimmed = ":wq") then
        let payload := str_join (String "010" "") (es_buffer es) in
        match writeFile (es_path es) payload (cwd sh) fs w with
        | (fs, w, Done _) =>
            (set_editState None (writeLine ("saved " +:+ es_path es) sh),
             fs, w, Done ())
        | (fs, w, Throw msg) => (sh, fs, w, Throw msg)
        | (fs, w, Diverge) => (sh, fs, w, Diverge)
        end
      else if decide (trimmed = ":p") then
        (match es_buffer es with
         | [] => writeLine "(empty buffer)" sh
         | buffer =>
             fold_left (λ sh '(i, text),
                          writeLine (str_repeat " " (4 - String.length
                                                       (nat_to_string (S i)))
                                     +:+ nat_to_string (S i) +:+ "  " +:+ text) sh)
               (imap (λ i text, (i, text)) buffer) sh
         end, fs, w, Done ())
      else if decide (trimmed = ":clear") then
        (writeLine "buffer cleared" (withBuffer es [] sh), fs, w, Done ())
      else if startsWith ":set " trimmed then
        match match_set trimmed with
        | None => (sh, fs, w, Throw "Usage: :set <line> <text>")
        | Some (digits, text) =>
            let n := numberOf digits in
            if (n =? 0) || (length (es_buffer es) <? n) then
              (sh, fs, w, Throw ("Line out of range: " +:+ digits))
            else
              (withBuffer es (<[n - 1 := text]> (es_buffer es)) sh, fs, w, Done ())
        end
      else if startsWith ":del " trimmed then
        match match_del trimmed with
        | None => (sh, fs, w, Throw "Usage: :del <line>")
        | Some digits =>
            let n := numberOf digits in
            if (n =? 0) || (length (es_buffer es) <? n) then
              (sh, fs, w, Throw ("Line out of range: " +:+ digits))
            else
              (withBuffer es (spliceOne (n - 1) (es_buffer es)) sh, fs, w, Done ())
        end
      else if startsWith ":append " trimmed then
        match strip_prefix ":append " trimmed with
        | Some text => (withBuffer es (es_buffer es ++ [text]) sh, fs, w, Done ())
        | None => (sh, fs, w, Done ())
        end
      else (withBuffer es (es_buffer es ++ [line]) sh, fs, w, Done ())
  end.

(** The commands outside edit mode ([dispatch]) are not followed here. *)
Variable dispatch :
  string → ShellSession → VirtualFs → World →
  ShellSession * VirtualFs * World * res unit.

(** [handleLine] on an open channel: the line goes to the edit session or
    to the dispatcher, an exception is caught and printed, and the prompt
    is written. *)
Definition handleLine (line : string) (sh : ShellSession) (fs : VirtualFs)
    (w : World) : ShellSession * VirtualFs * World :=
  let '(sh, fs, w, outcome) :=
    match editState sh with
    | Some _ => handleEditLine line sh fs w
    | None => dispatch line sh fs w
    end in
  let sh :=
    match outcome with
    | Throw msg => writeLine ("error: " +:+ msg) sh
    | _ => sh
    end in
  (writePrompt sh, fs, w).

End NotionSsh.

(* ================================================================= *)
(** ** src/session/parser.ts: tokenize, parseCommandLine *)

Inductive Quote := QuoteSingle | QuoteDouble.

Definition backslash : ascii := "092".
Definition singleQuote : ascii := "039".
Definition doubleQuote : ascii := "034".

(** [current += char] *)
Definition str_push (current : string) (char : ascii) : string :=
  current +:+ String char "".

(** The [for] loop of [tokenize] on the characters still to read, and the
    two statements behind it. *)
Fixpoint tokenize_loop (input : string) (tokens : list string)
    (current : string) (quote : option Quote) (escaped : bool)
    : list string :=
  match input with
  | "" =>
      let current := if escaped then str_push current backslash else current in
      if str_nonempty current then tokens ++ [current] else tokens
  | String char rest =>
      if escaped then
        tokenize_loop rest tokens (str_push current char) quote false
      else if Ascii.eqb char backslash then
        tokenize_loop rest tokens current quote true
      else match quote with
      | Some QuoteSingle =>
          if Ascii.eqb char singleQuote
          then tokenize_loop rest tokens current None false
          else tokenize_loop rest tokens (str_push current char) quote false
      | Some QuoteDouble =>
          if Ascii.eqb char doubleQuote
          then tokenize_loop rest tokens current None false
          else tokenize_loop rest tokens (str_push current char) quote false
      | None =>
          if Ascii.eqb char singleQuote then
            tokenize_loop rest tokens current (Some QuoteSingle) false
          else if Ascii.eqb char doubleQuote then
            tokenize_loop rest tokens current (Some QuoteDouble) false
          else if is_ws char then
            if str_nonempty current
            then tokenize_loop rest (tokens ++ [current]) "" None false
            else tokenize_loop rest tokens current None false
          else tokenize_loop rest tokens (str_push current char) None false
      end
  end.

Definition tokenize (input : string) : list string :=
  tokenize_loop input [] "" None false.

Record ParsedCommand := {
  command : string;
  args : list string }.

Definition parseCommandLine (input : string) : ParsedCommand :=
  match tokenize (trim input) with
  | [] => {| command := ""; args := [] |}
  | command :: args => {| command := command; args := args |}
  end.

(* ================================================================= *)
(** ** src/session/shell.ts: filterEntries *)

Record ListRenderOptions := {
  includeDatabases : bool;
  includeIndexFile : bool }.

Definition is_db (e : FsEntry) : bool :=
  match e with DbPlaceholderEntry _ _ _ _ _ => true | _ => false end.

Definition is_file (e : FsEntry) : bool :=
  match e with FileEntry _ _ _ _ _ _ => true | _ => false end.

Record FilteredEntries := {
  visible : list FsEntry;
  hiddenDatabases : nat;
  hiddenIndex : nat }.

(** One round of the [for (const entry of entries)] loop. *)
Definition filterEntries_step (options : ListRenderOptions)
    (acc : FilteredEntries) (entry : FsEntry) : FilteredEntries :=
  if negb (includeDatabases options) && is_db entry then
    {| visible := visible acc;
       hiddenDatabases := hiddenDatabases acc + 1;
       hiddenIndex := hiddenIndex acc |}
  else if negb (includeIndexFile options) && is_file entry
          && bool_decide (e_name entry = "index.md") then
    {| visible := visible acc;
       hiddenDatabases := hiddenDatabases acc;
       hiddenIndex := hiddenIndex acc + 1 |}
  else
    {| visible := visible acc ++ [entry];
       hiddenDatabases := hiddenDatabases acc;
       hiddenIndex := hiddenIndex acc |}.

Definition filterEntries (listed : list FsEntry) (options : ListRenderOptions)
    : FilteredEntries :=
  fold_left (filterEntries_step options) listed
    {| visible := []; hiddenDatabases := 0; hiddenIndex := 0 |}.

(* ================================================================= *)
(** ** src/notion/gateway.ts: withRetry and the batches of an append *)

(** The codes [withRetry] looks at, and any other code of the client. *)
Inductive APIErrorCode :=
| RateLimited
| ServiceUnavailable
| ConflictError
| OtherCode (code : string).

(** What one call of [operation] does: it returns, it throws an error of
    the Notion client, or it throws something else. *)
Inductive Outcome (T : Type) :=
| Returned (value : T)
| ThrownNotionClientError (code : APIErrorCode)
| ThrownOther (message : string).
Arguments Returned {T} value.
Arguments ThrownNotionClientError {T} code.
Arguments ThrownOther {T} message.

Definition retryable (code : APIErrorCode) : bool :=
  match code with
  | RateLimited | ServiceUnavailable | ConflictError => true
  | OtherCode _ => false
  end.

(** How [withRetry] ended: with the outcome of a call of [operation], or
    with the error thrown behind the loop. *)
Inductive RetryEnd (T : Type) :=
| EndedBy (outcome : Outcome T)
| OperationFailed (opName : string).
Arguments EndedBy {T} outcome.
Arguments OperationFailed {T} opName.

(** A run of [withRetry]: how it ended, how often [operation] was called,
    and the waits in milliseconds, oldest first. *)
Record RetryRun (T : Type) := {
  run_end : RetryEnd T;
  run_calls : nat;
  run_waits : list nat }.
Arguments run_end {T} r.
Arguments run_calls {T} r.
Arguments run_waits {T} r.

Definition maxAttempts : nat := 5.

(** The [for (let attempt = 1; attempt <= maxAttempts; attempt += 1)] loop;
    [remaining] counts the rounds left, [operation k] is what the [k]-th
    call of the operation does. *)
Fixpoint withRetry_loop {T : Type} (remaining attempt : nat) (opName : string)
    (operation : nat → Outcome T) (waits : list nat) : RetryRun T :=
  match remaining with
  | O =>
      {| run_end := OperationFailed opName; run_calls := attempt - 1;
         run_waits := waits |}
  | S remaining' =>
      match operation attempt with
      | ThrownNotionClientError code =>
          if negb (retryable code) || (maxAttempts <=? attempt) then
            {| run_end := EndedBy (ThrownNotionClientError code);
               run_calls := attempt; run_waits := waits |}
          else
            let waitMs := 250 * 2 ^ (attempt - 1) in
            withRetry_loop remaining' (attempt + 1) opName operation
              (waits ++ [waitMs])
      | outcome =>
          {| run_end := EndedBy outcome; run_calls := attempt;
             run_waits := waits |}
      end
  end.

Definition withRetry {T : Type} (opName : string)
    (operation : nat → Outcome T) : RetryRun T :=
  withRetry_loop maxAttempts 1 opName operation [].

Definition batchSize : nat := 100.

(** The [for (let i = 0; i < blocks.length; i += batchSize)] loop of
    [replacePageMarkdown]: the batches [blocks.slice(i, i + batchSize)] it
    appends, in order.  Every round moves [i] on, so [fuel] rounds are
    enough for [fuel] blocks. *)
Fixpoint appendBatches_loop (fuel i : nat) (blocks : list Block)
    : list (list Block) :=
  match fuel with
  | O => []
  | S fuel' =>
      if i <? length blocks then
        take batchSize (drop i blocks)
          :: appendBatches_loop fuel' (i + batchSize) blocks
      else []
  end.

Definition appendBatches (blocks : list Block) : list (list Block) :=
  appendBatches_loop (length blocks) 0 blocks.

(* ================================================================= *)
(** ** src/notion/gateway.ts: the title of a search result *)

(** One value of [page.properties]: its [type] and its [title] array. *)
Record PageProperty := {
  prop_type : option string;
  prop_title : option (list RichText) }.

(** A search result as the two title functions read it: [id], the values
    of [properties] in their order (absent when [properties] is not an
    object), and the [title], [name] (when it is a string) and
    [description] of a data source. *)
Record RawRecord := {
  raw_id : string;
  raw_properties : option (list PageProperty);
  raw_title : option (list RichText);
  raw_name : option string;
  raw_description : option (list RichText) }.

(** [(items ?? []).map((item) => item.plain_text ?? '').join('')] *)
Definition plainTextOf (items : option (list RichText)) : string :=
  str_join "" (map (λ item, default "" (plain_text item)) (default [] items)).

(** The [for (const property of Object.values(properties))] loop. *)
Fixpoint titleFromProperties (properties : list PageProperty)
    : option string :=
  match properties with
  | [] => None
  | property :: rest =>
      if bool_decide (prop_type property = Some "title") then
        let text := plainTextOf (prop_title property) in
        if (0 <? String.length (trim text)) then Some text
        else titleFromProperties rest
      else titleFromProperties rest
  end.

Definition titleFromPage (page : RawRecord) : string :=
  match raw_properties page with
  | None => "untitled-" +:+ shortId (raw_id page)
  | Some properties =>
      match titleFromProperties properties with
      | Some text => text
      | None => "untitled-" +:+ shortId (raw_id page)
      end
  end.

Definition titleFromDataSource (dataSource : RawRecord) : string :=
  let titleText := plainTextOf (raw_title dataSource) in
  if (0 <? String.length (trim titleText)) then titleText
  else
    match raw_name dataSource with
    | Some directName =>
        if (0 <? String.length (trim directName)) then directName
        else
          let text := plainTextOf (raw_description dataSource) in
          if (0 <? String.length (trim text)) then text
          else "database-" +:+ shortId (raw_id dataSource)
    | None =>
        let text := plainTextOf (raw_description dataSource) in
        if (0 <? String.length (trim text)) then text
        else "database-" +:+ shortId (raw_id dataSource)
    end.


(* ================================================================= *)
(** * The vocabulary of the statements *)

Definition numbered (withId : string) (i : nat) : string :=
  withId +:+ "-" +:+ nat_to_string i.

Definition handledTypes : list string :=
  ["paragraph"; "heading_1"; "heading_2"; "heading_3"; "bulleted_list_item";
   "numbered_list_item"; "to_do"; "quote"; "callout"; "code"; "divider";
   "child_database"; "child_page"].


(** A name that [posix.join] leaves alone: no slash, and a first
    character that is not a dot (so not empty, not [.] and not [..]). *)
Definition plain (name : string) : Prop :=
  no_slash name
  ∧ match name with String c _ => c ≠ "."%char | "" => False end.

(** An absolute, normalized path other than the root. *)
Definition normAbs (path : string) : Prop :=
  ∃ segs, segs ≠ [] ∧ Forall plain segs ∧ path = "/" +:+ str_join "/" segs.

(** The characters of a slug: lower-case letters, digits and the dash. *)
Definition slugChar (c : ascii) : bool :=
  let n := N_of_ascii c in
  is_digit c || ((97 <=? n)%N && (n <=? 122)%N) || Ascii.eqb c "-".

Definition dirAt (es : gmap string FsEntry) (path : string) : Prop :=
  ∃ e, es !! path = Some e ∧ is_dir e = true.

(** The invariant of the namespace tree:
    - the root directory is there;
    - an entry is stored under its own path, so no two entries share one;
    - the parent path of every entry but the root is a directory that
      lists the entry among its children (no orphan);
    - every child listed by a directory is an entry whose parent path is
      that directory (no dangling child). *)
Record treeInvariant (es : gmap string FsEntry) : Prop := {
  tree_root : dirAt es "/";
  tree_path : ∀ p e, es !! p = Some e → e_path e = p;
  tree_parent : ∀ p e,
    es !! p = Some e → p ≠ "/" →
    ∃ d, es !! e_parentPath e = Some d ∧ is_dir d = true ∧ p ∈ e_children d;
  tree_children : ∀ q d c,
    es !! q = Some d → c ∈ e_children d →
    ∃ e, es !! c = Some e ∧ e_parentPath e = q }.

Definition siblingsOf (names : gmap string (gset string)) (path : string)
    : gset string :=
  default ∅ (names !! path).

(** While the pages are mounted: the tree invariant; every path but the
    root is normalized; every entry below [/pages] sits at its parent's
    path, a slash and its name, and its name is [index.md] or one of the
    names handed out for that parent; every page directory recorded by id
    is a directory of the tree. *)
Record pagesInvariant (fs : VirtualFs) (names : gmap string (gset string))
    : Prop := {
  pi_tree : treeInvariant (entries fs);
  pi_norm : ∀ p e, entries fs !! p = Some e → p = "/" ∨ normAbs p;
  pi_name : ∀ p e,
    entries fs !! p = Some e → p ≠ "/" → p ≠ "/pages" →
    p = e_parentPath e +:+ "/" +:+ e_name e
    ∧ no_slash (e_name e)
    ∧ (e_name e = "index.md" ∨ e_name e ∈ siblingsOf names (e_parentPath e));
  pi_dirs : ∀ id p,
    pageDirPathById fs !! id = Some p → dirAt (entries fs) p ∧ normAbs p }.

(** What the database pass needs of the tree: the tree invariant,
    normalized paths, and page directories that are directories. *)
Record mountInvariant (fs : VirtualFs) : Prop := {
  mi_tree : treeInvariant (entries fs);
  mi_norm : ∀ p e, entries fs !! p = Some e → p = "/" ∨ normAbs p;
  mi_dirs : ∀ id p,
    pageDirPathById fs !! id = Some p → dirAt (entries fs) p ∧ normAbs p }.

Definition idsOf (items : list NotionRecordMeta) : gset string :=
  list_to_set (map idNoDash items).

(* ----------------------------------------------------------------- *)
(** ** Command lines *)

(** A character the tokenizer copies as it is: an ASCII character that
    is no white space, no backslash and no quote. *)
Definition plainChar (c : ascii) : bool :=
  is_ascii c && negb (is_ws c) && negb (Ascii.eqb c backslash)
  && negb (Ascii.eqb c singleQuote) && negb (Ascii.eqb c doubleQuote).

Definition plainWord (word : string) : Prop :=
  word ≠ "" ∧ str_forallb plainChar word = true.

(** Every character behind a backslash. *)
Fixpoint escapeAll (text : string) : string :=
  match text with
  | "" => ""
  | String c rest => String backslash (String c (escapeAll rest))
  end.

(* ----------------------------------------------------------------- *)
(** ** Listings *)

(** An entry that a listing with these options hides as a database
    placeholder, or as the index file of its directory. *)
Definition hiddenAsDatabase (options : ListRenderOptions) (entry : FsEntry)
    : bool :=
  negb (includeDatabases options) && is_db entry.

Definition hiddenAsIndex (options : ListRenderOptions) (entry : FsEntry)
    : bool :=
  negb (hiddenAsDatabase options entry)
  && negb (includeIndexFile options) && is_file entry
  && bool_decide (e_name entry = "index.md").

(* ----------------------------------------------------------------- *)
(** ** Lines of Markdown *)

(** A line as [split('\n')] of a text without carriage return gives it:
    no line terminator in it. *)
Definition oneLine (line : string) : Prop :=
  str_forallb (λ c, negb (is_line_term c)) line = true.

Definition isSome {A : Type} (o : option A) : bool :=
  match o with Some _ => true | None => false end.

(* ----------------------------------------------------------------- *)
(** ** The loops of the encoder *)

(** The three inner [while] loops of [markdownToNotionBlocks], each over
    the function [encode] that goes on with the lines the loop leaves. *)
Definition codeLoop (encode : list string → list Block) (language : string)
    : list string → list string → list Block :=
  fix codeLoop (ls : list string) (codeLines : list string) : list Block :=
    match ls with
    | [] => [codeBlock language codeLines]
    | l :: ls' =>
        if startsWith "```" (trim l)
        then codeBlock language codeLines :: encode ls'
        else codeLoop ls' (codeLines ++ [l])
    end.

Definition quoteLoop (encode : list string → list Block)
    : list string → list string → list Block :=
  fix quoteLoop (ls : list string) (quoteLines : list string) : list Block :=
    match ls with
    | [] => [textBlock "quote" (str_join (String "010" "") quoteLines)]
    | l :: ls' =>
        match match_quote (trim l) with
        | Some next => quoteLoop ls' (quoteLines ++ [next])
        | None =>
            textBlock "quote" (str_join (String "010" "") quoteLines)
              :: encode ls
        end
    end.

Definition paragraphLoop (encode : list string → list Block)
    : list string → list string → list Block :=
  fix paragraphLoop (ls : list string) (paragraphLines : list string)
      : list Block :=
    match ls with
    | [] => [textBlock "paragraph" (str_join (String "010" "") paragraphLines)]
    | l :: ls' =>
        let next := trimEnd l in
        if negb (str_nonempty (trim next)) || isBlockBoundary (trim next)
        then textBlock "paragraph" (str_join (String "010" "") paragraphLines)
               :: encode ls
        else paragraphLoop ls' (paragraphLines ++ [next])
    end.

(** The kinds of block the encoder builds. *)
Definition encodedTypes : list string :=
  ["code"; "heading_1"; "heading_2"; "heading_3"; "to_do";
   "bulleted_list_item"; "numbered_list_item"; "quote"; "divider";
   "paragraph"].

(* ----------------------------------------------------------------- *)
(** ** Texts of one line *)

(** A text that can stand behind the marker of a block: ASCII, not
    empty, on one line, with no white space at either end. *)
Definition cleanText (text : string) : Prop :=
  asciiText text ∧ text ≠ "" ∧ trim text = text ∧ oneLine text.

(** A text without carriage return. *)
Definition noCR (s : string) : Prop :=
  str_forallb (λ c, negb (N_of_ascii c =? 13)%N) s = true.

(** A line of a paragraph: ASCII, on one line, nothing behind its last
    character that is not white space, not blank, and no start of a block
    of another kind. *)
Definition paragraphLine (line : string) : Prop :=
  asciiText line ∧ oneLine line ∧ trimEnd line = line ∧ trim line ≠ ""
  ∧ isBlockBoundary (trim line) = false.

(* ----------------------------------------------------------------- *)
(** ** Titles of records *)

(** A text that the test [text.trim().length > 0] refuses. *)
Definition blank (text : string) : Prop := String.length (trim text) = 0.

(** [text] is the first of [candidates] that is not blank. *)
Definition firstNotBlank (candidates : list string) (text : string) : Prop :=
  ∃ before after,
    candidates = before ++ text :: after
    ∧ Forall blank before ∧ ¬ blank text.

(** The texts of the properties of type [title], in the order of
    [Object.values]. *)
Definition titleTexts (properties : list PageProperty) : list string :=
  map (λ property, plainTextOf (prop_title property))
    (filter (λ property, prop_type property = Some "title") properties).

(** The titles a page offers: none when [properties] is no object. *)
Definition pageTitles (page : RawRecord) : list string :=
  titleTexts (default [] (raw_properties page)).

(** The titles a data source offers: its title, its name when that is a
    string, its description. *)
Definition dataSourceTitles (dataSource : RawRecord) : list string :=
  plainTextOf (raw_title dataSource)
  :: match raw_name dataSource with
     | Some directName => [directName]
     | None => []
     end
  ++ [plainTextOf (raw_description dataSource)].

(* ----------------------------------------------------------------- *)
(** ** Records below a root *)

(** The ids (without dashes) reached from [root] by the parent page
    links of the records of one list: the root itself, and the id of
    every record of the list whose parent page is reached. *)
Inductive reachable (records : list NotionRecordMeta) (root : string)
    : string → Prop :=
| reachable_root : reachable records root root
| reachable_child (item : NotionRecordMeta) (p : string) :
    item ∈ records → parentPageNoDash item = Some p → p ≠ "" →
    reachable records root p →
    reachable records root (idNoDash item).

(** A set that one more round of the filter would not grow. *)
Definition closedUnder (items : list NotionRecordMeta) (included : gset string)
    : Prop :=
  ∀ item p, item ∈ items → parentPageNoDash item = Some p → p ≠ "" →
    p ∈ included → idNoDash item ∈ included.

(* ----------------------------------------------------------------- *)
(** ** Canonical paths *)

(** A segment of a normalized path: not empty, no slash, not [.] or [..]. *)
Definition pathSegment (seg : string) : Prop :=
  no_slash seg ∧ seg ≠ "" ∧ seg ≠ "." ∧ seg ≠ "..".

(** An absolute path in normal form: a slash, then segments with one
    slash between them.  The root is the path of no segment. *)
Definition canonicalPath (path : string) : Prop :=
  ∃ segs, Forall pathSegment segs ∧ path = "/" +:+ str_join "/" segs.

(* ----------------------------------------------------------------- *)
(** ** The tree of a file system *)

(** The file system with the tree of [tree] (entries, page directories
    by id, pages by id) and everything else of [fs]. *)
Definition graft (tree fs : VirtualFs) : VirtualFs :=
  {| entries := entries tree; pageDirPathById := pageDirPathById tree;
     cache := cache fs; notionPages := notionPages tree; ttlMs := ttlMs fs;
     rootPageId := rootPageId fs; refreshPromise := refreshPromise fs;
     lastRefreshAt := lastRefreshAt fs;
     indexedAtLeastOnce := indexedAtLeastOnce fs |}.

Definition res_map {A B : Type} (f : A → B) (r : res A) : res B :=
  match r with
  | Done a => Done (f a)
  | Throw msg => Throw msg
  | Diverge => Diverge
  end.

Definition graftState (fs : VirtualFs) (st : BuildState) : BuildState :=
  (graft st.1 fs, st.2).


(* ================================================================= *)
(** * A worked workspace *)

(** A stand-in for [slugify] on plain ASCII titles: letters and digits
    are kept in lower case, runs of white space and dashes between them
    become one dash, everything else is dropped. *)
Definition is_alnum (c : ascii) : bool :=
  let n := N_of_ascii c in
  is_digit c || ((65 <=? n)%N && (n <=? 90)%N) || ((97 <=? n)%N && (n <=? 122)%N).

Fixpoint slugChars (sepDue started : bool) (s : string) : string :=
  match s with
  | "" => ""
  | String c s' =>
      if is_alnum c then
        if sepDue && started
        then String "-" (String (lower_char c) (slugChars false true s'))
        else String (lower_char c) (slugChars false true s')
      else if is_ws c || Ascii.eqb c "-" then slugChars true started s'
      else slugChars sepDue started s'
  end.

Definition asciiSlugify (title : string) : string := slugChars false false title.

(** A stand-in for [localeCompare]: the order of the character codes. *)
Definition codeCompare (a b : string) : Z :=
  match String.compare a b with
  | Lt => (-1)%Z
  | Eq => 0%Z
  | Gt => 1%Z
  end.

Definition noDispatch (line : string) (sh : ShellSession) (fs : VirtualFs)
    (w : World) : ShellSession * VirtualFs * World * res unit :=
  (sh, fs, w, Done ()).

Definition demoRecord (object : RecordObject) (id title : string)
    (parent : Parent) : NotionRecordMeta :=
  {| r_id := id; r_object := object; r_title := title; r_parent := parent;
     r_createdTime := "2024-01-01T09:00:00.000Z";
     r_lastEditedTime := "2024-01-01T09:30:00.000Z";
     r_owner := "ada@example.com" |}.

Definition home : NotionRecordMeta :=
  demoRecord ObjPage "0a000000-0000-4000-8000-000000000001" "Home" ParentWorkspace.

Definition notes : NotionRecordMeta :=
  demoRecord ObjPage "0b000000-0000-4000-8000-000000000002" "Notes"
    (ParentPageId (r_id home)).

Definition tasks : NotionRecordMeta :=
  demoRecord ObjPage "0c000000-0000-4000-8000-000000000003" "Tasks"
    (ParentPageId (r_id home)).

Definition db1 : NotionRecordMeta :=
  demoRecord ObjDataSource "0d000000-0000-4000-8000-000000000004" "DB1"
    (ParentPageId (r_id notes)).

Definition apiText (type text : string) : Block :=
  MkBlock type (Some "b-1")
    (Some [ {| plain_text := Some text; text_content := Some text |} ])
    false None IconAbsent None None.

Definition demoWorld : World :=
  {| w_pages := [home; notes; tasks];
     w_databases := [db1];
     w_blocks :=
       <[r_id home := [apiText "heading_1" "Home"]]>
         (<[r_id notes := [apiText "paragraph" "first note"]]>
            (<[r_id tasks := []]> ∅));
     w_now := 100000;
     w_latency := 20;
     w_stamp := "2024-01-02T10:00:00.000Z";
     w_calls := [] |}.

(** The file system after the first refresh of [demoWorld]. *)
Definition demoFs : VirtualFs :=
  match refresh_settle asciiSlugify codeCompare (newVirtualFs 60 None) demoWorld with
  | Done fs => fs
  | _ => newVirtualFs 60 None
  end.

Definition homeDir : FsEntry :=
  DirEntry "home" "/pages/home" "/pages"
    {[ "/pages/home/index.md"; "/pages/home/notes"; "/pages/home/tasks" ]}
    (pageMeta home).

Definition homeIndex : FsEntry :=
  FileEntry "index.md" "/pages/home/index.md" "/pages/home" false (r_id home)
    (pageMeta home).

Definition notesDb : FsEntry :=
  DbPlaceholderEntry "[db:0d000000]" "/pages/home/notes/[db:0d000000]"
    "/pages/home/notes" (r_id db1) (databaseMeta db1).

(** The same workspace after somebody else has edited Home. *)
Definition demoWorldEdited : World :=
  (replacePageMarkdown (r_id home) "# Home (edited elsewhere)" demoWorld).1.

(** A session editing Home's index file, with one changed line. *)
Definition demoEdit : EditState :=
  {| es_path := "/pages/home/index.md"; es_buffer := ["# Home"; "my change"] |}.

Definition demoShell : ShellSession :=
  {| cwd := "/pages"; editState := Some demoEdit; channel := [] |}.

(** Two sessions of one server: B reads Home, then A commits, then B
    commits what it read and edited before A's commit. *)
Definition afterReadB : VirtualFs * World * res string :=
  readFile "/pages/home" "/" demoFs demoWorld.

Definition afterWriteA : VirtualFs * World * res unit :=
  writeFile "/pages/home" "text of A" "/" afterReadB.1.1 afterReadB.1.2.

Definition afterWriteB : VirtualFs * World * res unit :=
  writeFile "/pages/home" "text of B" "/" afterWriteA.1.1 afterWriteA.1.2.

(** The same workspace with an empty remote timestamp on Home. *)
Definition demoWorldUnstamped : World :=
  {| w_pages := [stampRecord (r_id home) "" home];
     w_databases := []; w_blocks := w_blocks demoWorld;
     w_now := 100000; w_latency := 20;
     w_stamp := "2024-01-02T10:00:00.000Z"; w_calls := [] |}.

(** The indexed file system while rebuild number 7 is in flight. *)
Definition demoFsInFlight : VirtualFs := set_refreshPromise (Some 7) demoFs.

Definition LF : string := String "010" "".



(** Decoding what the gateway reads back after it has written the
    encoded blocks: the API returns the rich text with [plain_text]. *)
Definition roundTrip (markdown : string) : string :=
  notionBlocksToMarkdown (map materializeBlock (markdownToNotionBlocks markdown)).

(** A search result with a blank name: a page by its [Name] property, a
    data source by its description. *)
Definition roadmapRecord : RawRecord :=
  {| raw_id := "0e000000-0000-4000-8000-000000000005";
     raw_properties :=
       Some [ {| prop_type := Some "checkbox"; prop_title := None |};
              {| prop_type := Some "title";
                 prop_title :=
                   Some [ {| plain_text := Some "Road";
                             text_content := Some "Road" |};
                          {| plain_text := Some "map";
                             text_content := Some "map" |} ] |} ];
     raw_title := None;
     raw_name := Some "  ";
     raw_description :=
       Some [ {| plain_text := Some "Plans";
                 text_content := Some "Plans" |} ] |}.

(** The workspace one time to live after session A's write, with the
    remote pages as the write left them. *)
Definition afterExpiry : World :=
  {| w_pages := w_pages afterWriteA.1.2;
     w_databases := w_databases afterWriteA.1.2;
     w_blocks := w_blocks afterWriteA.1.2;
     w_now := (w_now afterWriteA.1.2 + 60000)%Z;
     w_latency := 20;
     w_stamp := "2024-01-02T11:00:00.000Z";
     w_calls := [] |}.


(* ================================================================= *)
(** * Properties *)

(* ----------------------------------------------------------------- *)
(** ** Directories, index files and placeholders (readFile, writeFile) *)

(** C10 (as amended).  For a path that resolves to a directory, [readFile]
    and [writeFile] work on the file entry stored at the directory's
    [index.md] path when there is one, and both fail with "File does not
    exist" when there is none.  For a path that resolves to a database
    placeholder, [writeFile] fails with "Cannot write to database
    placeholder" and [readFile] does not fail: it returns the placeholder
    text.  Neither case touches the state or calls the gateway before the
    file entry is found. *)
Theorem readFile_writeFile_directory (fs : VirtualFs) (w : World)
    (pathInput cwd markdown : string) (e : FsEntry) :
  entries fs !! resolve pathInput cwd = Some e →
  match e with
  | DirEntry _ path _ _ _ =>
      match entries fs !! posix_join path "index.md" with
      | Some (FileEntry n p q ro pid m) =>
          readFile pathInput cwd fs w
            = readFileEntry (FileEntry n p q ro pid m) fs w
          ∧ writeFile pathInput markdown cwd fs w
            = writeFileEntry (posix_join path "index.md")
                (FileEntry n p q ro pid m) markdown fs w
      | _ =>
          readFile pathInput cwd fs w
            = (fs, w, Throw ("File does not exist: " +:+ resolve pathInput cwd))
          ∧ writeFile pathInput markdown cwd fs w
            = (fs, w, Throw ("File does not exist: " +:+ resolve pathInput cwd))
      end
  | DbPlaceholderEntry _ path _ databaseId _ =>
      readFile pathInput cwd fs w = (fs, w, Done (dbPlaceholderText databaseId))
      ∧ writeFile pathInput markdown cwd fs w
        = (fs, w, Throw ("Cannot write to database placeholder: " +:+ path))
  | FileEntry _ _ _ _ _ _ =>
      readFile pathInput cwd fs w = readFileEntry e fs w
      ∧ writeFile pathInput markdown cwd fs w
        = writeFileEntry (resolve pathInput cwd) e markdown fs w
  end.
Proof.
  intros Hres. unfold readFile, writeFile, ensurePageFile.
  rewrite Hres. destruct e as [n p q c m|n p q ro pid m|n p q did m]; simpl.
  - destruct (entries fs !! posix_join p "index.md") as [[| |]|]; auto.
  - auto.
  - auto.
Qed.

(* ----------------------------------------------------------------- *)
(** ** The content cache (readFile) *)

(** C8.  For a path whose file entry is [file]: when the cache holds an
    entry for the file's page id that was fetched less than [ttlMs] ago,
    [readFile] returns the cached text and leaves the file system and the
    world (so the list of gateway calls) as they are; when there is no
    entry or it has expired, [readFile] makes exactly one gateway call,
    the content fetch of that page id, and on success stores the fetched
    text in the cache under the page id. *)
Theorem readFile_cache (fs : VirtualFs) (w : World) (pathInput cwd key : string)
    (file : FsEntry) :
  ensurePageFile pathInput cwd fs = Done (key, file) →
  let pageId := pageIdOf file in
  (∀ cached,
     cache fs !! pageId = Some cached →
     (w_now w - c_fetchedAt cached < ttlMs fs)%Z →
     readFile pathInput cwd fs w = (fs, w, Done (c_markdown cached)))
  ∧ ((cache fs !! pageId = None
      ∨ ∃ cached, cache fs !! pageId = Some cached
                  ∧ (ttlMs fs ≤ w_now w - c_fetchedAt cached)%Z) →
     ∃ fs' w' r,
       readFile pathInput cwd fs w = (fs', w', r)
       ∧ (w', r) = readPageMarkdown pageId w
       ∧ w_calls w' = w_calls w ++ [CallReadPageMarkdown pageId]
       ∧ match r with
         | Done markdown =>
             fs' = set_cache
                     (<[pageId := {| c_markdown := markdown;
                                     c_fetchedAt := w_now w';
                                     c_lastEditedTime :=
                                       m_lastEditedTime (e_meta file) |}]>
                        (cache fs)) fs
         | _ => fs' = fs
         end).
Proof.
  intros Hfile pageId.
  assert (Hread : readFile pathInput cwd fs w = readFileEntry file fs w).
  { unfold readFile. unfold ensurePageFile in Hfile.
    destruct (entries fs !! resolve pathInput cwd) as [[| |]|] eqn:He;
      try discriminate.
    - unfold ensurePageFile. rewrite He. simpl.
      destruct (entries fs !! posix_join path "index.md") as [[| |]|];
        try discriminate.
      by inversion Hfile.
    - unfold ensurePageFile. rewrite He. by inversion Hfile. }
  rewrite Hread. unfold readFileEntry. fold pageId. split.
  - intros cached Hc Hlt. rewrite Hc.
    apply Z.ltb_lt in Hlt. by rewrite Hlt.
  - intros Hmiss.
    assert (Hhit : match cache fs !! pageId with
                   | Some cached =>
                       if (w_now w - c_fetchedAt cached <? ttlMs fs)%Z
                       then Some (c_markdown cached) else None
                   | None => None
                   end = None).
    { destruct Hmiss as [->|(cached & -> & Hge)]; [done|].
      apply Z.ltb_ge in Hge. by rewrite Hge. }
    rewrite Hhit.
    unfold readPageMarkdown.
    destruct (w_blocks (gatewayCall (CallReadPageMarkdown pageId) w) !! pageId)
      as [blocks|]; eexists _, _, _; (split; [reflexivity|]);
      (split; [reflexivity|]); split; reflexivity.
Qed.

(* ----------------------------------------------------------------- *)
(** ** The conflict check (writeFile) *)

Lemma getPageMeta_found (pageId : string) (w : World) (meta : NotionRecordMeta) :
  find (λ r, bool_decide (r_id r = pageId)) (w_pages w) = Some meta →
  getPageMeta pageId w = (gatewayCall (CallGetPageMeta pageId) w, Done meta).
Proof. intros H. unfold getPageMeta. simpl. by rewrite H. Qed.

Lemma writeFile_on_file (fs : VirtualFs) (w : World)
    (pathInput markdown cwd key : string) (file : FsEntry) :
  ensurePageFile pathInput cwd fs = Done (key, file) →
  writeFile pathInput markdown cwd fs w = writeFileEntry key file markdown fs w.
Proof.
  intros Hfile. unfold writeFile. unfold ensurePageFile in Hfile.
  destruct (entries fs !! resolve pathInput cwd) as [[| |]|] eqn:He;
    try discriminate.
  - unfold ensurePageFile. rewrite He. simpl.
    destruct (entries fs !! posix_join path "index.md") as [[| |]|];
      try discriminate.
    by inversion Hfile.
  - unfold ensurePageFile. rewrite He. by inversion Hfile.
Qed.

(** C1 (as amended).  [writeFile] on a file entry first fetches the page's
    metadata; when the entry carries a non-empty [lastEditedTime] and the
    remote one is non-empty and different, the write fails with the
    conflict message naming both, and the only effect is that metadata
    call: pages, blocks and the file system are as before. *)
Theorem writeFile_conflict (fs : VirtualFs) (w : World)
    (pathInput markdown cwd key : string) (file : FsEntry)
    (remoteMeta : NotionRecordMeta) (local : string) :
  ensurePageFile pathInput cwd fs = Done (key, file) →
  find (λ r, bool_decide (r_id r = pageIdOf file)) (w_pages w) = Some remoteMeta →
  m_lastEditedTime (e_meta file) = Some local →
  local ≠ "" →
  r_lastEditedTime remoteMeta ≠ "" →
  r_lastEditedTime remoteMeta ≠ local →
  writeFile pathInput markdown cwd fs w
  = (fs, gatewayCall (CallGetPageMeta (pageIdOf file)) w,
     Throw (conflictMessage (e_path file) (r_lastEditedTime remoteMeta) local)).
Proof.
  intros Hfile Hfind Hlocal Hl Hr Hne.
  rewrite (writeFile_on_file _ _ _ _ _ _ _ Hfile).
  unfold writeFileEntry. rewrite (getPageMeta_found _ _ _ Hfind).
  rewrite Hlocal. simpl.
  destruct local as [|c l]; [done|].
  destruct (r_lastEditedTime remoteMeta) as [|c' l'] eqn:Hrem; [done|].
  simpl. rewrite bool_decide_eq_false_2; [done|]. congruence.
Qed.

(* ----------------------------------------------------------------- *)
(** ** The commit directive of the edit session *)

(** C2 (as amended).  In edit mode, [:wq] joins the buffer with line feeds
    and calls [writeFile] on the session's path.  When the write succeeds
    the session prints "saved" and leaves edit mode.  When the write throws
    (a conflict, for one), the error is printed and the session stays in
    edit mode with the same path and buffer; the prompt stays [edit> ]. *)
Theorem handleLine_wq
    (dispatch : string → ShellSession → VirtualFs → World →
                ShellSession * VirtualFs * World * res unit)
    (sh : ShellSession) (fs : VirtualFs) (w : World) (es : EditState) :
  editState sh = Some es →
  let payload := str_join (String "010" "") (es_buffer es) in
  let '(fs', w', outcome) := writeFile (es_path es) payload (cwd sh) fs w in
  match outcome with
  | Done _ =>
      handleLine dispatch ":wq" sh fs w
      = (writePrompt (set_editState None (writeLine ("saved " +:+ es_path es) sh)),
         fs', w')
      ∧ editState (handleLine dispatch ":wq" sh fs w).1.1 = None
  | Throw msg =>
      handleLine dispatch ":wq" sh fs w
      = (writePrompt (writeLine ("error: " +:+ msg) sh), fs', w')
      ∧ editState (handleLine dispatch ":wq" sh fs w).1.1 = Some es
      ∧ last (channel (handleLine dispatch ":wq" sh fs w).1.1) = Some "edit> "
  | Diverge => True
  end.
Proof.
  intros Hes payload.
  destruct (writeFile (es_path es) payload (cwd sh) fs w) as [[fs' w'] outcome]
    eqn:Hw.
  unfold handleLine, handleEditLine. rewrite Hes.
  change (trim ":wq") with ":wq".
  rewrite decide_False by discriminate.
  rewrite decide_True by reflexivity.
  fold payload. rewrite Hw.
  destruct outcome as [[]|msg|]; simpl.
  - done.
  - split; [done|]. split; [done|].
    unfold promptLabel. simpl. rewrite Hes. by rewrite last_snoc.
  - done.
Qed.

(* ----------------------------------------------------------------- *)
(** ** Single-flight refresh *)

Lemma refresh_calls_in_flight (fs : VirtualFs) (w : World) (promise : nat)
    (calls : list (bool * Z)) :
  refreshPromise fs = Some promise →
  let '(fs', w', outcomes) := refresh_calls calls fs w in
  fs' = fs
  ∧ w_calls w' = w_calls w
  ∧ outcomes
    = map (λ '(force, now),
             if negb force && refreshIsFresh fs now then RefreshNoop
             else RefreshFollows promise) calls.
Proof.
  intros Hp. revert w.
  induction calls as [|[force now] rest IH]; intros w; simpl.
  - done.
  - unfold refresh_call at 1. simpl. rewrite Hp.
    set (w1 := {| w_pages := w_pages w; w_databases := w_databases w;
                  w_blocks := w_blocks w; w_now := now;
                  w_latency := w_latency w; w_stamp := w_stamp w;
                  w_calls := w_calls w |}).
    assert (Hstep : (if negb force && refreshIsFresh fs now
                     then (fs, w1, RefreshNoop)
                     else (fs, w1, RefreshFollows promise))
                    = (fs, w1, if negb force && refreshIsFresh fs now
                               then RefreshNoop else RefreshFollows promise)).
    { by destruct (negb force && refreshIsFresh fs now). }
    rewrite Hstep. specialize (IH w1).
    destruct (refresh_calls rest fs w1) as [[fs' w'] outcomes].
    destruct IH as (-> & Hc & ->). done.
Qed.

Lemma refresh_call_starts (fs : VirtualFs) (w : World) (force : bool) :
  refreshPromise fs = None →
  negb force && refreshIsFresh fs (w_now w) = false →
  refresh_call force fs w
  = (set_refreshPromise (Some (length (w_calls w))) fs,
     gatewayCall (CallListRecords (rootPageId fs)) w,
     RefreshStarts (length (w_calls w))).
Proof.
  intros Hp Hf. unfold refresh_call. by rewrite Hf, Hp.
Qed.

Lemma listingPasses_gatewayCall (call : GatewayCall) (w : World) :
  listingPasses (gatewayCall call w)
  = (if isListing call then S (listingPasses w) else listingPasses w).
Proof.
  unfold listingPasses. simpl. rewrite filter_app, length_app. simpl.
  destruct call; simpl; rewrite ?filter_cons_True, ?filter_cons_False by done;
    simpl; lia.
Qed.

Lemma never_fresh_follows (fs : VirtualFs) (promise : nat)
    (calls : list (bool * Z)) :
  indexedAtLeastOnce fs = false →
  map (λ '(force, now),
         if negb force && refreshIsFresh fs now then RefreshNoop
         else RefreshFollows promise) calls
  = replicate (length calls) (RefreshFollows promise).
Proof.
  intros Hcold. induction calls as [|[f t] rest IH]; simpl; [done|].
  rewrite IH. f_equal. unfold refreshIsFresh. rewrite Hcold.
  by rewrite andb_false_r.
Qed.

(** C9 (as amended).  While a rebuild is in flight, no call of [refresh],
    forced or not, starts another one: the file system is left as it is,
    no gateway call is added, and the call either returns at once (not
    forced, index still fresh) or is handed the promise of the rebuild in
    flight.  So on a file system that was never indexed and is idle, any
    number of calls made before the rebuild settles cause one listing pass:
    the first call starts the rebuild and every later one follows it. *)
Theorem refresh_single_flight (fs : VirtualFs) (w : World)
    (calls : list (bool * Z)) :
  let '(fs', w', outcomes) := refresh_calls calls fs w in
  (∀ promise,
     refreshPromise fs = Some promise →
     fs' = fs
     ∧ w_calls w' = w_calls w
     ∧ listingPasses w' = listingPasses w
     ∧ outcomes
       = map (λ '(force, now),
                if negb force && refreshIsFresh fs now then RefreshNoop
                else RefreshFollows promise) calls)
  ∧ (refreshPromise fs = None →
     indexedAtLeastOnce fs = false →
     calls ≠ [] →
     listingPasses w' = S (listingPasses w)
     ∧ outcomes
       = RefreshStarts (length (w_calls w))
           :: replicate (length calls - 1) (RefreshFollows (length (w_calls w)))).
Proof.
  destruct (refresh_calls calls fs w) as [[fs' w'] outcomes] eqn:Hrun.
  split.
  - intros promise Hp.
    pose proof (refresh_calls_in_flight fs w promise calls Hp) as H.
    rewrite Hrun in H. destruct H as (-> & Hc & ->).
    repeat split; try done. unfold listingPasses. by rewrite Hc.
  - intros Hidle Hcold Hne.
    destruct calls as [|[force now] rest]; [done|]. simpl in Hrun.
    set (w1 := {| w_pages := w_pages w; w_databases := w_databases w;
                  w_blocks := w_blocks w; w_now := now;
                  w_latency := w_latency w; w_stamp := w_stamp w;
                  w_calls := w_calls w |}) in Hrun.
    assert (Hnf : ∀ t, refreshIsFresh fs t = false).
    { intros t. unfold refreshIsFresh. by rewrite Hcold. }
    rewrite (refresh_call_starts fs w1 force Hidle) in Hrun
      by (rewrite Hnf; apply andb_false_r).
    set (fs1 := set_refreshPromise (Some (length (w_calls w1))) fs) in Hrun.
    set (w2 := gatewayCall (CallListRecords (rootPageId fs)) w1) in Hrun.
    pose proof (refresh_calls_in_flight fs1 w2 (length (w_calls w1)) rest
                  eq_refl) as H.
    destruct (refresh_calls rest fs1 w2) as [[fs2 w3] outs].
    destruct H as (-> & Hc & ->). inversion Hrun; subst fs' w' outcomes.
    split.
    + unfold listingPasses at 1. rewrite Hc.
      change (length (filter (λ call, isListing call = true) (w_calls w2)))
        with (listingPasses w2).
      unfold w2. rewrite listingPasses_gatewayCall. simpl. done.
    + simpl. f_equal. rewrite Nat.sub_0_r.
      apply never_fresh_follows. unfold fs1. simpl. exact Hcold.
Qed.

(* ----------------------------------------------------------------- *)
(** ** Sibling names (uniqueName) *)

Lemma nat_to_string_inj (a b : nat) : nat_to_string a = nat_to_string b → a = b.
Proof.
  unfold nat_to_string. intros H. apply Unsigned.to_uint_inj.
  assert (Hs : Some (Nat.to_uint a) = Some (Nat.to_uint b)).
  { rewrite <- (NilEmpty.usu (Nat.to_uint a)), <- (NilEmpty.usu (Nat.to_uint b)).
    by rewrite H. }
  by inversion Hs.
Qed.

Lemma numbered_inj (withId : string) (i j : nat) :
  numbered withId i = numbered withId j → i = j.
Proof.
  unfold numbered. intros H.
  apply String.app_inj in H. apply String.app_inj in H.
  by apply nat_to_string_inj.
Qed.

(** What the loop returns is the least free number from [i] on; when the
    fuel runs out every number tried is taken. *)
Lemma uniqueName_loop_spec (fuel : nat) (withId : string)
    (usedNames : gset string) (i : nat) :
  match uniqueName_loop fuel withId usedNames i with
  | Some j =>
      i ≤ j ∧ (numbered withId j ∉ usedNames)
      ∧ ∀ k, i ≤ k < j → numbered withId k ∈ usedNames
  | None => ∀ k, i ≤ k < i + fuel → numbered withId k ∈ usedNames
  end.
Proof.
  revert i. induction fuel as [|fuel IH]; intros i; simpl.
  - intros k Hk. lia.
  - fold (numbered withId i).
    destruct (decide (numbered withId i ∈ usedNames)) as [Hin|Hout].
    + specialize (IH (S i)).
      destruct (uniqueName_loop fuel withId usedNames (S i)) as [j|].
      * destruct IH as (Hle & Hfree & Hbelow). split; [lia|]. split; [done|].
        intros k Hk. destruct (decide (k = i)) as [->|]; [done|].
        apply Hbelow. lia.
      * intros k Hk. destruct (decide (k = i)) as [->|]; [done|].
        apply IH. lia.
    + split; [lia|]. split; [done|]. intros k Hk. lia.
Qed.

(** More numbers than names in the set: one of them is free. *)
Lemma uniqueName_loop_total (withId : string) (usedNames : gset string)
    (i : nat) :
  is_Some (uniqueName_loop (S (size usedNames)) withId usedNames i).
Proof.
  pose proof (uniqueName_loop_spec (S (size usedNames)) withId usedNames i) as H.
  destruct (uniqueName_loop (S (size usedNames)) withId usedNames i) as [j|];
    [by eexists|].
  exfalso.
  set (cands := map (numbered withId) (seq i (S (size usedNames)))).
  assert (Hnd : NoDup cands).
  { apply NoDup_fmap_2; [|apply NoDup_seq].
    intros a b. apply numbered_inj. }
  assert (Hsub : (list_to_set cands : gset string) ⊆ usedNames).
  { intros x Hx. apply elem_of_list_to_set in Hx.
    apply list_elem_of_fmap in Hx as (k & -> & Hk).
    apply elem_of_seq in Hk. apply H. lia. }
  apply subseteq_size in Hsub.
  rewrite size_list_to_set in Hsub by done.
  unfold cands in Hsub. rewrite length_map, length_seq in Hsub. lia.
Qed.

(** [uniqueName] always returns; the name it returns was free and is the
    only addition to the set; it is the base name when that is free, else
    the base name with the short id when that is free, else the least
    numbered variant, from 2 on, that is free. *)
Lemma uniqueName_spec (baseName : string) (usedNames : gset string)
    (fallbackId : string) :
  ∃ name,
    uniqueName baseName usedNames fallbackId = Some (name, {[name]} ∪ usedNames)
    ∧ (name ∉ usedNames)
    ∧ (baseName ∉ usedNames → name = baseName)
    ∧ (baseName ∈ usedNames →
       baseName +:+ "-" +:+ shortId fallbackId ∉ usedNames →
       name = baseName +:+ "-" +:+ shortId fallbackId)
    ∧ (baseName ∈ usedNames →
       baseName +:+ "-" +:+ shortId fallbackId ∈ usedNames →
       ∃ i, 2 ≤ i
            ∧ name = (baseName +:+ "-" +:+ shortId fallbackId)
                       +:+ "-" +:+ nat_to_string i
            ∧ ∀ k, 2 ≤ k < i →
                (baseName +:+ "-" +:+ shortId fallbackId)
                  +:+ "-" +:+ nat_to_string k ∈ usedNames).
Proof.
  unfold uniqueName.
  destruct (decide (baseName ∈ usedNames)) as [Hb|Hb].
  - set (withId := baseName +:+ "-" +:+ shortId fallbackId).
    destruct (decide (withId ∈ usedNames)) as [Hw|Hw].
    + pose proof (uniqueName_loop_spec (S (size usedNames)) withId usedNames 2)
        as Hspec.
      destruct (uniqueName_loop_total withId usedNames 2) as [i Hi].
      rewrite Hi in Hspec. rewrite Hi. destruct Hspec as (Hle & Hfree & Hbelow).
      exists (numbered withId i). split; [done|]. split; [done|].
      split; [intros H; destruct (H Hb)|].
      split; [intros _ H; destruct (H Hw)|]. intros _ _. by exists i.
    + exists withId. split; [done|]. split; [done|].
      split; [intros H; destruct (H Hb)|]. split; [done|].
      intros _ H. destruct (Hw H).
  - exists baseName. split; [done|]. split; [done|]. split; [done|].
    split; intros H; destruct (Hb H).
Qed.

Lemma siblingNames_spec (slugify : string → string)
    (siblings : list (string * string)) (used : gset string) :
  ∃ names,
    siblingNames slugify siblings used = Some names
    ∧ length names = length siblings
    ∧ NoDup names
    ∧ ∀ name, name ∈ names → name ∉ used.
Proof.
  revert used. induction siblings as [|[title id] rest IH]; intros used; simpl.
  - exists []. repeat split; [constructor|]. intros name H. by apply elem_of_nil in H.
  - destruct (uniqueName_spec (slugFromTitle slugify title) used id)
      as (name & -> & Hfree & _).
    destruct (IH ({[name]} ∪ used)) as (names & -> & Hlen & Hnd & Hout).
    exists (name :: names). split; [done|]. split; [simpl; by rewrite Hlen|].
    split.
    + constructor; [|done]. intros Hin. apply Hout in Hin.
      apply Hin, elem_of_union. left. by apply elem_of_singleton.
    + intros n Hn. apply elem_of_cons in Hn as [->|Hn]; [done|].
      apply Hout in Hn. intros Hu. apply Hn, elem_of_union. by right.
Qed.

(** C4 (as amended).  Name resolution within one sibling set always
    terminates and the names it gives are pairwise distinct.  Each name
    is the slug when the slug is free in the directory, else the slug
    followed by a dash and the short id of the record when that is free,
    else that followed by a dash and the least number from 2 on that is
    free.  Two records titled "Draft" under one parent get [draft] and
    [draft-<short id>]. *)
Theorem uniqueName_siblings (slugify : string → string)
    (siblings : list (string * string)) :
  (∃ names,
     siblingNames slugify siblings ∅ = Some names
     ∧ length names = length siblings
     ∧ NoDup names)
  ∧ (∀ baseName usedNames fallbackId,
       ∃ name,
         uniqueName baseName usedNames fallbackId
           = Some (name, {[name]} ∪ usedNames)
         ∧ (name ∉ usedNames)
         ∧ (baseName ∉ usedNames → name = baseName)
         ∧ (baseName ∈ usedNames →
            baseName +:+ "-" +:+ shortId fallbackId ∉ usedNames →
            name = baseName +:+ "-" +:+ shortId fallbackId)
         ∧ (baseName ∈ usedNames →
            baseName +:+ "-" +:+ shortId fallbackId ∈ usedNames →
            ∃ i, 2 ≤ i
                 ∧ name = (baseName +:+ "-" +:+ shortId fallbackId)
                            +:+ "-" +:+ nat_to_string i
                 ∧ ∀ k, 2 ≤ k < i →
                     (baseName +:+ "-" +:+ shortId fallbackId)
                       +:+ "-" +:+ nat_to_string k ∈ usedNames))
  ∧ (slugify "Draft" = "draft" →
     ∀ id1 id2,
       siblingNames slugify [("Draft", id1); ("Draft", id2)] ∅
       = Some ["draft"; "draft-" +:+ shortId id2]).
Proof.
  split; [|split].
  - destruct (siblingNames_spec slugify siblings ∅) as (names & H1 & H2 & H3 & _).
    by exists names.
  - apply uniqueName_spec.
  - intros Hslug id1 id2. simpl. unfold slugFromTitle. rewrite Hslug. simpl.
    unfold uniqueName at 1.
    rewrite decide_False by apply not_elem_of_empty.
    unfold uniqueName.
    rewrite decide_True
      by (apply elem_of_union; left; by apply elem_of_singleton).
    rewrite decide_False; [done|].
    intros Hin. apply elem_of_union in Hin as [Hin|Hin];
      [|by apply not_elem_of_empty in Hin].
    apply elem_of_singleton in Hin. discriminate Hin.
Qed.

(* ----------------------------------------------------------------- *)
(** ** Strings *)

Lemma str_app_cons (x : ascii) (a b : string) :
  String x a +:+ b = String x (a +:+ b).
Proof. reflexivity. Qed.

Lemma str_app_assoc (a b c : string) : (a +:+ b) +:+ c = a +:+ (b +:+ c).
Proof.
  induction a as [|x a IH]; [done|]. by rewrite !str_app_cons, IH.
Qed.

Lemma str_app_nil_r (a : string) : a +:+ "" = a.
Proof.
  induction a as [|x a IH]; [done|]. by rewrite str_app_cons, IH.
Qed.

Lemma str_nonempty_app_r (a b : string) :
  str_nonempty b = true → str_nonempty (a +:+ b) = true.
Proof. destruct a; [done|]. by rewrite str_app_cons. Qed.

Lemma trimEnd_idemp (s : string) : trimEnd (trimEnd s) = trimEnd s.
Proof.
  induction s as [|c s IH]; simpl; [done|].
  destruct (is_ws c && negb (str_nonempty (trimEnd s))) eqn:E; simpl; [done|].
  by rewrite IH, E.
Qed.

(** Trimming stops at the first character, from the end, that is kept. *)
Lemma trimEnd_app (a b : string) :
  str_nonempty (trimEnd b) = true → trimEnd (a +:+ b) = a +:+ trimEnd b.
Proof.
  intros Hb. induction a as [|c a IH]; [done|].
  rewrite !str_app_cons. simpl.
  rewrite IH. rewrite (str_nonempty_app_r a _ Hb). simpl.
  by rewrite andb_false_r.
Qed.

Lemma trimEnd_cons_keep (c : ascii) (s : string) :
  is_ws c = false → trimEnd (String c s) = String c (trimEnd s).
Proof. intros H. simpl. by rewrite H. Qed.

(* ----------------------------------------------------------------- *)
(** ** The decoder keeps what it renders *)


(** The text of a trimmed, non-empty section survives the final trim. *)
Lemma trimEnd_join_sections (sections : list string) :
  Forall (λ section, trimEnd section = section
                     ∧ str_nonempty section = true) sections →
  trimEnd (str_join (String "010" (String "010" "")) sections)
  = str_join (String "010" (String "010" "")) sections.
Proof.
  induction 1 as [|section rest [Htrim Hne] Hrest IH]; [done|].
  destruct rest as [|next rest']; [exact Htrim|].
  change (str_join (String "010" (String "010" "")) (section :: next :: rest'))
    with (section +:+ String "010" (String "010" "")
            +:+ str_join (String "010" (String "010" "")) (next :: rest')).
  rewrite <- str_app_assoc.
  assert (Hnext : str_nonempty
                    (str_join (String "010" (String "010" "")) (next :: rest'))
                  = true).
  { inversion Hrest as [|? ? [_ Hn] _]; subst.
    destruct rest'; simpl; [done|]. destruct next; [done|done]. }
  rewrite trimEnd_app; rewrite IH; [done|exact Hnext].
Qed.


Lemma notionBlocksToMarkdown_sections (blocks : list Block) :
  notionBlocksToMarkdown blocks
  = str_join (String "010" (String "010" ""))
      (filter (λ section, str_nonempty section = true)
         (map blockSection blocks)).
Proof.
  unfold notionBlocksToMarkdown. apply trimEnd_join_sections.
  apply Forall_forall. intros section Hin.
  apply list_elem_of_filter in Hin as [Hne Hin].
  apply list_elem_of_fmap in Hin as (block & -> & _).
  split; [apply trimEnd_idemp|exact Hne].
Qed.



(* ----------------------------------------------------------------- *)
(** ** Paths: joining a plain name to a normalized directory *)

Lemma chars_app (a b : string) : chars (a +:+ b) = chars a ++ chars b.
Proof.
  induction a as [|c a IH]; [done|]. rewrite str_app_cons. simpl. by rewrite IH.
Qed.

Lemma no_slash_app (a b : string) :
  no_slash (a +:+ b) ↔ no_slash a ∧ no_slash b.
Proof.
  unfold no_slash. rewrite chars_app, elem_of_app. tauto.
Qed.

Lemma plain_nonempty (name : string) : plain name → str_nonempty name = true.
Proof. intros [_ H]. by destruct name. Qed.

Lemma plain_app (name suffix : string) :
  plain name → no_slash suffix → plain (name +:+ suffix).
Proof.
  intros [Hs Hc] Hsuf. split; [by apply no_slash_app|].
  destruct name as [|c name]; [done|]. by rewrite str_app_cons.
Qed.

Lemma split_on_no_slash (a : string) : no_slash a → split_on "/" a = [a].
Proof.
  unfold no_slash. induction a as [|c a IH]; simpl; [done|]. intros H.
  rewrite not_elem_of_cons in H. destruct H as [Hc Ha].
  destruct (Ascii.eqb_spec c "/") as [->|_]; [done|]. by rewrite IH.
Qed.

Lemma split_on_app (a b : string) :
  no_slash a → split_on "/" (a +:+ "/" +:+ b) = a :: split_on "/" b.
Proof.
  unfold no_slash. induction a as [|c a IH]; intros H.
  - reflexivity.
  - simpl in H. rewrite not_elem_of_cons in H. destruct H as [Hc Ha].
    rewrite str_app_cons. simpl.
    destruct (Ascii.eqb_spec c "/") as [->|_]; [done|]. by rewrite IH.
Qed.

Lemma split_on_join (segs : list string) :
  segs ≠ [] → Forall plain segs → split_on "/" (str_join "/" segs) = segs.
Proof.
  intros Hne Hall. induction Hall as [|seg rest [Hseg _] Hrest IH]; [done|].
  destruct rest as [|next rest'].
  - simpl. by apply split_on_no_slash.
  - change (str_join "/" (seg :: next :: rest'))
      with (seg +:+ "/" +:+ str_join "/" (next :: rest')).
    rewrite split_on_app by done. by rewrite IH.
Qed.

Lemma str_join_snoc (segs : list string) (name : string) :
  segs ≠ [] → str_join "/" (segs ++ [name]) = str_join "/" segs +:+ "/" +:+ name.
Proof.
  induction segs as [|seg rest IH]; [done|]. intros _.
  destruct rest as [|next rest'].
  - reflexivity.
  - change (str_join "/" ((seg :: next :: rest') ++ [name]))
      with (seg +:+ "/" +:+ str_join "/" ((next :: rest') ++ [name])).
    rewrite IH by done.
    change (str_join "/" (seg :: next :: rest'))
      with (seg +:+ "/" +:+ str_join "/" (next :: rest')).
    by rewrite !str_app_assoc.
Qed.

Lemma plain_not_special (seg : string) :
  plain seg → seg ≠ "" ∧ seg ≠ "." ∧ seg ≠ "..".
Proof.
  intros [_ H]. destruct seg as [|c seg]; [done|].
  repeat split; intros Heq; inversion Heq; by subst.
Qed.

Lemma normalizeSegments_plain (allowAboveRoot : bool) (res segs : list string) :
  Forall plain segs →
  normalizeSegments allowAboveRoot res segs = rev res ++ segs.
Proof.
  intros Hall. revert res.
  induction Hall as [|seg rest Hseg Hrest IH]; intros res; simpl.
  - by rewrite app_nil_r.
  - destruct (plain_not_special seg Hseg) as (H1 & H2 & H3).
    rewrite !decide_False by done. rewrite IH. simpl.
    by rewrite <- app_assoc.
Qed.

Lemma str_join_nonempty (segs : list string) :
  segs ≠ [] → Forall plain segs → str_nonempty (str_join "/" segs) = true.
Proof.
  intros Hne Hall. destruct Hall as [|seg rest Hseg Hrest]; [done|].
  pose proof (plain_nonempty seg Hseg) as Hn.
  destruct rest; [done|].
  change (str_join "/" (seg :: s :: rest))
    with (seg +:+ "/" +:+ str_join "/" (s :: rest)).
  destruct seg; [done|]. by rewrite str_app_cons.
Qed.

Lemma endsWithSlash_app (a b : string) :
  str_nonempty b = true → endsWithSlash (a +:+ b) = endsWithSlash b.
Proof.
  intros Hb. induction a as [|c a IH]; [done|].
  rewrite str_app_cons. simpl. rewrite IH.
  destruct (a +:+ b) eqn:E; [|done].
  destruct a; [|by rewrite str_app_cons in E].
  change ("" +:+ b) with b in E. by rewrite E in Hb.
Qed.

Lemma endsWithSlash_no_slash (a : string) : no_slash a → endsWithSlash a = false.
Proof.
  unfold no_slash. induction a as [|c a IH]; [done|]. simpl. intros H.
  rewrite not_elem_of_cons in H. destruct H as [Hc Ha].
  destruct a as [|c' a']; [|by apply IH].
  by destruct (Ascii.eqb_spec c "/").
Qed.

Lemma normAbs_snoc (path name : string) :
  normAbs path → plain name → normAbs (path +:+ "/" +:+ name).
Proof.
  intros (segs & Hne & Hall & ->) Hname. exists (segs ++ [name]).
  split; [by destruct segs|]. split; [apply Forall_app; by split; [|constructor]|].
  rewrite str_join_snoc by done. by rewrite !str_app_assoc.
Qed.

Lemma posix_normalize_normAbs (path : string) :
  normAbs path → posix_normalize path = path.
Proof.
  intros (segs & Hne & Hall & ->).
  unfold posix_normalize, normalizeString.
  change (str_nonempty ("/" +:+ str_join "/" segs)) with true.
  change (startsWith "/" ("/" +:+ str_join "/" segs)) with true.
  cbn [negb].
  change (split_on "/" ("/" +:+ str_join "/" segs))
    with ("" :: split_on "/" (str_join "/" segs)).
  rewrite split_on_join by done.
  cbn [normalizeSegments]. rewrite decide_True by done.
  rewrite normalizeSegments_plain by done. cbn [rev app].
  rewrite str_join_nonempty by done. cbn [negb].
  assert (Hend : endsWithSlash ("/" +:+ str_join "/" segs) = false).
  { rewrite endsWithSlash_app by (by apply str_join_nonempty).
    destruct segs as [|s segs'] using rev_ind; [done|].
    apply Forall_app in Hall as [Hall' Hs]. inversion Hs as [|? ? [Hs' _] _]; subst.
    destruct segs' as [|s0 segs0].
    - simpl. by apply endsWithSlash_no_slash.
    - rewrite str_join_snoc by done. rewrite <- str_app_assoc.
      rewrite endsWithSlash_app by (by apply (plain_nonempty s); inversion Hs).
      by apply endsWithSlash_no_slash. }
  by rewrite Hend.
Qed.

(** [posix.join(dir, name)] of a normalized absolute directory and a
    plain name is the directory, a slash and the name. *)
Lemma posix_join_plain (path name : string) :
  normAbs path → plain name →
  posix_join path name = path +:+ "/" +:+ name.
Proof.
  intros Hpath Hname. unfold posix_join.
  assert (str_nonempty path = true) as ->
    by (destruct Hpath as (segs & _ & _ & ->); done).
  rewrite (plain_nonempty name Hname).
  apply posix_normalize_normAbs. by apply normAbs_snoc.
Qed.

Lemma slash_in_app (a b : string) : "/"%char ∈ chars (a +:+ "/" +:+ b).
Proof.
  rewrite !chars_app. apply elem_of_app. right. apply list_elem_of_here.
Qed.

(** A path splits at its last slash in one way only. *)
Lemma path_split_inj (p q n m : string) :
  no_slash n → no_slash m →
  p +:+ "/" +:+ n = q +:+ "/" +:+ m → p = q ∧ n = m.
Proof.
  intros Hn Hm. revert q. induction p as [|c p IH]; intros q Heq.
  - change ("" +:+ "/" +:+ n) with (String "/" n) in Heq.
    destruct q as [|d q].
    + change ("" +:+ "/" +:+ m) with (String "/" m) in Heq.
      injection Heq as Hnm. done.
    + rewrite str_app_cons in Heq. injection Heq as Hd Hrest.
      exfalso. apply Hn. rewrite Hrest. apply slash_in_app.
  - rewrite str_app_cons in Heq. destruct q as [|d q].
    + change ("" +:+ "/" +:+ m) with (String "/" m) in Heq.
      injection Heq as Hd Hrest.
      exfalso. apply Hm. rewrite <- Hrest. apply slash_in_app.
    + rewrite str_app_cons in Heq. injection Heq as Hd Hrest.
      destruct (IH q Hrest) as [-> ->]. by subst.
Qed.

Lemma normAbs_pages : normAbs "/pages".
Proof.
  exists ["pages"]. split; [done|]. split; [|done].
  constructor; [|constructor]. split; [|done].
  unfold no_slash. simpl. rewrite !not_elem_of_cons.
  repeat split; try done. apply not_elem_of_nil.
Qed.

Lemma normAbs_nonempty (path : string) : normAbs path → path ≠ "".
Proof. intros (segs & _ & _ & ->). done. Qed.

(* ----------------------------------------------------------------- *)
(** ** Names: what uniqueName returns is a plain name *)

Lemma str_forallb_chars (p : ascii → bool) (s : string) :
  str_forallb p s = true ↔ ∀ c, c ∈ chars s → p c = true.
Proof.
  induction s as [|x s IH]; simpl.
  - split; [|done]. intros _ c H. by apply elem_of_nil in H.
  - rewrite andb_true_iff, IH. split.
    + intros [Hx Hs] c Hc. apply elem_of_cons in Hc as [->|Hc]; auto.
    + intros H. split; [apply H, list_elem_of_here|].
      intros c Hc. apply H. by apply list_elem_of_further.
Qed.

Lemma str_forallb_absent (p : ascii → bool) (s : string) (c : ascii) :
  p c = false → str_forallb p s = true → c ∉ chars s.
Proof.
  intros Hc Hs Hin. rewrite str_forallb_chars in Hs.
  specialize (Hs c Hin). congruence.
Qed.

Lemma digits_of_uint (d : Decimal.uint) :
  str_forallb is_digit (NilEmpty.string_of_uint d) = true.
Proof. induction d; simpl; auto. Qed.

Lemma nat_to_string_no_slash (i : nat) : no_slash (nat_to_string i).
Proof.
  apply (str_forallb_absent is_digit); [done|]. apply digits_of_uint.
Qed.

Lemma chars_str_take (n : nat) (s : string) (c : ascii) :
  c ∈ chars (str_take n s) → c ∈ chars s.
Proof.
  revert s. induction n as [|n IH]; intros [|x s] H; simpl in *;
    try by apply elem_of_nil in H.
  apply elem_of_cons in H as [->|H]; [apply list_elem_of_here|].
  apply list_elem_of_further. by apply IH.
Qed.

Lemma chars_remove_dashes (s : string) (c : ascii) :
  c ∈ chars (remove_dashes s) → c ∈ chars s.
Proof.
  induction s as [|x s IH]; simpl; [done|].
  destruct (Ascii.eqb x "-"); simpl; intros H.
  - apply list_elem_of_further. by apply IH.
  - apply elem_of_cons in H as [->|H]; [apply list_elem_of_here|].
    apply list_elem_of_further. by apply IH.
Qed.

Lemma shortId_no_slash (id : string) : no_slash id → no_slash (shortId id).
Proof.
  unfold no_slash, shortId. intros H Hin.
  apply H. by apply chars_str_take, chars_remove_dashes in Hin.
Qed.

(** A name that is a plain base name, or one followed by a dash and
    more: never [index.md] when the base has no dot. *)
Lemma uniqueName_plain (baseName : string) (usedNames : gset string)
    (fallbackId name : string) (used' : gset string) :
  plain baseName → no_slash fallbackId →
  uniqueName baseName usedNames fallbackId = Some (name, used') →
  plain name
  ∧ (name ∉ usedNames)
  ∧ used' = {[name]} ∪ usedNames
  ∧ (name = baseName ∨ "-"%char ∈ chars name).
Proof.
  intros Hbase Hid Hu.
  destruct (uniqueName_spec baseName usedNames fallbackId)
    as (name' & Heq & Hfree & H1 & H2 & H3).
  rewrite Hu in Heq. injection Heq as -> ->.
  split; [|split; [done|split; [done|]]].
  - destruct (decide (baseName ∈ usedNames)) as [Hb|Hb]; [|by rewrite H1].
    assert (Hw : plain (baseName +:+ "-" +:+ shortId fallbackId)).
    { apply plain_app; [done|]. apply no_slash_app. split.
      - unfold no_slash. simpl. rewrite not_elem_of_cons. split; [done|].
        apply not_elem_of_nil.
      - by apply shortId_no_slash. }
    destruct (decide (baseName +:+ "-" +:+ shortId fallbackId ∈ usedNames))
      as [Hw'|Hw']; [|by rewrite H2].
    destruct (H3 Hb Hw') as (i & _ & -> & _).
    apply plain_app; [done|]. apply no_slash_app. split.
    + unfold no_slash. simpl. rewrite not_elem_of_cons. split; [done|].
      apply not_elem_of_nil.
    + apply nat_to_string_no_slash.
  - destruct (decide (baseName ∈ usedNames)) as [Hb|Hb]; [|left; by apply H1].
    right.
    destruct (decide (baseName +:+ "-" +:+ shortId fallbackId ∈ usedNames))
      as [Hw'|Hw'].
    + destruct (H3 Hb Hw') as (i & _ & -> & _).
      rewrite !chars_app. apply elem_of_app. left. apply elem_of_app. right.
      apply list_elem_of_here.
    + rewrite (H2 Hb Hw'). rewrite !chars_app. apply elem_of_app. right.
      apply list_elem_of_here.
Qed.

Lemma slugText_plain (s : string) :
  str_forallb slugChar s = true → str_nonempty s = true →
  plain s ∧ "."%char ∉ chars s.
Proof.
  intros Hs Hne. split; [split|].
  - by apply (str_forallb_absent slugChar).
  - destruct s as [|c s]; [done|]. simpl in Hs.
    apply andb_true_iff in Hs as [Hc _]. intros ->. done.
  - by apply (str_forallb_absent slugChar).
Qed.

Lemma slugFromTitle_plain (slugify : string → string) (title : string) :
  (∀ t, str_forallb slugChar (slugify t) = true) →
  plain (slugFromTitle slugify title)
  ∧ "."%char ∉ chars (slugFromTitle slugify title).
Proof.
  intros Hslug. unfold slugFromTitle. case_decide as Hlen.
  - apply slugText_plain; [apply Hslug|].
    destruct (slugify title); [simpl in Hlen; lia|done].
  - by apply slugText_plain.
Qed.

(** The directory name of a page: plain, new among its siblings, and not
    the name of the index file. *)
Lemma pageDirName_ok (slugify : string → string) (page : NotionRecordMeta)
    (used used' : gset string) (dirName : string) :
  (∀ t, str_forallb slugChar (slugify t) = true) →
  no_slash (r_id page) →
  uniqueName (slugFromTitle slugify (r_title page)) used (r_id page)
    = Some (dirName, used') →
  plain dirName ∧ dirName ≠ "index.md" ∧ (dirName ∉ used)
  ∧ used' = {[dirName]} ∪ used.
Proof.
  intros Hslug Hid Hu.
  destruct (slugFromTitle_plain slugify (r_title page) Hslug) as [Hp Hdot].
  destruct (uniqueName_plain _ _ _ _ _ Hp Hid Hu) as (Hplain & Hfree & Hset & Hform).
  split; [done|]. split; [|by split].
  intros ->. destruct Hform as [Heq|Hdash].
  - apply Hdot. rewrite <- Heq. simpl.
    repeat first [apply list_elem_of_here | apply list_elem_of_further].
  - simpl in Hdash. repeat (apply elem_of_cons in Hdash as [Hdash|Hdash];
      [discriminate Hdash|]). by apply elem_of_nil in Hdash.
Qed.

(* ----------------------------------------------------------------- *)
(** ** The tree invariant and the insertion of one entry *)

Lemma treeInvariant_rootEntries : treeInvariant rootEntries.
Proof.
  unfold rootEntries. split.
  - eexists. split; [by rewrite lookup_insert_ne, lookup_insert_eq|done].
  - intros p e. rewrite !lookup_insert.
    destruct (decide ("/pages" = p)) as [<-|_];
      [intros Hlk; by inversion Hlk|].
    destruct (decide ("/" = p)) as [<-|_]; [intros Hlk; by inversion Hlk|].
    by rewrite lookup_empty.
  - intros p e. rewrite !lookup_insert.
    destruct (decide ("/pages" = p)) as [<-|_].
    { intros Hlk _. inversion Hlk; subst.
      exists (DirEntry "/" "/" "/" {["/pages"]} emptyMeta).
      split; [reflexivity|].
      split; [done|]. cbn [e_children]. by apply elem_of_singleton. }
    destruct (decide ("/" = p)) as [<-|_]; [done|]. by rewrite lookup_empty.
  - intros q d c. rewrite !lookup_insert.
    destruct (decide ("/pages" = q)) as [<-|_].
    { intros Hlk Hc. inversion Hlk; subst. cbn [e_children] in Hc.
      by apply not_elem_of_empty in Hc. }
    destruct (decide ("/" = q)) as [<-|_]; [|by rewrite lookup_empty].
    intros Hlk Hc. inversion Hlk; subst. cbn [e_children] in Hc.
    apply elem_of_singleton in Hc as ->.
    eexists. split; [reflexivity|done].
Qed.

(** The map after [entries.set(p, entry)] and [parent.children.add(p)]. *)
Lemma lookup_inserted (es : gmap string FsEntry) (p q k : string)
    (entry parent : FsEntry) :
  p ≠ q →
  <[q := parent]> (<[p := entry]> es) !! k
  = if decide (k = q) then Some parent
    else if decide (k = p) then Some entry else es !! k.
Proof.
  intros Hpq. rewrite !lookup_insert.
  repeat case_decide; subst; done.
Qed.

Lemma treeInvariant_insert (es : gmap string FsEntry) (p q : string)
    (entry : FsEntry) (n q0 g : string) (c : gset string) (m : EntryMeta) :
  treeInvariant es →
  es !! q = Some (DirEntry n q0 g c m) →
  es !! p = None →
  e_path entry = p → e_parentPath entry = q → e_children entry = ∅ →
  treeInvariant
    (<[q := DirEntry n q0 g ({[p]} ∪ c) m]> (<[p := entry]> es)).
Proof.
  intros [Hroot Hpath Hparent Hchild] Hq Hp Hep Heq Hec.
  assert (Hpq : p ≠ q) by (intros ->; congruence).
  split.
  - destruct Hroot as (r & Hr & Hd). unfold dirAt.
    rewrite lookup_inserted by done.
    destruct (decide ("/" = q)) as [<-|]; [by eexists|].
    destruct (decide ("/" = p)) as [<-|]; [congruence|]. by exists r.
  - intros k e. rewrite lookup_inserted by done.
    destruct (decide (k = q)) as [->|Hkq].
    { intros H. injection H as <-. apply (Hpath _ _ Hq). }
    destruct (decide (k = p)) as [->|Hkp]; [intros H; by injection H as <-|].
    apply Hpath.
  - intros k e. rewrite lookup_inserted by done.
    assert (Hup : ∀ k0 g0 d,
              es !! g0 = Some d → is_dir d = true → k0 ∈ e_children d →
              ∃ d', <[q := DirEntry n q0 g ({[p]} ∪ c) m]> (<[p := entry]> es)
                      !! g0 = Some d'
                    ∧ is_dir d' = true ∧ k0 ∈ e_children d').
    { intros k0 g0 d Hg Hdir Hk0. rewrite lookup_inserted by done.
      destruct (decide (g0 = q)) as [->|Hgq].
      - eexists. split; [done|]. split; [done|]. simpl.
        rewrite Hq in Hg. injection Hg as <-. simpl in Hk0.
        apply elem_of_union. by right.
      - destruct (decide (g0 = p)) as [->|]; [congruence|]. by exists d. }
    destruct (decide (k = q)) as [->|Hkq].
    { intros H Hne. injection H as <-. simpl.
      destruct (Hparent _ _ Hq Hne) as (d & Hg & Hdir & Hin).
      by apply (Hup q g d). }
    destruct (decide (k = p)) as [->|Hkp].
    { intros H Hne. injection H as <-. rewrite Heq, lookup_inserted by done.
      rewrite decide_True by done. eexists. split; [done|]. split; [done|].
      simpl. apply elem_of_union. left. by apply elem_of_singleton. }
    intros H Hne. destruct (Hparent _ _ H Hne) as (d & Hg & Hdir & Hin).
    by apply (Hup k (e_parentPath e) d).
  - intros k d x. rewrite lookup_inserted by done.
    assert (Hold : ∀ k0 x0 e,
              es !! x0 = Some e → e_parentPath e = k0 →
              ∃ e', <[q := DirEntry n q0 g ({[p]} ∪ c) m]> (<[p := entry]> es)
                      !! x0 = Some e'
                    ∧ e_parentPath e' = k0).
    { intros k0 x0 e Hx Hpar. rewrite lookup_inserted by done.
      destruct (decide (x0 = q)) as [->|Hxq].
      - eexists. split; [done|]. simpl.
        rewrite Hq in Hx. by injection Hx as <-.
      - destruct (decide (x0 = p)) as [->|]; [congruence|]. by exists e. }
    destruct (decide (k = q)) as [->|Hkq].
    { intros H Hx. injection H as <-. simpl in Hx.
      apply elem_of_union in Hx as [Hx|Hx].
      - apply elem_of_singleton in Hx as ->. rewrite lookup_inserted by done.
        rewrite decide_False by done. rewrite decide_True by done.
        by eexists.
      - destruct (Hchild q _ x Hq Hx) as (e & He & Hpar). by apply (Hold q x e). }
    destruct (decide (k = p)) as [->|Hkp].
    { intros H Hx. injection H as <-. rewrite Hec in Hx.
      by apply not_elem_of_empty in Hx. }
    intros H Hx. destruct (Hchild k d x H Hx) as (e & He & Hpar).
    by apply (Hold k x e).
Qed.

(** [insertEntry] on a directory that exists and a path that is free. *)
Lemma insertEntry_fresh (pathname parentPath : string) (entry : FsEntry)
    (fs : VirtualFs) :
  dirAt (entries fs) parentPath →
  ∃ n q0 g c m,
    entries fs !! parentPath = Some (DirEntry n q0 g c m)
    ∧ (pathname ≠ parentPath →
       insertEntry pathname parentPath entry fs
       = Done (set_entries
                 (<[parentPath := DirEntry n q0 g ({[pathname]} ∪ c) m]>
                    (<[pathname := entry]> (entries fs))) fs)).
Proof.
  intros (d & Hd & Hdir). destruct d as [n q0 g c m| |]; try done.
  exists n, q0, g, c, m. split; [done|]. intros Hne.
  unfold insertEntry, ensureParentDir. rewrite Hd. simpl.
  unfold addChild. by rewrite decide_False.
Qed.

(* ----------------------------------------------------------------- *)
(** ** The invariant of the page pass *)

Lemma key_nonempty (fs : VirtualFs) (names : gmap string (gset string))
    (p : string) (e : FsEntry) :
  pagesInvariant fs names → entries fs !! p = Some e → p ≠ "".
Proof.
  intros Hinv He. destruct (pi_norm _ _ Hinv p e He) as [->|Hn]; [done|].
  by apply normAbs_nonempty.
Qed.

Lemma below_not_top (q n : string) :
  q ≠ "" → no_slash n →
  q +:+ "/" +:+ n ≠ "/" ∧ q +:+ "/" +:+ n ≠ "/pages".
Proof.
  intros Hq Hn. split; intros Heq.
  - change "/" with ("" +:+ "/" +:+ "") in Heq.
    apply path_split_inj in Heq as [? _]; [done|done|].
    unfold no_slash. simpl. apply not_elem_of_nil.
  - change "/pages" with ("" +:+ "/" +:+ "pages") in Heq.
    apply path_split_inj in Heq as [? _]; [done|done|].
    destruct normAbs_pages as (segs & _ & _ & _).
    unfold no_slash. simpl. rewrite !not_elem_of_cons.
    repeat split; try done. apply not_elem_of_nil.
Qed.

(** A name not yet handed out for a directory is a free path in it. *)
Lemma fresh_child (fs : VirtualFs) (names : gmap string (gset string))
    (q n : string) :
  pagesInvariant fs names → dirAt (entries fs) q →
  no_slash n → n ≠ "index.md" → n ∉ siblingsOf names q →
  entries fs !! (q +:+ "/" +:+ n) = None.
Proof.
  intros Hinv (d & Hd & _) Hn Hidx Hfree.
  destruct (entries fs !! (q +:+ "/" +:+ n)) as [e|] eqn:He; [|done].
  exfalso.
  destruct (below_not_top q n (key_nonempty _ _ _ _ Hinv Hd) Hn) as [H1 H2].
  destruct (pi_name _ _ Hinv _ _ He H1 H2) as (Heq & Hns & Hnm).
  apply path_split_inj in Heq as [Hq Hname]; [|done|done].
  rewrite <- Hq, <- Hname in Hnm. by destruct Hnm.
Qed.

(** Nothing is stored below a path that is itself free. *)
Lemma fresh_below (fs : VirtualFs) (names : gmap string (gset string))
    (d n : string) :
  pagesInvariant fs names → entries fs !! d = None → d ≠ "" → no_slash n →
  entries fs !! (d +:+ "/" +:+ n) = None.
Proof.
  intros Hinv Hd Hne Hn.
  destruct (entries fs !! (d +:+ "/" +:+ n)) as [e|] eqn:He; [|done].
  exfalso. destruct (below_not_top d n Hne Hn) as [H1 H2].
  destruct (pi_name _ _ Hinv _ _ He H1 H2) as (Heq & Hns & _).
  apply path_split_inj in Heq as [Hq _]; [|done|done].
  destruct (tree_parent _ (pi_tree _ _ Hinv) _ _ He H1) as (x & Hx & _).
  rewrite <- Hq in Hx. congruence.
Qed.

(** One [insertEntry] of the page pass keeps the invariant. *)
Lemma pagesInvariant_insert (fs : VirtualFs)
    (names names' : gmap string (gset string)) (p q : string)
    (entry : FsEntry) :
  pagesInvariant fs names →
  dirAt (entries fs) q →
  entries fs !! p = None →
  e_path entry = p → e_parentPath entry = q → e_children entry = ∅ →
  normAbs p →
  p = q +:+ "/" +:+ e_name entry →
  no_slash (e_name entry) →
  (e_name entry = "index.md" ∨ e_name entry ∈ siblingsOf names' q) →
  (∀ x, siblingsOf names x ⊆ siblingsOf names' x) →
  ∃ fs',
    insertEntry p q entry fs = Done fs'
    ∧ pagesInvariant fs' names'
    ∧ entries fs' !! p = Some entry
    ∧ pageDirPathById fs' = pageDirPathById fs
    ∧ (∀ k, dirAt (entries fs) k → dirAt (entries fs') k)
    ∧ (∀ k, k ≠ p → entries fs !! k = None → entries fs' !! k = None).
Proof.
  intros Hinv Hq Hp Hep Heq Hec Hnorm Hpath Hns Hname Hmono.
  destruct (insertEntry_fresh p q entry fs Hq) as (n & q0 & g & c & m & Hd & Hins).
  assert (Hpq : p ≠ q) by (intros ->; congruence).
  eexists. split; [by apply Hins|].
  set (es' := <[q := DirEntry n q0 g ({[p]} ∪ c) m]> (<[p := entry]> (entries fs))).
  assert (Hlk : ∀ k, es' !! k
                = if decide (k = q) then Some (DirEntry n q0 g ({[p]} ∪ c) m)
                  else if decide (k = p) then Some entry else entries fs !! k)
    by (intros k; by apply lookup_inserted).
  split; [split|].
  - simpl. eapply treeInvariant_insert; eauto. apply (pi_tree _ _ Hinv).
  - simpl. intros k e. fold es'. rewrite Hlk.
    destruct (decide (k = q)) as [->|_];
      [intros _; apply (pi_norm _ _ Hinv _ _ Hd)|].
    destruct (decide (k = p)) as [->|_]; [intros _; by right|].
    apply (pi_norm _ _ Hinv).
  - simpl. intros k e. fold es'. rewrite Hlk.
    destruct (decide (k = q)) as [->|_].
    { intros He H1 H2. injection He as <-.
      destruct (pi_name _ _ Hinv _ _ Hd H1 H2) as (Hk & Hk1 & Hk2).
      split; [done|]. split; [done|]. destruct Hk2 as [?|Hin]; [by left|].
      right. by apply Hmono. }
    destruct (decide (k = p)) as [->|_].
    { intros He _ _. injection He as <-. rewrite Heq. done. }
    intros He H1 H2.
    destruct (pi_name _ _ Hinv _ _ He H1 H2) as (Hk & Hk1 & Hk2).
    split; [done|]. split; [done|]. destruct Hk2 as [?|Hin]; [by left|].
    right. by apply Hmono.
  - simpl. intros id x Hx. destruct (pi_dirs _ _ Hinv _ _ Hx) as [(d & Hdx & Hdir) Hnx].
    split; [|done]. unfold dirAt. fold es'. rewrite Hlk.
    destruct (decide (x = q)) as [->|_]; [by eexists|].
    destruct (decide (x = p)) as [->|_]; [congruence|]. by exists d.
  - split; [|split; [done|split]].
    + simpl. fold es'. rewrite Hlk. by rewrite decide_False, decide_True.
    + simpl. intros k (d & Hdx & Hdir). unfold dirAt. fold es'. rewrite Hlk.
      destruct (decide (k = q)) as [->|_]; [by eexists|].
      destruct (decide (k = p)) as [->|_]; [congruence|]. by exists d.
    + simpl. intros k Hk Hnone. fold es'. rewrite Hlk.
      destruct (decide (k = q)) as [->|_]; [congruence|].
      by rewrite decide_False.
Qed.

Lemma siblingsOf_insert (names : gmap string (gset string)) (q x : string)
    (n : string) :
  siblingsOf names x
  ⊆ siblingsOf (<[q := {[n]} ∪ siblingsOf names q]> names) x.
Proof.
  unfold siblingsOf. rewrite lookup_insert.
  destruct (decide (q = x)) as [->|_]; [|done].
  simpl. intros y Hy. apply elem_of_union. by right.
Qed.

Lemma siblingsOf_insert_eq (names : gmap string (gset string)) (q : string)
    (used : gset string) :
  siblingsOf (<[q := used]> names) q = used.
Proof. unfold siblingsOf. by rewrite lookup_insert_eq. Qed.

Lemma plain_index : plain "index.md".
Proof.
  split; [|done]. unfold no_slash. simpl. rewrite !not_elem_of_cons.
  repeat split; try done. apply not_elem_of_nil.
Qed.

Lemma app_not_self (a b : string) : b ≠ "" → a +:+ b ≠ a.
Proof.
  intros Hb Heq. rewrite <- (str_app_nil_r a) in Heq at 2.
  by apply String.app_inj in Heq.
Qed.

Lemma pagesInvariant_record (fs : VirtualFs)
    (names : gmap string (gset string)) (id path : string) :
  pagesInvariant fs names → dirAt (entries fs) path → normAbs path →
  pagesInvariant
    (set_pageDirPathById (<[id := path]> (pageDirPathById fs)) fs) names.
Proof.
  intros [H1 H2 H3 H4] Hdir Hnorm. split; try done.
  simpl. intros i x. rewrite lookup_insert.
  destruct (decide (id = i)) as [_|_]; [|by apply H4].
  intros Hx. by injection Hx as <-.
Qed.

(** What [buildPageTree] does for the page itself: a fresh directory
    under the parent, its record by id, and its index file. *)
Lemma buildPage_own (slugify : string → string) (fs : VirtualFs)
    (names : gmap string (gset string)) (page : NotionRecordMeta)
    (parentPath dirName : string) (used' : gset string) :
  (∀ t, str_forallb slugChar (slugify t) = true) →
  no_slash (r_id page) →
  pagesInvariant fs names →
  dirAt (entries fs) parentPath → normAbs parentPath →
  uniqueName (slugFromTitle slugify (r_title page))
    (siblingsOf names parentPath) (r_id page) = Some (dirName, used') →
  ∃ fs1 fs2,
    addDir (posix_join parentPath dirName) dirName parentPath (pageMeta page) fs
      = Done fs1
    ∧ addPageFile (posix_join (posix_join parentPath dirName) "index.md")
        (posix_join parentPath dirName) page
        (set_pageDirPathById
           (<[r_id page := posix_join parentPath dirName]> (pageDirPathById fs1))
           fs1)
      = Done fs2
    ∧ pagesInvariant fs2 (<[parentPath := used']> names)
    ∧ dirAt (entries fs2) (posix_join parentPath dirName)
    ∧ normAbs (posix_join parentPath dirName)
    ∧ (∀ k, dirAt (entries fs) k → dirAt (entries fs2) k).
Proof.
  intros Hslug Hid Hinv Hparent Hnorm Hname.
  destruct (pageDirName_ok slugify page _ _ _ Hslug Hid Hname)
    as (Hplain & Hidx & Hfree & ->).
  rewrite (posix_join_plain parentPath dirName Hnorm Hplain).
  set (dirPath := parentPath +:+ "/" +:+ dirName).
  assert (Hdn : normAbs dirPath) by (by apply normAbs_snoc).
  rewrite (posix_join_plain dirPath "index.md" Hdn plain_index).
  set (names' := <[parentPath := {[dirName]} ∪ siblingsOf names parentPath]> names).
  assert (Hfd : entries fs !! dirPath = None)
    by (apply (fresh_child fs names); try done; apply Hplain).
  destruct (pagesInvariant_insert fs names names' dirPath parentPath
              (DirEntry dirName dirPath parentPath ∅ (pageMeta page)))
    as (fs1 & Hadd & Hinv1 & Hat & Hpd & Hmono1 & Hnone1); try done.
  { apply Hplain. }
  { right. unfold names'. rewrite siblingsOf_insert_eq.
    apply elem_of_union. left. by apply elem_of_singleton. }
  { intros x. apply siblingsOf_insert. }
  exists fs1.
  set (fs1' := set_pageDirPathById
                 (<[r_id page := dirPath]> (pageDirPathById fs1)) fs1).
  assert (Hdir1 : dirAt (entries fs1) dirPath) by (by eexists).
  assert (Hinv1' : pagesInvariant fs1' names')
    by (by apply pagesInvariant_record).
  destruct (pagesInvariant_insert fs1' names' names'
              (dirPath +:+ "/" +:+ "index.md") dirPath
              (FileEntry "index.md" (dirPath +:+ "/" +:+ "index.md") dirPath
                 false (r_id page) (pageMeta page)))
    as (fs2 & Hadd2 & Hinv2 & Hat2 & Hpd2 & Hmono2 & Hnone2); try done.
  { simpl. apply Hnone1.
    - by apply app_not_self.
    - apply (fresh_below fs names); try done.
      + by apply normAbs_nonempty.
      + apply plain_index. }
  { by apply normAbs_snoc, plain_index. }
  { apply plain_index. }
  { by left. }
  exists fs2. split; [exact Hadd|]. split; [exact Hadd2|].
  split; [exact Hinv2|]. split; [by apply Hmono2|]. split; [done|].
  intros k Hk. by apply Hmono2, Hmono1.
Qed.

(* ----------------------------------------------------------------- *)
(** ** The page pass: every page reached from a root is mounted *)

Lemma forEachM_invariant {A S : Type} (body : A → S → res S) (P : S → Prop)
    (l : list A) (st : S) :
  P st →
  (∀ x st0, x ∈ l → P st0 → ∃ st1, body x st0 = Done st1 ∧ P st1) →
  ∃ st', forEachM body l st = Done st' ∧ P st'.
Proof.
  revert st. induction l as [|x rest IH]; intros st Hst Hbody; simpl.
  - by exists st.
  - destruct (Hbody x st (list_elem_of_here _ _) Hst) as (st1 & -> & Hst1).
    simpl. apply IH; [done|]. intros y st0 Hy. apply Hbody.
    by apply list_elem_of_further.
Qed.

Lemma unique_by_id (l : list NotionRecordMeta) (x y : NotionRecordMeta) :
  NoDup (map r_id l) → x ∈ l → y ∈ l → r_id x = r_id y → x = y.
Proof.
  induction l as [|z l IH]; intros Hnd Hx Hy Hid.
  - by apply elem_of_nil in Hx.
  - simpl in Hnd. apply NoDup_cons in Hnd as [Hz Hnd].
    apply elem_of_cons in Hx as [->|Hx]; apply elem_of_cons in Hy as [->|Hy].
    + done.
    + exfalso. apply Hz. rewrite Hid. apply list_elem_of_fmap. by exists y.
    + exfalso. apply Hz. rewrite <- Hid. apply list_elem_of_fmap. by exists x.
    + by apply IH.
Qed.

Section PagePass.

Variable slugify : string → string.
Variable localeCompare : string → string → Z.
Variable pages : list NotionRecordMeta.
Variable known : gmap string NotionRecordMeta.

Lemma insertByTitle_elem (a x : NotionRecordMeta) (l : list NotionRecordMeta) :
  x ∈ insertByTitle localeCompare a l → x = a ∨ x ∈ l.
Proof.
  induction l as [|y l IH]; simpl.
  - intros H. apply list_elem_of_singleton in H. by left.
  - destruct (localeCompare (r_title a) (r_title y) <? 0)%Z.
    + intros H. apply elem_of_cons in H as [->|H]; [by left|by right].
    + intros H. apply elem_of_cons in H as [->|H].
      * right. apply list_elem_of_here.
      * destruct (IH H) as [->|Hin]; [by left|].
        right. by apply list_elem_of_further.
Qed.

Lemma sortByTitle_elem (x : NotionRecordMeta) (l : list NotionRecordMeta) :
  x ∈ sortByTitle localeCompare l → x ∈ l.
Proof.
  unfold sortByTitle.
  assert (H : ∀ acc, x ∈ fold_left (λ sorted y, insertByTitle localeCompare y sorted)
                          l acc → x ∈ acc ∨ x ∈ l).
  { induction l as [|y l IH]; intros acc; simpl; [by left|].
    intros Hx. destruct (IH _ Hx) as [Hacc|Hl].
    - destruct (insertByTitle_elem _ _ _ Hacc) as [->|Hin]; [|by left].
      right. apply list_elem_of_here.
    - right. by apply list_elem_of_further. }
  intros Hx. destruct (H [] Hx) as [Hnil|Hl]; [|done].
  by apply elem_of_nil in Hnil.
Qed.

(** What the classification loop guarantees: a child is a page whose
    parent id is known, a root is a page whose parent is not a known
    page. *)
Definition classified
    (acc : gmap string (list NotionRecordMeta) * list NotionRecordMeta)
    : Prop :=
  (∀ pid c, c ∈ default [] (acc.1 !! pid) →
     c ∈ pages ∧ r_parent c = ParentPageId pid ∧ is_Some (known !! pid))
  ∧ (∀ r, r ∈ acc.2 →
       r ∈ pages ∧ ∀ pid, r_parent r = ParentPageId pid → known !! pid = None).

Lemma classifyPage_classified
    (acc : gmap string (list NotionRecordMeta) * list NotionRecordMeta)
    (page : NotionRecordMeta) :
  classified acc → page ∈ pages → classified (classifyPage known acc page).
Proof.
  destruct acc as [cbp roots]. intros [Hc Hr] Hpage. unfold classifyPage.
  assert (Hroot : classified (cbp, roots ++ [page]) ∨ ∃ pid,
            r_parent page = ParentPageId pid ∧ is_Some (known !! pid)).
  { destruct (r_parent page) as [pid| | |] eqn:Hp.
    - destruct (known !! pid) eqn:Hk; [right; by eauto|].
      left. split; [done|]. simpl. intros r Hin.
      apply elem_of_app in Hin as [Hin|Hin]; [by apply Hr|].
      apply list_elem_of_singleton in Hin as ->. split; [done|].
      intros pid' Hp'. rewrite Hp in Hp'. by injection Hp' as <-.
    - left. split; [done|]. simpl. intros r Hin.
      apply elem_of_app in Hin as [Hin|Hin]; [by apply Hr|].
      apply list_elem_of_singleton in Hin as ->. split; [done|].
      intros pid' Hp'. congruence.
    - left. split; [done|]. simpl. intros r Hin.
      apply elem_of_app in Hin as [Hin|Hin]; [by apply Hr|].
      apply list_elem_of_singleton in Hin as ->. split; [done|].
      intros pid' Hp'. congruence.
    - left. split; [done|]. simpl. intros r Hin.
      apply elem_of_app in Hin as [Hin|Hin]; [by apply Hr|].
      apply list_elem_of_singleton in Hin as ->. split; [done|].
      intros pid' Hp'. congruence. }
  destruct (r_parent page) as [pid| | |] eqn:Hp;
    try (destruct Hroot as [H|(pid' & Hp' & _)]; [exact H|discriminate Hp']).
  destruct (known !! pid) eqn:Hk.
  - split; [|done]. simpl. intros pid' c. rewrite lookup_insert.
    destruct (decide (pid = pid')) as [<-|_]; [|by apply Hc].
    simpl. intros Hin. apply elem_of_app in Hin as [Hin|Hin]; [by apply Hc|].
    apply list_elem_of_singleton in Hin as ->. by rewrite Hk.
  - destruct Hroot as [H|(pid' & Hp' & Hs)]; [exact H|].
    injection Hp' as <-. rewrite Hk in Hs. by destruct Hs.
Qed.

Lemma classify_all (l : list NotionRecordMeta)
    (acc : gmap string (list NotionRecordMeta) * list NotionRecordMeta) :
  classified acc → (∀ x, x ∈ l → x ∈ pages) →
  classified (fold_left (classifyPage known) l acc).
Proof.
  revert acc. induction l as [|x l IH]; intros acc Hacc Hl; simpl; [done|].
  apply IH.
  - apply classifyPage_classified; [done|]. apply Hl, list_elem_of_here.
  - intros y Hy. by apply Hl, list_elem_of_further.
Qed.

Variable childrenByParentPage : gmap string (list NotionRecordMeta).
Variable roots : list NotionRecordMeta.

Hypothesis slug_ok : ∀ t, str_forallb slugChar (slugify t) = true.
Hypothesis ids_unique : NoDup (map r_id pages).
Hypothesis ids_ok : Forall (λ r, no_slash (r_id r)) pages.
Hypothesis classes : classified (childrenByParentPage, roots).

(** The pages on the way from a root down to the page being mounted,
    the deepest first. *)
Inductive chain : list NotionRecordMeta → Prop :=
| chain_root r : r ∈ roots → chain [r]
| chain_child c p rest :
    chain (p :: rest) →
    c ∈ default [] (childrenByParentPage !! r_id p) →
    chain (c :: p :: rest).

Lemma chain_pages (l : list NotionRecordMeta) (x : NotionRecordMeta) :
  chain l → x ∈ l → x ∈ pages.
Proof using classes.
  destruct classes as [Hc Hr].
  induction 1 as [r Hroot|c p rest Hch IH Hin]; intros Hx.
  - apply list_elem_of_singleton in Hx as ->. by apply Hr.
  - apply elem_of_cons in Hx as [->|Hx]; [|by apply IH].
    by apply (Hc (r_id p)).
Qed.

Lemma chain_next (l l1 l2 : list NotionRecordMeta) (x : NotionRecordMeta) :
  chain l → l = l1 ++ x :: l2 →
  (l2 = [] ∧ x ∈ roots)
  ∨ ∃ y l3, l2 = y :: l3 ∧ x ∈ default [] (childrenByParentPage !! r_id y).
Proof using Type.
  intros Hch. revert l1. induction Hch as [r Hroot|c p rest Hch IH Hin];
    intros l1 Heq.
  - destruct l1 as [|z l1].
    + injection Heq as <- <-. by left.
    + injection Heq as _ Heq. by destruct l1.
  - destruct l1 as [|z l1].
    + injection Heq as <- <-. right. by eauto.
    + injection Heq as _ Heq. by apply (IH l1).
Qed.

Lemma chain_NoDup (l : list NotionRecordMeta) : chain l → NoDup l.
Proof using ids_unique classes.
  induction 1 as [r Hroot|c p rest Hch IH Hin].
  - apply NoDup_singleton.
  - apply NoDup_cons. split; [|done]. intros Hc.
    destruct classes as [Hcls Hrts].
    destruct (Hcls _ _ Hin) as (Hcp & Hpar & Hknown).
    apply list_elem_of_split in Hc as (l1 & l2 & Hsplit).
    destruct (chain_next _ _ _ _ Hch Hsplit) as [[-> Hr]|(y & l3 & -> & Hy)].
    + destruct (Hrts _ Hr) as [_ Hno]. rewrite (Hno _ Hpar) in Hknown.
      by destruct Hknown.
    + destruct (Hcls _ _ Hy) as (_ & Hpar' & _).
      rewrite Hpar in Hpar'. injection Hpar' as Hid.
      assert (Hp : p ∈ pages)
        by (apply (chain_pages (p :: rest)); [done|apply list_elem_of_here]).
      assert (Hyp : y ∈ pages).
      { apply (chain_pages (p :: rest)); [done|]. rewrite Hsplit.
        apply elem_of_app. right. apply list_elem_of_further, list_elem_of_here. }
      assert (y = p) as -> by (by apply (unique_by_id pages)).
      apply NoDup_cons in IH as [Hnot _]. apply Hnot.
      destruct l1 as [|z l1].
      * injection Hsplit as _ ->. apply list_elem_of_here.
      * injection Hsplit as _ ->. apply elem_of_app. right.
        apply list_elem_of_further, list_elem_of_here.
Qed.

Lemma chain_length (l : list NotionRecordMeta) :
  chain l → length l ≤ length pages.
Proof using ids_unique classes.
  intros Hch. apply submseteq_length, NoDup_submseteq.
  - by apply chain_NoDup.
  - intros x. by apply chain_pages.
Qed.

(** [buildPageTree] on a page at the end of a chain, with fuel for the
    pages that are not on the chain yet: it returns, and it keeps the
    invariant and every directory. *)
Lemma buildPageTree_ok (fuel : nat) :
  ∀ (page : NotionRecordMeta) (parentPath : string) (fs : VirtualFs)
    (names : gmap string (gset string)) (above : list NotionRecordMeta),
    chain (page :: above) →
    length pages ≤ fuel + length above →
    pagesInvariant fs names →
    dirAt (entries fs) parentPath → normAbs parentPath →
    ∃ fs' names',
      buildPageTree slugify localeCompare fuel childrenByParentPage page
        parentPath (fs, names) = Done (fs', names')
      ∧ pagesInvariant fs' names'
      ∧ ∀ k, dirAt (entries fs) k → dirAt (entries fs') k.
Proof using slug_ok ids_unique ids_ok classes.
  induction fuel as [|fuel IH];
    intros page parentPath fs names above Hch Hfuel Hinv Hdir Hnorm.
  - apply chain_length in Hch. simpl in *. lia.
  - assert (Hpage : page ∈ pages)
      by (apply (chain_pages (page :: above)); [done|apply list_elem_of_here]).
    assert (Hid : no_slash (r_id page)).
    { rewrite Forall_forall in ids_ok. by apply ids_ok. }
    simpl.
    destruct (uniqueName_spec (slugFromTitle slugify (r_title page))
                (siblingsOf names parentPath) (r_id page))
      as (dirName & Hname & _).
    change (default ∅ (names !! parentPath)) with (siblingsOf names parentPath).
    rewrite Hname.
    destruct (buildPage_own slugify fs names page parentPath dirName _
                slug_ok Hid Hinv Hdir Hnorm Hname)
      as (fs1 & fs2 & -> & Hfile & Hinv2 & Hdir2 & Hnorm2 & Hmono).
    simpl. rewrite Hfile. simpl.
    destruct (forEachM_invariant
                (λ child st,
                   buildPageTree slugify localeCompare fuel childrenByParentPage
                     child (posix_join parentPath dirName) st)
                (λ st, pagesInvariant st.1 st.2
                       ∧ ∀ k, dirAt (entries fs2) k → dirAt (entries st.1) k)
                (sortByTitle localeCompare
                   (default [] (childrenByParentPage !! r_id page)))
                (fs2, <[parentPath := {[dirName]} ∪ siblingsOf names parentPath]> names))
      as ([fs' names'] & Hrun & Hinv' & Hmono').
    + split; [done|]. by intros k.
    + intros child [fs0 names0] Hchild [Hinv0 Hmono0]. simpl in *.
      apply sortByTitle_elem in Hchild.
      destruct (IH child (posix_join parentPath dirName) fs0 names0
                  (page :: above))
        as (fs3 & names3 & Hrun & Hinv3 & Hmono3).
      * by apply chain_child.
      * simpl. lia.
      * done.
      * by apply Hmono0.
      * done.
      * exists (fs3, names3). split; [done|]. split; [done|].
        intros k Hk. by apply Hmono3, Hmono0.
    + exists fs', names'. split; [exact Hrun|]. split; [done|].
      intros k Hk. by apply Hmono', Hmono.
Qed.

End PagePass.

(* ----------------------------------------------------------------- *)
(** ** The database pass *)

Lemma pagesInvariant_mount (fs : VirtualFs) (names : gmap string (gset string)) :
  pagesInvariant fs names → mountInvariant fs.
Proof. intros [H1 H2 _ H4]. by split. Qed.

Lemma mountInvariant_insert (fs : VirtualFs) (p q : string) (entry : FsEntry) :
  mountInvariant fs →
  dirAt (entries fs) q →
  entries fs !! p = None →
  e_path entry = p → e_parentPath entry = q → e_children entry = ∅ →
  normAbs p →
  ∃ fs',
    insertEntry p q entry fs = Done fs'
    ∧ mountInvariant fs'
    ∧ ∀ k, dirAt (entries fs) k → dirAt (entries fs') k.
Proof.
  intros Hinv Hq Hp Hep Heq Hec Hnorm.
  destruct (insertEntry_fresh p q entry fs Hq) as (n & q0 & g & c & m & Hd & Hins).
  assert (Hpq : p ≠ q) by (intros ->; congruence).
  eexists. split; [by apply Hins|].
  set (es' := <[q := DirEntry n q0 g ({[p]} ∪ c) m]> (<[p := entry]> (entries fs))).
  assert (Hlk : ∀ k, es' !! k
                = if decide (k = q) then Some (DirEntry n q0 g ({[p]} ∪ c) m)
                  else if decide (k = p) then Some entry else entries fs !! k)
    by (intros k; by apply lookup_inserted).
  assert (Hmono : ∀ k, dirAt (entries fs) k → dirAt es' k).
  { intros k (d & Hdx & Hdir). unfold dirAt. rewrite Hlk.
    destruct (decide (k = q)) as [->|_]; [by eexists|].
    destruct (decide (k = p)) as [->|_]; [congruence|]. by exists d. }
  split; [split|exact Hmono].
  - simpl. eapply treeInvariant_insert; eauto. apply (mi_tree _ Hinv).
  - simpl. intros k e. fold es'. rewrite Hlk.
    destruct (decide (k = q)) as [->|_];
      [intros _; apply (mi_norm _ Hinv _ _ Hd)|].
    destruct (decide (k = p)) as [->|_]; [intros _; by right|].
    apply (mi_norm _ Hinv).
  - simpl. intros id x Hx. destruct (mi_dirs _ Hinv _ _ Hx) as [Hdx Hnx].
    split; [by apply Hmono|done].
Qed.

Lemma findUniquePath_loop_spec (fuel : nat) (parentPath filename : string)
    (es : gmap string FsEntry) (i : nat) :
  match findUniquePath_loop fuel parentPath filename es i with
  | Some j => es !! posix_join parentPath (numbered filename j) = None
  | None =>
      ∀ k, i ≤ k < i + fuel →
        is_Some (es !! posix_join parentPath (numbered filename k))
  end.
Proof.
  revert i. induction fuel as [|fuel IH]; intros i; simpl.
  - intros k Hk. lia.
  - fold (numbered filename i).
    destruct (es !! posix_join parentPath (numbered filename i)) eqn:Hi; [|done].
    specialize (IH (S i)).
    destruct (findUniquePath_loop fuel parentPath filename es (S i)); [done|].
    intros k Hk. destruct (decide (k = i)) as [->|]; [by rewrite Hi|].
    apply IH. lia.
Qed.

Lemma plain_numbered (name : string) (i : nat) :
  plain name → plain (numbered name i).
Proof.
  intros Hn. unfold numbered. apply plain_app; [done|].
  apply no_slash_app. split; [|apply nat_to_string_no_slash].
  unfold no_slash. simpl. rewrite not_elem_of_cons. split; [done|].
  apply not_elem_of_nil.
Qed.

(** [findUniquePath] returns, and what it returns is a free, normalized
    path. *)
Lemma findUniquePath_fresh (fs : VirtualFs) (parentPath name : string) :
  normAbs parentPath → plain name →
  ∃ dbPath,
    findUniquePath parentPath name fs = Some dbPath
    ∧ entries fs !! dbPath = None
    ∧ normAbs dbPath.
Proof.
  intros Hnorm Hname. unfold findUniquePath.
  destruct (entries fs !! posix_join parentPath name) eqn:Hfirst.
  - pose proof (findUniquePath_loop_spec (S (size (entries fs))) parentPath
                  name (entries fs) 2) as Hspec.
    destruct (findUniquePath_loop (S (size (entries fs))) parentPath name
                (entries fs) 2) as [j|].
    + eexists. split; [done|]. split; [exact Hspec|].
      rewrite posix_join_plain by (by try apply plain_numbered).
      by apply normAbs_snoc, plain_numbered.
    + exfalso.
      set (cands := map (λ k, posix_join parentPath (numbered name k))
                      (seq 2 (S (size (entries fs))))).
      assert (Hnd : NoDup cands).
      { apply NoDup_fmap_2; [|apply NoDup_seq]. intros a b Hab.
        rewrite !posix_join_plain in Hab by (by try apply plain_numbered).
        apply path_split_inj in Hab as [_ Hab];
          [|apply plain_numbered; done..].
        by apply numbered_inj in Hab. }
      assert (Hsub : (list_to_set cands : gset string) ⊆ dom (entries fs)).
      { intros x Hx. apply elem_of_list_to_set in Hx.
        apply list_elem_of_fmap in Hx as (k & -> & Hk).
        apply elem_of_seq in Hk. apply elem_of_dom. apply Hspec. lia. }
      apply subseteq_size in Hsub.
      rewrite size_list_to_set, size_dom in Hsub by done.
      unfold cands in Hsub. rewrite length_map, length_seq in Hsub. lia.
  - eexists. split; [done|]. split; [done|].
    rewrite posix_join_plain by done. by apply normAbs_snoc.
Qed.

Lemma plain_dbName (id : string) :
  no_slash id → plain ("[db:" +:+ shortId id +:+ "]").
Proof.
  intros Hid. split; [|done].
  change ("[db:" +:+ shortId id +:+ "]")
    with (String "[" (String "d" (String "b" (String ":" (shortId id +:+ "]"))))).
  unfold no_slash. simpl. rewrite !not_elem_of_cons.
  repeat split; try done. rewrite chars_app. intros Hin.
  apply elem_of_app in Hin as [Hin|Hin].
  - by apply (shortId_no_slash id Hid).
  - simpl in Hin. apply elem_of_cons in Hin as [Hin|Hin]; [done|].
    by apply elem_of_nil in Hin.
Qed.

Lemma parentDirOf_dir (database : NotionRecordMeta) (fs : VirtualFs) :
  mountInvariant fs → dirAt (entries fs) "/pages" →
  dirAt (entries fs) (parentDirOf database fs)
  ∧ normAbs (parentDirOf database fs).
Proof.
  intros Hinv Hpages. unfold parentDirOf.
  destruct (r_parent database) as [pid| | |];
    try (split; [done|apply normAbs_pages]).
  destruct (pageDirPathById fs !! pid) as [d|] eqn:Hd;
    [|split; [done|apply normAbs_pages]].
  destruct (str_nonempty d); [|split; [done|apply normAbs_pages]].
  by apply (mi_dirs _ Hinv pid).
Qed.

(** One round of the database loop returns and keeps the invariant. *)
Lemma addDatabase_ok (database : NotionRecordMeta) (fs : VirtualFs)
    (dbNamesByParent : gmap string (gset string)) :
  no_slash (r_id database) →
  mountInvariant fs → dirAt (entries fs) "/pages" →
  ∃ fs' names',
    addDatabase database (fs, dbNamesByParent) = Done (fs', names')
    ∧ mountInvariant fs'
    ∧ dirAt (entries fs') "/pages".
Proof.
  intros Hid Hinv Hpages. unfold addDatabase.
  destruct (parentDirOf_dir database fs Hinv Hpages) as [Hdir Hnorm].
  set (parentPath := parentDirOf database fs) in *.
  destruct (uniqueName_spec ("[db:" +:+ shortId (r_id database) +:+ "]")
              (default ∅ (dbNamesByParent !! parentPath)) (r_id database))
    as (name & Hname & _).
  rewrite Hname.
  destruct (uniqueName_plain _ _ _ _ _ (plain_dbName _ Hid) Hid Hname)
    as (Hplain & _).
  destruct (findUniquePath_fresh fs parentPath name Hnorm Hplain)
    as (dbPath & -> & Hfree & Hdb).
  destruct (mountInvariant_insert fs dbPath parentPath
              (DbPlaceholderEntry name dbPath parentPath (r_id database)
                 (databaseMeta database)))
    as (fs' & Hins & Hinv' & Hmono); try done.
  unfold addDbPlaceholder. rewrite Hins. simpl.
  eexists _, _. split; [done|]. split; [done|]. by apply Hmono.
Qed.

(* ----------------------------------------------------------------- *)
(** ** The whole rebuild *)

Lemma pagesInvariant_reset (fs : VirtualFs) (known : gmap string NotionRecordMeta) :
  pagesInvariant (set_notionPages known (reset fs)) ∅.
Proof.
  split; simpl.
  - apply treeInvariant_rootEntries.
  - intros p e. unfold rootEntries. rewrite !lookup_insert.
    destruct (decide ("/pages" = p)) as [<-|_];
      [intros _; right; apply normAbs_pages|].
    destruct (decide ("/" = p)) as [<-|_]; [by left|].
    by rewrite lookup_empty.
  - intros p e. unfold rootEntries. rewrite !lookup_insert.
    destruct (decide ("/pages" = p)) as [<-|_]; [done|].
    destruct (decide ("/" = p)) as [<-|_]; [done|].
    by rewrite lookup_empty.
  - intros id p. by rewrite lookup_empty.
Qed.

Lemma dirAt_pages_root : dirAt rootEntries "/pages".
Proof. eexists. split; [reflexivity|done]. Qed.

(** For pages with distinct ids, record ids without slash and a slug of
    slug characters, the rebuild returns a tree that satisfies the
    invariant. *)
Lemma rebuild_ok (slugify : string → string)
    (localeCompare : string → string → Z)
    (pages databases : list NotionRecordMeta) (fs : VirtualFs) :
  (∀ t, str_forallb slugChar (slugify t) = true) →
  NoDup (map r_id pages) →
  Forall (λ r, no_slash (r_id r)) pages →
  Forall (λ r, no_slash (r_id r)) databases →
  ∃ fs',
    rebuild slugify localeCompare pages databases fs = Done fs'
    ∧ mountInvariant fs'.
Proof.
  intros Hslug Hnd Hpages Hdbs. unfold rebuild.
  set (known := fold_left (λ m page, <[r_id page := page]> m) pages
                  (notionPages (reset fs))).
  set (fs0 := set_notionPages known (reset fs)).
  change (notionPages fs0) with known.
  destruct (fold_left (classifyPage known)
              (filter (λ page, eligiblePage page = true) pages) (∅, []))
    as [cbp roots] eqn:Hclass.
  assert (Hcls : classified pages known (cbp, roots)).
  { rewrite <- Hclass. apply classify_all.
    - split; simpl.
      + intros pid c. rewrite lookup_empty. simpl. intros H.
        by apply elem_of_nil in H.
      + intros r H. by apply elem_of_nil in H.
    - intros x Hx. by apply list_elem_of_filter in Hx as [_ Hx]. }
  destruct (forEachM_invariant
              (λ root st,
                 buildPageTree slugify localeCompare (S (length pages)) cbp root
                   "/pages" st)
              (λ st, pagesInvariant st.1 st.2 ∧ dirAt (entries st.1) "/pages")
              (sortByTitle localeCompare roots) (fs0, ∅))
    as ([fs1 names1] & -> & Hinv1 & Hpg1).
  { split; [apply pagesInvariant_reset|apply dirAt_pages_root]. }
  { intros root [fsr namesr] Hroot [Hinvr Hpgr]. simpl in *.
    apply sortByTitle_elem in Hroot.
    destruct (buildPageTree_ok slugify localeCompare pages known cbp roots
                Hslug Hnd Hpages Hcls (S (length pages)) root "/pages" fsr namesr [])
      as (fs' & names' & Hrun & Hinv' & Hmono).
    - by apply chain_root.
    - simpl. lia.
    - done.
    - done.
    - apply normAbs_pages.
    - exists (fs', names'). split; [done|]. split; [done|]. by apply Hmono. }
  simpl in Hinv1, Hpg1. simpl.
  destruct (forEachM_invariant addDatabase
              (λ st, mountInvariant st.1 ∧ dirAt (entries st.1) "/pages")
              databases (fs1, ∅))
    as ([fs2 names2] & -> & Hinv2 & _).
  { split; [by apply (pagesInvariant_mount _ names1)|done]. }
  { intros database [fsd namesd] Hdb [Hinvd Hpgd]. simpl in *.
    rewrite Forall_forall in Hdbs.
    destruct (addDatabase_ok database fsd namesd (Hdbs _ Hdb) Hinvd Hpgd)
      as (fs' & names' & Hrun & Hinv' & Hpg').
    exists (fs', names'). by split. }
  simpl. by exists fs2.
Qed.

(* ----------------------------------------------------------------- *)
(** ** The root filter returns *)

Lemma filterByRoot_step_spec (acc : gset string * bool)
    (item : NotionRecordMeta) :
  let acc' := filterByRoot_step acc item in
  acc.1 ⊆ acc'.1
  ∧ acc'.1 ⊆ {[idNoDash item]} ∪ acc.1
  ∧ (acc'.2 = false → acc'.1 = acc.1 ∧ acc.2 = false)
  ∧ (acc.2 = true → acc'.2 = true)
  ∧ (acc'.2 = true → acc.2 = true ∨ (idNoDash item ∈ acc'.1 ∧ idNoDash item ∉ acc.1)).
Proof.
  destruct acc as [inc ch]. unfold filterByRoot_step. simpl.
  assert (Hsame : inc ⊆ inc ∧ inc ⊆ {[idNoDash item]} ∪ inc
                  ∧ (ch = false → inc = inc ∧ ch = false)
                  ∧ (ch = true → ch = true)
                  ∧ (ch = true → ch = true
                                 ∨ (idNoDash item ∈ inc ∧ idNoDash item ∉ inc))).
  { split; [done|]. split; [set_solver|]. split; [done|]. split; [done|].
    intros ->. by left. }
  destruct (decide (idNoDash item ∈ inc)) as [Hin|Hout]; simpl; [exact Hsame|].
  destruct (parentPageNoDash item) as [p|]; simpl; [|exact Hsame].
  destruct (str_nonempty p && bool_decide (p ∈ inc)); simpl; [|exact Hsame].
  split; [set_solver|]. split; [done|]. split; [done|]. split; [done|].
  intros _. right. split; [set_solver|done].
Qed.

Lemma filterByRoot_fold_spec (items : list NotionRecordMeta)
    (acc : gset string * bool) :
  let acc' := fold_left filterByRoot_step items acc in
  acc.1 ⊆ acc'.1
  ∧ acc'.1 ⊆ idsOf items ∪ acc.1
  ∧ (acc'.2 = false → acc'.1 = acc.1 ∧ acc.2 = false)
  ∧ (acc.2 = true → acc'.2 = true)
  ∧ (acc'.2 = true →
     acc.2 = true ∨ ∃ x, x ∈ idsOf items ∧ x ∈ acc'.1 ∧ x ∉ acc.1).
Proof.
  revert acc. induction items as [|item items IH]; intros acc; simpl.
  - split; [done|]. split; [apply union_subseteq_r|]. split; [done|].
    split; [done|]. intros ->. by left.
  - pose proof (filterByRoot_step_spec acc item) as Hstep. simpl in Hstep.
    specialize (IH (filterByRoot_step acc item)). simpl in IH.
    destruct Hstep as (S1 & S2 & S3 & S4 & S5).
    destruct IH as (I1 & I2 & I3 & I4 & I5).
    unfold idsOf in *. simpl.
    split; [by transitivity (filterByRoot_step acc item).1|].
    split; [clear -S2 I2; set_solver|]. split; [|split].
    + intros Hf. destruct (I3 Hf) as [Heq Hf']. destruct (S3 Hf') as [Heq' ?].
      split; [congruence|done].
    + intros Ht. by apply I4, S4.
    + intros Ht. destruct (I5 Ht) as [Hmid|(x & Hx & Hx1 & Hx2)].
      * destruct (S5 Hmid) as [?|[Hy1 Hy2]]; [by left|].
        right. exists (idNoDash item).
        split; [apply elem_of_union; left; by apply elem_of_singleton|].
        split; [|done]. by apply I1.
      * right. exists x. split; [apply elem_of_union; by right|].
        split; [done|]. intros Hin. apply Hx2. by apply S1.
Qed.

Lemma size_idsOf (items : list NotionRecordMeta) :
  size (idsOf items) ≤ length items.
Proof.
  unfold idsOf. induction items as [|item items IH]; cbn [map length].
  - by rewrite list_to_set_nil, size_empty.
  - rewrite list_to_set_cons, size_union_alt, size_singleton.
    assert (size (list_to_set (map idNoDash items) ∖ {[idNoDash item]} : gset string)
            ≤ size (list_to_set (map idNoDash items) : gset string))
      by (apply subseteq_size, subseteq_difference_l; done).
    lia.
Qed.

(** Every round that changes something takes one more id of the list
    into [included], so the loop stops within as many rounds as there are
    records, plus the one that changes nothing. *)
Lemma filterByRoot_loop_total (items : list NotionRecordMeta) (fuel : nat)
    (included : gset string) :
  size (idsOf items ∖ included) < fuel →
  is_Some (filterByRoot_loop fuel items included).
Proof.
  revert included. induction fuel as [|fuel IH]; intros included Hsize; [lia|].
  simpl. unfold filterByRoot_pass.
  pose proof (filterByRoot_fold_spec items (included, false)) as Hspec.
  simpl in Hspec.
  destruct (fold_left filterByRoot_step items (included, false))
    as [included' changed]. simpl in Hspec.
  destruct Hspec as (H1 & H2 & H3 & _ & H5).
  destruct changed; [|by eexists].
  apply IH.
  destruct (H5 eq_refl) as [?|(x & Hx & Hx1 & Hx2)]; [done|].
  assert (idsOf items ∖ included' ⊂ idsOf items ∖ included) as Hlt.
  { split; [clear -H1; set_solver|]. intros Hsub.
    assert (x ∈ idsOf items ∖ included') as Hbad
      by (apply Hsub, elem_of_difference; by split).
    apply elem_of_difference in Hbad as [_ Hbad]. by apply Hbad. }
  apply subset_size in Hlt. lia.
Qed.

Lemma filterByRoot_total (records : list NotionRecordMeta)
    (rootPageId : option string) :
  ∃ kept,
    filterByRoot records rootPageId = Some kept ∧ kept `sublist_of` records.
Proof.
  unfold filterByRoot. destruct rootPageId as [root|]; [|by exists records].
  destruct (str_nonempty root); cbn [negb]; [|by exists records].
  destruct (filterByRoot_loop_total records (S (length records))
              {[remove_dashes root]}) as [included ->].
  { pose proof (size_idsOf records).
    assert (size (idsOf records ∖ {[remove_dashes root]})
            ≤ size (idsOf records)) by (apply subseteq_size; set_solver).
    lia. }
  eexists. split; [done|]. apply sublist_filter.
Qed.

(* ----------------------------------------------------------------- *)
(** ** The tree after a refresh *)

Lemma Forall_sublist {A : Type} (P : A → Prop) (l1 l2 : list A) :
  l1 `sublist_of` l2 → Forall P l2 → Forall P l1.
Proof.
  induction 1 as [|x l1 l2 Hsub IH|x l1 l2 Hsub IH]; intros Hall.
  - constructor.
  - apply Forall_cons in Hall as [Hx Hall]. constructor; [done|by apply IH].
  - apply Forall_cons in Hall as [_ Hall]. by apply IH.
Qed.

(** C3.  For records with distinct page ids (ids are opaque identifiers:
    no slash in them; the slug of a title is made of lower-case letters,
    digits and dashes), the rebuild of a refresh succeeds and leaves a
    tree in which every entry is stored under its own path (one entry per
    path), the parent path of every entry but the root is an existing
    directory that lists the entry among its children, and every child
    listed by a directory is an entry whose parent path is that
    directory.  The refresh marks the file system indexed and clears the
    promise. *)
Theorem refresh_tree_invariant (slugify : string → string)
    (localeCompare : string → string → Z) (fs : VirtualFs) (w : World) :
  (∀ t, str_forallb slugChar (slugify t) = true) →
  NoDup (map r_id (w_pages w)) →
  Forall (λ r, no_slash (r_id r)) (w_pages w) →
  Forall (λ r, no_slash (r_id r)) (w_databases w) →
  ∃ fs',
    refresh_settle slugify localeCompare fs w = Done fs'
    ∧ treeInvariant (entries fs')
    ∧ (∀ p e, entries fs' !! p = Some e → e_path e = p)
    ∧ (∀ p e, entries fs' !! p = Some e → p ≠ "/" →
         ∃ d, entries fs' !! e_parentPath e = Some d
              ∧ is_dir d = true ∧ p ∈ e_children d)
    ∧ (∀ q d c, entries fs' !! q = Some d → c ∈ e_children d →
         ∃ e, entries fs' !! c = Some e ∧ e_parentPath e = q)
    ∧ indexedAtLeastOnce fs' = true
    ∧ refreshPromise fs' = None.
Proof.
  intros Hslug Hnd Hpages Hdbs. unfold refresh_settle, listRecords_of.
  destruct (filterByRoot_total (w_pages w) (rootPageId fs))
    as (pages & -> & Hsubp).
  destruct (filterByRoot_total (w_databases w) (rootPageId fs))
    as (databases & -> & Hsubd).
  destruct (rebuild_ok slugify localeCompare pages databases fs Hslug)
    as (fs' & -> & Hinv).
  - apply (sublist_NoDup _ (map r_id (w_pages w))); [done|].
    by apply fmap_sublist.
  - by apply (Forall_sublist _ _ (w_pages w)).
  - by apply (Forall_sublist _ _ (w_databases w)).
  - simpl. eexists. split; [done|]. simpl.
    destruct (mi_tree _ Hinv) as [T1 T2 T3 T4].
    split; [by split|]. by repeat split.
Qed.

(* ----------------------------------------------------------------- *)
(** ** The tokenizer of the command line *)

Lemma str_push_app (current : string) (c : ascii) (rest : string) :
  str_push current c +:+ rest = current +:+ String c rest.
Proof. unfold str_push. by rewrite str_app_assoc. Qed.

Lemma str_nonempty_true (s : string) : str_nonempty s = true ↔ s ≠ "".
Proof. destruct s; simpl; split; congruence. Qed.

Lemma tokenize_loop_nonempty (input : string) (tokens : list string)
    (current : string) (quote : option Quote) (escaped : bool) :
  Forall (λ token, token ≠ "") tokens →
  Forall (λ token, token ≠ "")
    (tokenize_loop input tokens current quote escaped).
Proof.
  revert tokens current quote escaped.
  induction input as [|char rest IH]; intros tokens current quote escaped Hall.
  - simpl. destruct (str_nonempty _) eqn:E; [|done].
    apply Forall_app. split; [done|]. constructor; [|constructor].
    by apply str_nonempty_true.
  - simpl. destruct escaped; [by apply IH|].
    destruct (Ascii.eqb char backslash); [by apply IH|].
    destruct quote as [[|]|].
    + destruct (Ascii.eqb char singleQuote); by apply IH.
    + destruct (Ascii.eqb char doubleQuote); by apply IH.
    + destruct (Ascii.eqb char singleQuote); [by apply IH|].
      destruct (Ascii.eqb char doubleQuote); [by apply IH|].
      destruct (is_ws char); [|by apply IH].
      destruct (str_nonempty current) eqn:E; [|by apply IH].
      apply IH. apply Forall_app. split; [done|]. constructor; [|constructor].
      by apply str_nonempty_true.
Qed.

(** X1.  No token of a command line is empty, so no argument is: a
    quoted empty string leaves no argument.  The command of a parsed line
    is empty only when the line has no token at all, and then it has no
    argument either. *)
Theorem tokenize_nonempty (input : string) :
  Forall (λ token, token ≠ "") (tokenize input)
  ∧ Forall (λ arg, arg ≠ "") (args (parseCommandLine input))
  ∧ (command (parseCommandLine input) = "" →
     tokenize (trim input) = [] ∧ args (parseCommandLine input) = []).
Proof.
  assert (H : ∀ s, Forall (λ token, token ≠ "") (tokenize s))
    by (intros s; by apply tokenize_loop_nonempty).
  split; [apply H|]. unfold parseCommandLine. specialize (H (trim input)).
  destruct (tokenize (trim input)) as [|c rest] eqn:E; simpl.
  - split; [constructor|done].
  - inversion H; subst. split; [done|]. intros ->. done.
Qed.

Lemma plainChar_spec (c : ascii) :
  plainChar c = true →
  is_ws c = false ∧ Ascii.eqb c backslash = false
  ∧ Ascii.eqb c singleQuote = false ∧ Ascii.eqb c doubleQuote = false.
Proof.
  unfold plainChar. rewrite !andb_true_iff, !negb_true_iff. tauto.
Qed.

(** Outside quotes, a run of plain characters goes to [current]. *)
Lemma tokenize_loop_plain (word rest : string) (tokens : list string)
    (current : string) :
  str_forallb plainChar word = true →
  tokenize_loop (word +:+ rest) tokens current None false
  = tokenize_loop rest tokens (current +:+ word) None false.
Proof.
  revert current. induction word as [|c word IH]; intros current Hw.
  - by rewrite str_app_nil_r.
  - simpl in Hw. apply andb_true_iff in Hw as [Hc Hw].
    destruct (plainChar_spec c Hc) as (H1 & H2 & H3 & H4).
    rewrite str_app_cons. simpl. rewrite H1, H2, H3, H4.
    rewrite IH by done. by rewrite str_push_app.
Qed.

Lemma tokenize_loop_words (words tokens : list string) :
  words ≠ [] → Forall plainWord words →
  tokenize_loop (str_join " " words) tokens "" None false = tokens ++ words.
Proof.
  intros Hne Hall. revert tokens.
  induction Hall as [|word rest [Hw Hchars] Hrest IH]; intros tokens; [done|].
  destruct rest as [|next rest'].
  - cbn [str_join]. rewrite <- (str_app_nil_r word) at 1.
    rewrite tokenize_loop_plain by done.
    change ("" +:+ word) with word. simpl.
    apply str_nonempty_true in Hw. by rewrite Hw.
  - change (str_join " " (word :: next :: rest'))
      with (word +:+ " " +:+ str_join " " (next :: rest')).
    rewrite tokenize_loop_plain by done.
    change (" " +:+ str_join " " (next :: rest'))
      with (String " " (str_join " " (next :: rest'))).
    simpl tokenize_loop at 1.
    change ("" +:+ word) with word.
    apply str_nonempty_true in Hw. rewrite Hw.
    rewrite IH by done. by rewrite <- app_assoc.
Qed.

Lemma trimEnd_no_ws (s : string) :
  str_forallb (λ c, negb (is_ws c)) s = true → trimEnd s = s.
Proof.
  induction s as [|c s IH]; [done|]. simpl. intros H.
  apply andb_true_iff in H as [Hc Hs]. apply negb_true_iff in Hc.
  by rewrite Hc, IH.
Qed.

Lemma plainWord_no_ws (word : string) :
  plainWord word → str_forallb (λ c, negb (is_ws c)) word = true.
Proof.
  intros [_ H]. apply str_forallb_chars. intros c Hc.
  rewrite str_forallb_chars in H. specialize (H c Hc).
  apply plainChar_spec in H as [-> _]. done.
Qed.

Lemma trimEnd_words (words : list string) :
  Forall plainWord words → trimEnd (str_join " " words) = str_join " " words.
Proof.
  induction 1 as [|word rest Hw Hrest IH]; [done|].
  destruct rest as [|next rest'].
  - simpl. by apply trimEnd_no_ws, plainWord_no_ws.
  - change (str_join " " (word :: next :: rest'))
      with (word +:+ " " +:+ str_join " " (next :: rest')).
    rewrite <- str_app_assoc. rewrite trimEnd_app; rewrite IH; [done|].
    inversion Hrest as [|? ? [Hn _] _]; subst.
    destruct rest'; simpl; [by apply str_nonempty_true|].
    destruct next; [done|done].
Qed.

Lemma trimStart_words (words : list string) :
  Forall plainWord words → trimStart (str_join " " words) = str_join " " words.
Proof.
  intros Hall. destruct Hall as [|word rest Hw Hrest]; [done|].
  pose proof (plainWord_no_ws word Hw) as Hws. destruct Hw as [Hne _].
  destruct word as [|c word]; [done|]. simpl in Hws.
  apply andb_true_iff in Hws as [Hc _]. apply negb_true_iff in Hc.
  destruct rest as [|next rest'].
  - simpl. by rewrite Hc.
  - change (str_join " " (String c word :: next :: rest'))
      with (String c (word +:+ " " +:+ str_join " " (next :: rest'))).
    simpl. by rewrite Hc.
Qed.

(** X2.  Words that are not empty, of plain characters (ASCII, no white
    space, quote or backslash), written with one space between them are
    the tokens of the line: the first is the command and the others are
    the arguments, in order. *)
Theorem parseCommandLine_words (word : string) (words : list string) :
  Forall plainWord (word :: words) →
  tokenize (str_join " " (word :: words)) = word :: words
  ∧ parseCommandLine (str_join " " (word :: words))
    = {| command := word; args := words |}.
Proof.
  intros Hall.
  assert (Htok : tokenize (str_join " " (word :: words)) = word :: words)
    by (unfold tokenize; by rewrite tokenize_loop_words).
  split; [exact Htok|]. unfold parseCommandLine, trim.
  rewrite trimStart_words, trimEnd_words by done. by rewrite Htok.
Qed.

(** Inside quotes, everything but the closing quote and the backslash
    goes to [current]. *)
Lemma tokenize_loop_quoted (quote : Quote) (text rest : string)
    (tokens : list string) (current : string) :
  (match quote with QuoteSingle => singleQuote | QuoteDouble => doubleQuote end)
    ∉ chars text →
  backslash ∉ chars text →
  tokenize_loop (text +:+ rest) tokens current (Some quote) false
  = tokenize_loop rest tokens (current +:+ text) (Some quote) false.
Proof.
  revert current. induction text as [|c text IH]; intros current Hq Hb.
  - by rewrite str_app_nil_r.
  - simpl in Hq, Hb. apply not_elem_of_cons in Hq as [Hq Hq'].
    apply not_elem_of_cons in Hb as [Hb Hb'].
    rewrite str_app_cons. simpl.
    destruct (Ascii.eqb_spec c backslash) as [->|_]; [done|].
    destruct quote.
    + destruct (Ascii.eqb_spec c singleQuote) as [->|_]; [done|].
      rewrite IH by done. by rewrite str_push_app.
    + destruct (Ascii.eqb_spec c doubleQuote) as [->|_]; [done|].
      rewrite IH by done. by rewrite str_push_app.
Qed.

(** X3.  A text between two single or two double quotes, with no such
    quote and no backslash in it, is one token, white space and the other
    quote included; it is no token at all when the text is empty.  A
    missing closing quote is no error: the text up to the end of the line
    is the token. *)
Theorem tokenize_quoted (mark : ascii) (text : string) :
  mark = singleQuote ∨ mark = doubleQuote →
  mark ∉ chars text → backslash ∉ chars text →
  tokenize (String mark text +:+ String mark "")
  = (if str_nonempty text then [text] else [])
  ∧ tokenize (String mark text) = (if str_nonempty text then [text] else []).
Proof.
  intros Hmark Hq Hb. unfold tokenize. rewrite str_app_cons.
  assert (Hopen : ∀ rest,
    tokenize_loop (String mark (text +:+ rest)) [] "" None false
    = tokenize_loop rest [] text
        (Some (if Ascii.eqb mark singleQuote then QuoteSingle else QuoteDouble))
        false).
  { intros rest. destruct Hmark as [->| ->]; simpl;
      rewrite tokenize_loop_quoted by done; reflexivity. }
  split.
  - rewrite Hopen. destruct Hmark as [->| ->]; simpl; reflexivity.
  - rewrite <- (str_app_nil_r text) at 1. rewrite Hopen.
    destruct Hmark as [->| ->]; simpl; reflexivity.
Qed.

Lemma tokenize_loop_escaped (text rest : string) (tokens : list string)
    (current : string) (quote : option Quote) :
  tokenize_loop (escapeAll text +:+ rest) tokens current quote false
  = tokenize_loop rest tokens (current +:+ text) quote false.
Proof.
  revert current. induction text as [|c text IH]; intros current.
  - by rewrite str_app_nil_r.
  - cbn [escapeAll]. rewrite !str_app_cons.
    change (tokenize_loop
              (String backslash (String c (escapeAll text +:+ rest)))
              tokens current quote false)
      with (tokenize_loop (escapeAll text +:+ rest) tokens
              (str_push current c) quote false).
    rewrite IH. by rewrite str_push_app.
Qed.

Lemma tokenize_loop_escaped_words (words tokens : list string) :
  words ≠ [] → Forall (λ word, word ≠ "") words →
  tokenize_loop (str_join " " (map escapeAll words)) tokens "" None false
  = tokens ++ words.
Proof.
  intros Hne Hall. revert tokens.
  induction Hall as [|word rest Hw Hrest IH]; intros tokens; [done|].
  destruct rest as [|next rest'].
  - cbn [map str_join]. rewrite <- (str_app_nil_r (escapeAll word)).
    rewrite tokenize_loop_escaped.
    change ("" +:+ word) with word. simpl.
    apply str_nonempty_true in Hw. by rewrite Hw.
  - change (str_join " " (map escapeAll (word :: next :: rest')))
      with (escapeAll word +:+ " "
              +:+ str_join " " (map escapeAll (next :: rest'))).
    rewrite tokenize_loop_escaped.
    change (" " +:+ str_join " " (map escapeAll (next :: rest')))
      with (String " " (str_join " " (map escapeAll (next :: rest')))).
    simpl tokenize_loop at 1.
    change ("" +:+ word) with word.
    apply str_nonempty_true in Hw. rewrite Hw.
    rewrite IH by done. by rewrite <- app_assoc.
Qed.

(** X4.  A backslash makes the character behind it a part of the token,
    whatever it is: every list of non-empty ASCII texts is the token list
    of a line, the one with a backslash before every character and a
    space between the texts.  A backslash at the very end of a word of
    plain characters stands for itself. *)
Theorem tokenize_escaped (words : list string) (word : string) :
  Forall (λ word, word ≠ "" ∧ asciiText word) words →
  str_forallb plainChar word = true →
  tokenize (str_join " " (map escapeAll words)) = words
  ∧ tokenize (word +:+ String backslash "") = [str_push word backslash].
Proof.
  intros Hascii Hword.
  assert (Hall : Forall (λ word, word ≠ "") words)
    by (eapply Forall_impl; [exact Hascii|]; by intros w [H _]).
  split.
  - destruct words as [|w ws]; [done|].
    unfold tokenize. by rewrite tokenize_loop_escaped_words.
  - unfold tokenize. rewrite tokenize_loop_plain by done.
    change ("" +:+ word) with word. simpl.
    unfold str_push. destruct word; reflexivity.
Qed.

(* ----------------------------------------------------------------- *)
(** ** What a listing hides (filterEntries) *)

Lemma filterEntries_fold (options : ListRenderOptions) (listed : list FsEntry)
    (acc : FilteredEntries) :
  let r := fold_left (filterEntries_step options) listed acc in
  visible r
  = visible acc
      ++ filter (λ e, hiddenAsDatabase options e = false
                      ∧ hiddenAsIndex options e = false) listed
  ∧ hiddenDatabases r
    = hiddenDatabases acc
      + length (filter (λ e, hiddenAsDatabase options e = true) listed)
  ∧ hiddenIndex r
    = hiddenIndex acc
      + length (filter (λ e, hiddenAsIndex options e = true) listed).
Proof.
  revert acc. induction listed as [|entry rest IH]; intros acc; simpl.
  - rewrite app_nil_r. split; [done|]. split; lia.
  - specialize (IH (filterEntries_step options acc entry)). simpl in IH.
    destruct IH as (Hv & Hd & Hi). rewrite Hv, Hd, Hi. clear Hv Hd Hi.
    rewrite !filter_cons.
    unfold filterEntries_step, hiddenAsIndex, hiddenAsDatabase.
    destruct (negb (includeDatabases options) && is_db entry) eqn:Edb; simpl.
    + split; [done|]. split; lia.
    + destruct (negb (includeIndexFile options) && is_file entry
                && bool_decide (e_name entry = "index.md")) eqn:Eix; simpl.
      * split; [done|]. split; lia.
      * rewrite <- app_assoc. split; [done|]. split; lia.
Qed.

(** X5.  A filtered listing accounts for every entry: the visible entries
    are a sublist of the listing, in its order, and with the two counts of
    hidden entries they add up to the listing.  Only database
    placeholders and files named [index.md] are ever hidden: every
    directory and every other file is visible, and nothing is hidden when
    both options are set. *)
Theorem filterEntries_accounts (listed : list FsEntry)
    (options : ListRenderOptions) :
  let r := filterEntries listed options in
  visible r `sublist_of` listed
  ∧ length (visible r) + hiddenDatabases r + hiddenIndex r = length listed
  ∧ (∀ e, e ∈ listed → e ∉ visible r →
       is_db e = true ∨ (is_file e = true ∧ e_name e = "index.md"))
  ∧ (∀ e, e ∈ listed → is_dir e = true → e ∈ visible r)
  ∧ (includeDatabases options = true → hiddenDatabases r = 0)
  ∧ (includeIndexFile options = true → hiddenIndex r = 0)
  ∧ (includeDatabases options = true → includeIndexFile options = true →
     visible r = listed).
Proof.
  intros r.
  destruct (filterEntries_fold options listed
              {| visible := []; hiddenDatabases := 0; hiddenIndex := 0 |})
    as (Hv & Hd & Hi).
  fold (filterEntries listed options) in Hv, Hd, Hi. fold r in Hv, Hd, Hi.
  simpl in Hv, Hd, Hi.
  assert (Hshown : ∀ e, e ∈ listed →
            hiddenAsDatabase options e = false →
            hiddenAsIndex options e = false → e ∈ visible r).
  { intros e He H1 H2. rewrite Hv. apply list_elem_of_filter. by split. }
  split; [rewrite Hv; apply sublist_filter|]. split.
  { rewrite Hv, Hd, Hi. clear. unfold hiddenAsIndex, hiddenAsDatabase.
    induction listed as [|e rest IH]; [done|].
    rewrite !filter_cons.
    destruct (negb (includeDatabases options) && is_db e) eqn:E1; simpl;
      [simpl in IH; lia|].
    destruct (negb (includeIndexFile options) && is_file e
              && bool_decide (e_name e = "index.md")) eqn:E2; simpl;
      simpl in IH; lia. }
  split.
  { intros e He Hout.
    destruct (hiddenAsDatabase options e) eqn:E1.
    - left. unfold hiddenAsDatabase in E1.
      by apply andb_true_iff in E1 as [_ E1].
    - destruct (hiddenAsIndex options e) eqn:E2; [|destruct Hout; by apply Hshown].
      right. unfold hiddenAsIndex in E2. rewrite !andb_true_iff in E2.
      destruct E2 as [[_ Hf] Hn]. split; [done|]. by apply bool_decide_eq_true in Hn. }
  split.
  { intros e He Hdir. apply Hshown; [done|..];
      unfold hiddenAsIndex, hiddenAsDatabase; destruct e; try done;
      simpl; by rewrite ?andb_false_r. }
  split.
  { intros Hopt. rewrite Hd. unfold hiddenAsDatabase. rewrite Hopt. simpl.
    clear. induction listed as [|e rest IH]; [done|].
    rewrite filter_cons. by rewrite decide_False by done. }
  split.
  { intros Hopt. rewrite Hi. unfold hiddenAsIndex. rewrite Hopt. simpl.
    clear. induction listed as [|e rest IH]; [done|].
    rewrite filter_cons. rewrite decide_False; [done|].
    by rewrite andb_false_r. }
  intros H1 H2. rewrite Hv.
  clear -H1 H2. induction listed as [|e rest IH]; [done|].
  rewrite filter_cons. rewrite decide_True; [by rewrite IH|].
  unfold hiddenAsIndex, hiddenAsDatabase. rewrite H1, H2. simpl. done.
Qed.

(* ----------------------------------------------------------------- *)
(** ** Retries and batches of the gateway *)

(** X6.  [withRetry] calls the operation at least once and at most five
    times, and ends with what the last call did: the error thrown behind
    the loop is never raised.  Every call before the last threw a
    retryable error of the Notion client (rate limit, service unavailable,
    conflict); the run stops before the fifth call only when a call
    returns or throws anything else.  Before the second, third, fourth and
    fifth call it waits 250, 500, 1000 and 2000 ms, so 3750 ms at most. *)
Theorem withRetry_bounded {T : Type} (opName : string)
    (operation : nat → Outcome T) :
  let r := withRetry opName operation in
  1 ≤ run_calls r ≤ 5
  ∧ run_end r = EndedBy (operation (run_calls r))
  ∧ (∀ k, 1 ≤ k < run_calls r →
       ∃ code, operation k = ThrownNotionClientError code
               ∧ retryable code = true)
  ∧ (run_calls r < 5 →
     ∀ code, operation (run_calls r) = ThrownNotionClientError code →
       retryable code = false)
  ∧ run_waits r = map (λ k, 250 * 2 ^ (k - 1)) (seq 1 (run_calls r - 1))
  ∧ list_sum (run_waits r) ≤ 3750.
Proof.
  unfold withRetry, maxAttempts. cbn -[Nat.mul Nat.pow].
  repeat
    match goal with
    | |- context [match operation ?a with _ => _ end] =>
        let c := fresh "c" in
        destruct (operation a) as [?|c|?] eqn:?; cbn -[Nat.mul Nat.pow];
          [| destruct (retryable c) eqn:?; cbn -[Nat.mul Nat.pow] |]
    end.
  all: split; [lia|]; split; [congruence|]; split;
    [intros k Hk;
     destruct k as [|[|[|[|[|k]]]]]; try lia; eauto|];
    split; [intros Hlt code Hcode; try lia; congruence|];
    split; [reflexivity|apply Nat.leb_le; vm_compute; reflexivity].
Qed.

Lemma appendBatches_loop_spec (blocks : list Block) (fuel i : nat) :
  length blocks - i ≤ fuel →
  concat (appendBatches_loop fuel i blocks) = drop i blocks
  ∧ Forall (λ batch, 1 ≤ length batch ≤ batchSize)
      (appendBatches_loop fuel i blocks)
  ∧ length (appendBatches_loop fuel i blocks)
    = (length blocks - i + (batchSize - 1)) / batchSize.
Proof.
  revert i. induction fuel as [|fuel IH]; intros i Hfuel.
  - cbn [appendBatches_loop concat length]. split; [|split; [constructor|]].
    + symmetry. apply drop_ge. lia.
    + replace (length blocks - i) with 0 by lia. reflexivity.
  - cbn [appendBatches_loop].
    destruct (Nat.ltb_spec i (length blocks)) as [Hlt|Hge].
    + destruct (IH (i + batchSize)) as (Hcat & Hall & Hlen);
        [unfold batchSize; lia|].
      cbn [concat length]. rewrite Hcat, Hlen. split; [|split].
      * rewrite <- drop_drop. apply take_drop.
      * constructor; [|done]. rewrite length_take, length_drop.
        unfold batchSize. lia.
      * unfold batchSize.
        replace (length blocks - i + (100 - 1))
          with (length blocks - i - 1 + 1 * 100) by lia.
        rewrite Nat.div_add by lia.
        destruct (Nat.le_gt_cases (length blocks - i) 100) as [Hs|Hb].
        -- replace (length blocks - (i + 100)) with 0 by lia.
           rewrite (Nat.div_small (length blocks - i - 1)) by lia.
           reflexivity.
        -- replace (length blocks - (i + 100) + (100 - 1))
             with (length blocks - i - 1) by lia.
           lia.
    + cbn [concat length]. split; [|split; [constructor|]].
      * symmetry. apply drop_ge. lia.
      * replace (length blocks - i) with 0 by lia. reflexivity.
Qed.

(** X7.  The batches that [replacePageMarkdown] appends are the encoded
    blocks, cut in order into runs of at most 100: put together again
    they are the block list, no batch is empty or longer than 100, and
    there are as many as the blocks need (none for no block). *)
Theorem appendBatches_partition (blocks : list Block) :
  concat (appendBatches blocks) = blocks
  ∧ Forall (λ batch, 1 ≤ length batch ≤ 100) (appendBatches blocks)
  ∧ length (appendBatches blocks) = (length blocks + 99) / 100.
Proof.
  destruct (appendBatches_loop_spec blocks (length blocks) 0) as (H1 & H2 & H3);
    [lia|].
  split; [exact H1|]. split; [exact H2|].
  unfold appendBatches. rewrite H3. unfold batchSize.
  by rewrite Nat.sub_0_r.
Qed.

(* ----------------------------------------------------------------- *)
(** ** The commands of the edit session (handleEditLine) *)

Lemma length_trimStart (s : string) :
  String.length (trimStart s) ≤ String.length s.
Proof.
  induction s as [|c s IH]; simpl; [done|]. destruct (is_ws c); simpl; lia.
Qed.

Lemma length_trimEnd (s : string) :
  String.length (trimEnd s) ≤ String.length s.
Proof.
  induction s as [|c s IH]; simpl; [done|].
  destruct (is_ws c && negb (str_nonempty (trimEnd s))); simpl; lia.
Qed.

(** A text that [trim] leaves alone starts with a character that is not
    white space, and [trimEnd] leaves it alone. *)
Lemma trim_fixed (text : string) :
  trim text = text → text ≠ "" →
  trimEnd text = text
  ∧ ∃ c rest, text = String c rest ∧ is_ws c = false.
Proof.
  intros Htrim Hne. split.
  - rewrite <- Htrim at 1. unfold trim. rewrite trimEnd_idemp. exact Htrim.
  - destruct text as [|c rest]; [done|]. exists c, rest. split; [done|].
    destruct (is_ws c) eqn:Hc; [|done]. exfalso.
    assert (Hlen : String.length (trim (String c rest)) ≤ String.length rest).
    { unfold trim. simpl trimStart. rewrite Hc.
      etransitivity; [apply length_trimEnd|apply length_trimStart]. }
    rewrite Htrim in Hlen. simpl in Hlen. lia.
Qed.

Lemma span_while_app (p : ascii → bool) (a b : string) :
  str_forallb p a = true →
  match b with String c _ => p c = false | "" => True end →
  span_while p (a +:+ b) = (a, b).
Proof.
  intros Ha Hb. induction a as [|x a IH].
  - change ("" +:+ b) with b. destruct b as [|c b]; [done|]. simpl. by rewrite Hb.
  - simpl in Ha. apply andb_true_iff in Ha as [Hx Ha].
    rewrite str_app_cons. simpl. rewrite Hx, IH by done. done.
Qed.

Lemma nat_to_string_digits (n : nat) :
  str_forallb is_digit (nat_to_string n) = true.
Proof. apply digits_of_uint. Qed.

Lemma numberOf_nat_to_string (n : nat) : numberOf (nat_to_string n) = n.
Proof.
  unfold numberOf, nat_to_string. rewrite NilEmpty.usu. apply Unsigned.of_to.
Qed.

Lemma nat_to_string_nonempty (n : nat) : str_nonempty (nat_to_string n) = true.
Proof.
  unfold nat_to_string. destruct n; [done|].
  pose proof (Unsigned.of_to (S n)) as H.
  destruct (Nat.to_uint (S n)) eqn:E; try done.
Qed.

Lemma trimEnd_digits (n : nat) : trimEnd (nat_to_string n) = nat_to_string n.
Proof.
  apply trimEnd_no_ws. apply str_forallb_chars. intros c Hc.
  pose proof (nat_to_string_digits n) as Hd. rewrite str_forallb_chars in Hd.
  specialize (Hd c Hc). unfold is_digit in Hd. unfold is_ws.
  apply andb_true_iff in Hd as [H1 H2].
  apply N.leb_le in H1. apply N.leb_le in H2.
  apply negb_true_iff. apply orb_false_iff. split.
  - apply andb_false_iff. right. apply N.leb_gt. lia.
  - apply N.eqb_neq. lia.
Qed.

Lemma digit_not_ws (c : ascii) : is_digit c = true → is_ws c = false.
Proof.
  unfold is_digit, is_ws. intros Hd.
  apply andb_true_iff in Hd as [H1 H2].
  apply N.leb_le in H1. apply N.leb_le in H2.
  apply orb_false_iff. split.
  - apply andb_false_iff. right. apply N.leb_gt. lia.
  - apply N.eqb_neq. lia.
Qed.

Lemma span_ws_digits (n : nat) (rest : string) :
  span_while is_ws (" " +:+ nat_to_string n +:+ rest)
  = (" ", nat_to_string n +:+ rest).
Proof.
  rewrite (span_while_app is_ws " "); [done|done|].
  pose proof (nat_to_string_digits n) as Hd.
  pose proof (nat_to_string_nonempty n) as Hn.
  destruct (nat_to_string n) as [|c ds]; [done|].
  rewrite str_app_cons. simpl in Hd. apply andb_true_iff in Hd as [Hc _].
  by apply digit_not_ws.
Qed.

Lemma spliceOne_take_drop {A : Type} (index : nat) (l : list A) :
  spliceOne index l = take index l ++ drop (S index) l.
Proof.
  revert index. induction l as [|x l IH]; intros [|index]; simpl; try done.
  by rewrite IH.
Qed.

(** X8.  In an edit session, [:set n text] with [n] a line of the buffer
    (counted from 1) and [text] a clean text (ASCII, not empty, on one
    line, no white space at its ends) puts [text] in the place of line
    [n] and changes nothing else: the buffer keeps its length and its
    other lines, the file system and the workspace are not touched,
    nothing is printed. *)
Theorem handleEditLine_set (sh : ShellSession) (fs : VirtualFs) (w : World)
    (es : EditState) (n : nat) (text : string) :
  editState sh = Some es →
  1 ≤ n ≤ length (es_buffer es) →
  cleanText text →
  handleEditLine (":set " +:+ nat_to_string n +:+ " " +:+ text) sh fs w
  = (withBuffer es (<[n - 1 := text]> (es_buffer es)) sh, fs, w, Done ())
  ∧ length (<[n - 1 := text]> (es_buffer es)) = length (es_buffer es)
  ∧ <[n - 1 := text]> (es_buffer es) !! (n - 1) = Some text
  ∧ ∀ i, i ≠ n - 1 →
      <[n - 1 := text]> (es_buffer es) !! i = es_buffer es !! i.
Proof.
  intros Hes Hn (_ & Hne & Htrim & Hline). unfold oneLine in Hline.
  destruct (trim_fixed text Htrim Hne) as (Hend & c & rest & Htext & Hc).
  split; [|split; [apply length_insert|split;
    [apply list_lookup_insert_eq; lia|
     intros i Hi; by apply list_lookup_insert_ne]]].
  unfold handleEditLine. rewrite Hes.
  set (line := ":set " +:+ nat_to_string n +:+ " " +:+ text).
  assert (Htrimmed : trim line = line).
  { unfold trim, line.
    change (trimStart (":set " +:+ nat_to_string n +:+ " " +:+ text))
      with (":set " +:+ nat_to_string n +:+ " " +:+ text).
    rewrite <- !str_app_assoc. rewrite trimEnd_app; rewrite Hend; [done|].
    by apply str_nonempty_true. }
  rewrite Htrimmed.
  rewrite !decide_False by (unfold line; discriminate).
  change (startsWith ":set " line) with true. cbn iota.
  assert (Hmatch : match_set line = Some (nat_to_string n, text)).
  { unfold match_set, line.
    change (strip_prefix ":set" (":set " +:+ nat_to_string n +:+ " " +:+ text))
      with (Some (" " +:+ nat_to_string n +:+ " " +:+ text)).
    cbn iota. rewrite span_ws_digits.
    rewrite (span_while_app is_digit (nat_to_string n) (" " +:+ text));
      [|apply nat_to_string_digits|done].
    rewrite nat_to_string_nonempty. cbn [str_nonempty andb].
    unfold after_spaces.
    rewrite (span_while_app is_ws " " text); [|done|by rewrite Htext].
    cbn [str_nonempty andb]. by rewrite Hline. }
  rewrite Hmatch. rewrite numberOf_nat_to_string.
  destruct (Nat.eqb_spec n 0) as [->|_]; [lia|].
  destruct (Nat.ltb_spec (length (es_buffer es)) n) as [?|_]; [lia|].
  reflexivity.
Qed.

(** X9.  In an edit session, [:del n] with [n] a line of the buffer
    removes that line and nothing else: the lines before it stay, the
    lines behind it move up by one, and the file system and the workspace
    are not touched. *)
Theorem handleEditLine_del (sh : ShellSession) (fs : VirtualFs) (w : World)
    (es : EditState) (n : nat) :
  editState sh = Some es →
  1 ≤ n ≤ length (es_buffer es) →
  handleEditLine (":del " +:+ nat_to_string n) sh fs w
  = (withBuffer es (take (n - 1) (es_buffer es) ++ drop n (es_buffer es)) sh,
     fs, w, Done ())
  ∧ length (take (n - 1) (es_buffer es) ++ drop n (es_buffer es))
    = length (es_buffer es) - 1.
Proof.
  intros Hes Hn. split;
    [|rewrite length_app, length_take, length_drop; lia].
  unfold handleEditLine. rewrite Hes.
  set (line := ":del " +:+ nat_to_string n).
  assert (Htrimmed : trim line = line).
  { unfold trim, line.
    change (trimStart (":del " +:+ nat_to_string n))
      with (":del " +:+ nat_to_string n).
    rewrite trimEnd_app; rewrite trimEnd_digits; [done|].
    apply nat_to_string_nonempty. }
  rewrite Htrimmed.
  rewrite !decide_False by (unfold line; discriminate).
  change (startsWith ":set " line) with false.
  change (startsWith ":del " line) with true. cbn iota.
  assert (Hmatch : match_del line = Some (nat_to_string n)).
  { unfold match_del, line.
    change (strip_prefix ":del" (":del " +:+ nat_to_string n))
      with (Some (" " +:+ nat_to_string n)).
    cbn iota. rewrite <- (str_app_nil_r (nat_to_string n)) at 1.
    rewrite span_ws_digits. rewrite str_app_nil_r.
    rewrite <- (str_app_nil_r (nat_to_string n)) at 1.
    rewrite (span_while_app is_digit (nat_to_string n) "");
      [|apply nat_to_string_digits|done].
    by rewrite nat_to_string_nonempty. }
  rewrite Hmatch. rewrite numberOf_nat_to_string.
  destruct (Nat.eqb_spec n 0) as [->|_]; [lia|].
  destruct (Nat.ltb_spec (length (es_buffer es)) n) as [?|_]; [lia|].
  cbn [orb]. rewrite spliceOne_take_drop.
  replace (S (n - 1)) with n by lia. reflexivity.
Qed.

(** X10.  A line number [n] that is 0 or beyond the end of the buffer
    makes [:set n text], with [text] a clean text (ASCII, not empty, on
    one line, no white space at its ends), and [:del n] throw
    [Line out of range: n]; the session, its buffer, the file system and
    the workspace stay as they were.  On an empty buffer every line
    number is out of range. *)
Theorem handleEditLine_out_of_range (sh : ShellSession) (fs : VirtualFs)
    (w : World) (es : EditState) (n : nat) (text : string) :
  editState sh = Some es →
  n = 0 ∨ length (es_buffer es) < n →
  cleanText text →
  handleEditLine (":set " +:+ nat_to_string n +:+ " " +:+ text) sh fs w
  = (sh, fs, w, Throw ("Line out of range: " +:+ nat_to_string n))
  ∧ handleEditLine (":del " +:+ nat_to_string n) sh fs w
    = (sh, fs, w, Throw ("Line out of range: " +:+ nat_to_string n)).
Proof.
  intros Hes Hn (_ & Hne & Htrim & Hline). unfold oneLine in Hline.
  destruct (trim_fixed text Htrim Hne) as (Hend & c & rest & Htext & Hc).
  assert (Hrange : (n =? 0) || (length (es_buffer es) <? n) = true).
  { apply orb_true_iff. destruct Hn as [->|Hn]; [by left|].
    right. by apply Nat.ltb_lt. }
  split.
  - unfold handleEditLine. rewrite Hes.
    set (line := ":set " +:+ nat_to_string n +:+ " " +:+ text).
    assert (Htrimmed : trim line = line).
    { unfold trim, line.
      change (trimStart (":set " +:+ nat_to_string n +:+ " " +:+ text))
        with (":set " +:+ nat_to_string n +:+ " " +:+ text).
      rewrite <- !str_app_assoc. rewrite trimEnd_app; rewrite Hend; [done|].
      by apply str_nonempty_true. }
    rewrite Htrimmed.
    rewrite !decide_False by (unfold line; discriminate).
    change (startsWith ":set " line) with true. cbn iota.
    assert (Hmatch : match_set line = Some (nat_to_string n, text)).
    { unfold match_set, line.
      change (strip_prefix ":set" (":set " +:+ nat_to_string n +:+ " " +:+ text))
        with (Some (" " +:+ nat_to_string n +:+ " " +:+ text)).
      cbn iota. rewrite span_ws_digits.
      rewrite (span_while_app is_digit (nat_to_string n) (" " +:+ text));
        [|apply nat_to_string_digits|done].
      rewrite nat_to_string_nonempty. cbn [str_nonempty andb].
      unfold after_spaces.
      rewrite (span_while_app is_ws " " text); [|done|by rewrite Htext].
      cbn [str_nonempty andb]. by rewrite Hline. }
    rewrite Hmatch. rewrite numberOf_nat_to_string. by rewrite Hrange.
  - unfold handleEditLine. rewrite Hes.
    set (line := ":del " +:+ nat_to_string n).
    assert (Htrimmed : trim line = line).
    { unfold trim, line.
      change (trimStart (":del " +:+ nat_to_string n))
        with (":del " +:+ nat_to_string n).
      rewrite trimEnd_app; rewrite trimEnd_digits; [done|].
      apply nat_to_string_nonempty. }
    rewrite Htrimmed.
    rewrite !decide_False by (unfold line; discriminate).
    change (startsWith ":set " line) with false.
    change (startsWith ":del " line) with true. cbn iota.
    assert (Hmatch : match_del line = Some (nat_to_string n)).
    { unfold match_del, line.
      change (strip_prefix ":del" (":del " +:+ nat_to_string n))
        with (Some (" " +:+ nat_to_string n)).
      cbn iota. rewrite <- (str_app_nil_r (nat_to_string n)) at 1.
      rewrite span_ws_digits. rewrite str_app_nil_r.
      rewrite <- (str_app_nil_r (nat_to_string n)) at 1.
      rewrite (span_while_app is_digit (nat_to_string n) "");
        [|apply nat_to_string_digits|done].
      by rewrite nat_to_string_nonempty. }
    rewrite Hmatch. rewrite numberOf_nat_to_string. by rewrite Hrange.
Qed.

Lemma fold_session {A : Type} (g : ShellSession → A → ShellSession)
    (items : list A) (sh : ShellSession) :
  (∀ sh item, cwd (g sh item) = cwd sh ∧ editState (g sh item) = editState sh) →
  cwd (fold_left g items sh) = cwd sh
  ∧ editState (fold_left g items sh) = editState sh.
Proof.
  intros Hg. revert sh. induction items as [|item items IH]; intros sh; simpl;
    [done|].
  destruct (IH (g sh item)) as [H1 H2]. destruct (Hg sh item) as [H3 H4].
  split; congruence.
Qed.

(** X11.  In an edit session only [:wq] reaches the file system and the
    workspace: every other line of ASCII text leaves both as they are (no
    gateway call), keeps the working directory, and either ends the
    session ([:q!]) or leaves it editing the same path. *)
Theorem handleEditLine_local (line : string) (sh : ShellSession)
    (fs : VirtualFs) (w : World) (es : EditState) :
  editState sh = Some es →
  asciiText line →
  trim line ≠ ":wq" →
  ∃ sh' outcome,
    handleEditLine line sh fs w = (sh', fs, w, outcome)
    ∧ cwd sh' = cwd sh
    ∧ ((trim line = ":q!" ∧ editState sh' = None)
       ∨ (trim line ≠ ":q!"
          ∧ ∃ buffer,
              editState sh'
              = Some {| es_path := es_path es; es_buffer := buffer |})).
Proof.
  intros Hes _ Hwq. unfold handleEditLine. rewrite Hes.
  assert (Hsame : editState sh
                  = Some {| es_path := es_path es; es_buffer := es_buffer es |})
    by (rewrite Hes; by destruct es).
  destruct (decide (trim line = ":q!")) as [Hq|Hq].
  { eexists _, _. split; [reflexivity|]. split; [done|]. by left. }
  rewrite decide_False by done.
  destruct (decide (trim line = ":p")) as [Hp|Hp].
  { eexists _, _. split; [reflexivity|].
    destruct (es_buffer es) as [|l ls] eqn:Hbuf.
    - split; [done|]. right. split; [done|]. by exists []. 
    - match goal with
      | |- context [fold_left ?g ?l ?s] =>
          destruct (fold_session g l s) as [H1 H2]; [by intros sh0 [i text]|]
      end.
      split; [exact H1|]. right. split; [done|].
      exists (l :: ls). rewrite H2. exact Hsame. }
  destruct (decide (trim line = ":clear")) as [Hc|Hc].
  { eexists _, _. split; [reflexivity|]. split; [done|]. right.
    split; [done|]. by eexists. }
  destruct (startsWith ":set " (trim line)).
  { destruct (match_set (trim line)) as [[digits text]|].
    - destruct ((numberOf digits =? 0)
                || (length (es_buffer es) <? numberOf digits)).
      + eexists _, _. split; [reflexivity|]. split; [done|]. right.
        split; [done|]. by eexists.
      + eexists _, _. split; [reflexivity|]. split; [done|]. right.
        split; [done|]. by eexists.
    - eexists _, _. split; [reflexivity|]. split; [done|]. right.
      split; [done|]. by eexists. }
  destruct (startsWith ":del " (trim line)).
  { destruct (match_del (trim line)) as [digits|].
    - destruct ((numberOf digits =? 0)
                || (length (es_buffer es) <? numberOf digits)).
      + eexists _, _. split; [reflexivity|]. split; [done|]. right.
        split; [done|]. by eexists.
      + eexists _, _. split; [reflexivity|]. split; [done|]. right.
        split; [done|]. by eexists.
    - eexists _, _. split; [reflexivity|]. split; [done|]. right.
      split; [done|]. by eexists. }
  destruct (startsWith ":append " (trim line)).
  { destruct (strip_prefix ":append " (trim line)).
    - eexists _, _. split; [reflexivity|]. split; [done|]. right.
      split; [done|]. by eexists.
    - eexists _, _. split; [reflexivity|]. split; [done|]. right.
      split; [done|]. by eexists. }
  eexists _, _. split; [reflexivity|]. split; [done|]. right.
  split; [done|]. by eexists.
Qed.

(** X12.  In an edit session a line of ASCII text whose first character
    that is not white space is not a colon (a blank line among them) is
    appended to the buffer as it was typed, white space at both ends
    included. *)
Theorem handleEditLine_text (line : string) (sh : ShellSession)
    (fs : VirtualFs) (w : World) (es : EditState) :
  editState sh = Some es →
  asciiText line →
  startsWith ":" (trim line) = false →
  handleEditLine line sh fs w
  = (withBuffer es (es_buffer es ++ [line]) sh, fs, w, Done ()).
Proof.
  intros Hes _ Hcolon. unfold handleEditLine. rewrite Hes.
  destruct (trim line) as [|c rest] eqn:Htrim.
  - rewrite !decide_False by discriminate. reflexivity.
  - assert (Hc : Ascii.eqb ":" c = false).
    { unfold startsWith in Hcolon. cbn [strip_prefix] in Hcolon.
      by destruct (Ascii.eqb ":" c). }
    rewrite !decide_False
      by (intros Heq; injection Heq as -> _; discriminate Hc).
    unfold startsWith. cbn [strip_prefix]. rewrite Hc. reflexivity.
Qed.

(* ----------------------------------------------------------------- *)
(** ** Block boundaries and the block patterns of the encoder *)

Lemma span_while_eq (p : ascii → bool) (s : string) :
  s = (span_while p s).1 +:+ (span_while p s).2.
Proof.
  induction s as [|c s IH]; [done|]. simpl.
  destruct (p c); [|done].
  destruct (span_while p s) as [a b]. simpl in *.
  rewrite str_app_cons. by rewrite <- IH.
Qed.

Lemma span_while_head (p : ascii → bool) (s : string) :
  str_nonempty (span_while p s).1
  = match s with String c _ => p c | "" => false end.
Proof.
  destruct s as [|c s]; [done|]. simpl.
  destruct (p c); [|done]. by destruct (span_while p s).
Qed.

Lemma oneLine_app (a b : string) : oneLine (a +:+ b) ↔ oneLine a ∧ oneLine b.
Proof.
  unfold oneLine. induction a as [|c a IH].
  - change ("" +:+ b) with b. simpl. tauto.
  - rewrite str_app_cons. simpl. rewrite !andb_true_iff, IH. tauto.
Qed.

Lemma oneLine_span_rest (p : ascii → bool) (s : string) :
  oneLine s → oneLine (span_while p s).2.
Proof.
  intros H. rewrite (span_while_eq p s) in H. by apply oneLine_app in H as [_ H].
Qed.

Lemma strip_prefix_eq (p s r : string) :
  strip_prefix p s = Some r → s = p +:+ r.
Proof.
  revert s. induction p as [|a p IH]; intros s H.
  - simpl in H. by injection H as ->.
  - destruct s as [|b s]; [discriminate H|]. cbn [strip_prefix] in H.
    destruct (Ascii.eqb_spec a b) as [->|_]; [|discriminate H].
    rewrite str_app_cons. f_equal. by apply IH.
Qed.

Lemma oneLine_tail (c : ascii) (s : string) : oneLine (String c s) → oneLine s.
Proof. unfold oneLine. simpl. rewrite andb_true_iff. tauto. Qed.

(** On the rest of a line, white space and then anything up to the end
    is matched when the rest starts with white space. *)
Lemma after_spaces_oneLine (r : string) :
  oneLine r →
  isSome (after_spaces r)
  = match r with String w _ => is_ws w | "" => false end.
Proof.
  intros Hr. unfold after_spaces.
  pose proof (span_while_head is_ws r) as Hhead.
  pose proof (oneLine_span_rest is_ws r Hr) as Hrest.
  destruct (span_while is_ws r) as [w r']. simpl in Hhead, Hrest.
  unfold oneLine in Hrest. rewrite Hrest, andb_true_r.
  rewrite <- Hhead. by destruct (str_nonempty w).
Qed.

Lemma isBlockBoundary_orb (line : string) :
  oneLine line →
  isBlockBoundary line
  = isSome (match_heading line) || isSome (match_todo line)
    || isSome (match_bullet line) || isSome (match_number line)
    || isSome (match_quote line) || isSome (match_codeStart line)
    || is_divider line.
Proof.
  intros Hline. unfold isBlockBoundary. f_equal. f_equal; [f_equal; [f_equal;
    [f_equal; [f_equal|]|]|]|].
  - unfold match_heading.
    pose proof (oneLine_span_rest (λ c, Ascii.eqb c "#") line Hline) as Hr.
    destruct (span_while (λ c, Ascii.eqb c "#") line) as [hs r]. simpl in Hr.
    destruct (decide (1 ≤ String.length hs ≤ 3)) as [[H1 H3]|Hno].
    + apply Nat.leb_le in H1 as ->. apply Nat.leb_le in H3 as ->.
      rewrite <- (after_spaces_oneLine r Hr).
      by destruct (after_spaces r).
    + destruct (Nat.leb_spec 1 (String.length hs)); [|done].
      destruct (Nat.leb_spec (String.length hs) 3); [|done].
      destruct Hno. lia.
  - unfold match_todo.
    destruct line as [|d [|x [|l [|m [|r rest]]]]]; try reflexivity.
    assert (Hrest : oneLine rest) by (by do 5 apply oneLine_tail in Hline).
    pose proof (after_spaces_oneLine rest Hrest) as Hafter.
    destruct (Ascii.eqb d "-" && is_ws x && Ascii.eqb l "[" && Ascii.eqb r "]"
              && (Ascii.eqb m " " || Ascii.eqb m "x" || Ascii.eqb m "X")) eqn:E.
    + destruct rest as [|w' rest'].
      * reflexivity.
      * cbn [andb]. rewrite <- Hafter.
        by destruct (after_spaces (String w' rest')).
    + destruct rest as [|w' rest']; reflexivity.
  - unfold match_bullet. destruct line as [|d rest]; [done|].
    assert (Hrest : oneLine rest) by (by apply oneLine_tail in Hline).
    pose proof (after_spaces_oneLine rest Hrest) as Hafter.
    destruct (Ascii.eqb d "-").
    + rewrite Hafter. by destruct rest.
    + by destruct rest.
  - unfold match_number.
    pose proof (oneLine_span_rest is_digit line Hline) as Hr.
    destruct (span_while is_digit line) as [ds r]. simpl in Hr.
    destruct (str_nonempty ds); [|done]. cbn [andb].
    destruct r as [|dot rest]; [done|].
    assert (Hrest : oneLine rest) by (by apply oneLine_tail in Hr).
    pose proof (after_spaces_oneLine rest Hrest) as Hafter.
    destruct (Ascii.eqb dot ".").
    + rewrite Hafter. by destruct rest.
    + by destruct rest.
  - unfold match_quote, startsWith. destruct line as [|g rest]; [done|].
    cbn [strip_prefix].
    assert (Hrest : oneLine rest) by (by apply oneLine_tail in Hline).
    destruct (Ascii.eqb_spec ">" g) as [<-|Hg].
    + change (Ascii.eqb ">" ">") with true. cbn iota.
      destruct rest as [|x rest'].
      * reflexivity.
      * destruct (is_ws x).
        -- apply oneLine_tail in Hrest. unfold oneLine in Hrest.
           by rewrite Hrest.
        -- unfold oneLine in Hrest. by rewrite Hrest.
    + destruct (Ascii.eqb_spec g ">") as [->|_]; [done|]. reflexivity.
  - unfold match_codeStart, startsWith.
    destruct (strip_prefix "```" line) as [r|] eqn:E; [|done].
    assert (Hr : oneLine r).
    { apply strip_prefix_eq in E. rewrite E in Hline.
      by apply oneLine_app in Hline as [_ Hline]. }
    unfold oneLine in Hr. by rewrite Hr.
Qed.

(** X13.  On a line of ASCII text without line terminator,
    [isBlockBoundary] says yes exactly when one of the block patterns of the encoder matches the
    line (heading, to-do, bullet, numbered item, quote, code fence) or
    the line is a divider: a paragraph stops before exactly the lines
    that start a block of another kind. *)
Theorem isBlockBoundary_matchers (line : string) :
  asciiText line → oneLine line →
  isBlockBoundary line = true
  ↔ (is_Some (match_heading line) ∨ is_Some (match_todo line)
     ∨ is_Some (match_bullet line) ∨ is_Some (match_number line)
     ∨ is_Some (match_quote line) ∨ is_Some (match_codeStart line)
     ∨ is_divider line = true).
Proof.
  intros _ Hline. rewrite (isBlockBoundary_orb line Hline).
  rewrite !orb_true_iff.
  assert (Hs : ∀ (A : Type) (o : option A), isSome o = true ↔ is_Some o).
  { intros A [a|]; simpl; split; intros H; try done; try (by eexists);
      try (by destruct H). }
  rewrite !Hs. tauto.
Qed.

(* ----------------------------------------------------------------- *)
(** ** What the encoder builds *)

(** One round of the main loop of [markdownToNotionBlocks]. *)
Lemma encodeLines_cons (raw : string) (rest : list string) :
  encodeLines (raw :: rest)
  = let line := trimEnd raw in
    let trimmed := trim line in
    if negb (str_nonempty trimmed) then encodeLines rest
    else match match_codeStart trimmed with
    | Some lang =>
        codeLoop encodeLines
          (if str_nonempty (trim lang) then trim lang else "plain text") rest []
    | None =>
    match match_heading trimmed with
    | Some (level, content) =>
        textBlock ("heading_" +:+ nat_to_string level) content
          :: encodeLines rest
    | None =>
    match match_todo trimmed with
    | Some (mark, content) => todoBlock mark content :: encodeLines rest
    | None =>
    match match_bullet trimmed with
    | Some content => textBlock "bulleted_list_item" content :: encodeLines rest
    | None =>
    match match_number trimmed with
    | Some content => textBlock "numbered_list_item" content :: encodeLines rest
    | None =>
    match match_quote trimmed with
    | Some first => quoteLoop encodeLines rest [first]
    | None =>
        if is_divider trimmed then dividerBlock :: encodeLines rest
        else paragraphLoop encodeLines rest [line]
    end end end end end end.
Proof. reflexivity. Qed.

Lemma codeLoop_cons (encode : list string → list Block) (language l : string)
    (ls codeLines : list string) :
  codeLoop encode language (l :: ls) codeLines
  = if startsWith "```" (trim l)
    then codeBlock language codeLines :: encode ls
    else codeLoop encode language ls (codeLines ++ [l]).
Proof. reflexivity. Qed.

Lemma quoteLoop_cons (encode : list string → list Block) (l : string)
    (ls quoteLines : list string) :
  quoteLoop encode (l :: ls) quoteLines
  = match match_quote (trim l) with
    | Some next => quoteLoop encode ls (quoteLines ++ [next])
    | None =>
        textBlock "quote" (str_join (String "010" "") quoteLines)
          :: encode (l :: ls)
    end.
Proof. reflexivity. Qed.

Lemma paragraphLoop_cons (encode : list string → list Block) (l : string)
    (ls paragraphLines : list string) :
  paragraphLoop encode (l :: ls) paragraphLines
  = if negb (str_nonempty (trim (trimEnd l)))
       || isBlockBoundary (trim (trimEnd l))
    then textBlock "paragraph" (str_join (String "010" "") paragraphLines)
           :: encode (l :: ls)
    else paragraphLoop encode ls (paragraphLines ++ [trimEnd l]).
Proof. reflexivity. Qed.

Lemma match_heading_level (line : string) (level : nat) (content : string) :
  match_heading line = Some (level, content) → 1 ≤ level ≤ 3.
Proof.
  unfold match_heading.
  destruct (span_while (λ c, Ascii.eqb c "#") line) as [hs r].
  destruct (decide (1 ≤ String.length hs ≤ 3)) as [H|H]; [|done].
  destruct (after_spaces r); [|done]. by intros [= <- _].
Qed.

(** A property of every block the encoder can build holds of every block
    it builds. *)
Lemma encodeLines_Forall (P : Block → Prop) :
  (∀ language codeLines, P (codeBlock language codeLines)) →
  (∀ level content,
     1 ≤ level ≤ 3 → P (textBlock ("heading_" +:+ nat_to_string level) content)) →
  (∀ mark content, P (todoBlock mark content)) →
  (∀ content, P (textBlock "bulleted_list_item" content)) →
  (∀ content, P (textBlock "numbered_list_item" content)) →
  (∀ content, P (textBlock "quote" content)) →
  P dividerBlock →
  (∀ content, P (textBlock "paragraph" content)) →
  ∀ lines, Forall P (encodeLines lines).
Proof.
  intros Hcode Hhead Htodo Hbullet Hnumber Hquote Hdiv Hpara lines.
  remember (length lines) as n eqn:Hn.
  assert (Hlen : length lines ≤ n) by lia. clear Hn.
  revert lines Hlen. induction n as [|n IH]; intros lines Hlen.
  { destruct lines; [constructor|simpl in Hlen; lia]. }
  destruct lines as [|raw rest]; [constructor|].
  simpl in Hlen. assert (Hrest : length rest ≤ n) by lia. clear Hlen.
  rewrite encodeLines_cons. cbv zeta.
  destruct (negb (str_nonempty (trim (trimEnd raw)))); [by apply IH|].
  destruct (match_codeStart (trim (trimEnd raw))) as [lang|].
  { generalize (if str_nonempty (trim lang) then trim lang else "plain text").
    intros language. generalize (@nil string).
    induction rest as [|l ls IHls]; intros codeLines.
    - constructor; [apply Hcode|constructor].
    - rewrite codeLoop_cons.
      simpl in Hrest. destruct (startsWith "```" (trim l)).
      + constructor; [apply Hcode|apply IH; lia].
      + apply IHls. lia. }
  destruct (match_heading (trim (trimEnd raw))) as [[level content]|] eqn:Eh.
  { constructor; [|by apply IH]. apply Hhead.
    by apply (match_heading_level _ _ _ Eh). }
  destruct (match_todo (trim (trimEnd raw))) as [[mark content]|].
  { constructor; [apply Htodo|by apply IH]. }
  destruct (match_bullet (trim (trimEnd raw))) as [content|].
  { constructor; [apply Hbullet|by apply IH]. }
  destruct (match_number (trim (trimEnd raw))) as [content|].
  { constructor; [apply Hnumber|by apply IH]. }
  destruct (match_quote (trim (trimEnd raw))) as [first|].
  { generalize [first].
    induction rest as [|l ls IHls]; intros quoteLines.
    - constructor; [apply Hquote|constructor].
    - rewrite quoteLoop_cons. destruct (match_quote (trim l)).
      + apply IHls. simpl in Hrest. lia.
      + constructor; [apply Hquote|by apply IH]. }
  destruct (is_divider (trim (trimEnd raw))).
  { constructor; [apply Hdiv|by apply IH]. }
  generalize [trimEnd raw].
  induction rest as [|l ls IHls]; intros paragraphLines.
  - constructor; [apply Hpara|constructor].
  - rewrite paragraphLoop_cons.
    destruct (negb (str_nonempty (trim (trimEnd l)))
              || isBlockBoundary (trim (trimEnd l))).
    + constructor; [apply Hpara|by apply IH].
    + apply IHls. simpl in Hrest. lia.
Qed.

(** X14.  Every block that [markdownToNotionBlocks] builds is of one of
    ten kinds (code, the three headings, to-do, bulleted and numbered
    item, quote, divider, paragraph), each of which the decoder handles,
    and has no id and no children: whatever the indentation of the text,
    no block is nested in another one, and no callout, child page or
    child database is ever written. *)
Theorem markdownToNotionBlocks_kinds (markdown : string) :
  Forall (λ block,
            b_type block ∈ encodedTypes
            ∧ b_type block ∈ handledTypes
            ∧ b_id block = None
            ∧ b_children block = None)
    (markdownToNotionBlocks markdown).
Proof.
  unfold markdownToNotionBlocks.
  assert (Hin : ∀ type content,
            type ∈ encodedTypes → type ∈ handledTypes →
            b_type (textBlock type content) ∈ encodedTypes
            ∧ b_type (textBlock type content) ∈ handledTypes
            ∧ b_id (textBlock type content) = None
            ∧ b_children (textBlock type content) = None) by done.
  apply encodeLines_Forall.
  - intros language codeLines. repeat split;
      repeat first [apply list_elem_of_here | apply list_elem_of_further].
  - intros level content Hlevel.
    assert (level = 1 ∨ level = 2 ∨ level = 3) as [->|[->| ->]] by lia;
      apply Hin;
      repeat first [apply list_elem_of_here | apply list_elem_of_further].
  - intros mark content. repeat split;
      repeat first [apply list_elem_of_here | apply list_elem_of_further].
  - intros content. apply Hin;
      repeat first [apply list_elem_of_here | apply list_elem_of_further].
  - intros content. apply Hin;
      repeat first [apply list_elem_of_here | apply list_elem_of_further].
  - intros content. apply Hin;
      repeat first [apply list_elem_of_here | apply list_elem_of_further].
  - repeat split;
      repeat first [apply list_elem_of_here | apply list_elem_of_further].
  - intros content. apply Hin;
      repeat first [apply list_elem_of_here | apply list_elem_of_further].
Qed.

(* ----------------------------------------------------------------- *)
(** ** Round trips through the codec *)

Lemma replace_crlf_noCR (s : string) : noCR s → replace_crlf s = s.
Proof.
  unfold noCR. induction s as [|c s IH]; [done|]. simpl.
  intros H. apply andb_true_iff in H as [Hc Hs]. apply negb_true_iff in Hc.
  destruct s as [|c' s']; [done|]. rewrite Hc. cbn [andb].
  by rewrite IH.
Qed.

Lemma noCR_app (a b : string) : noCR (a +:+ b) ↔ noCR a ∧ noCR b.
Proof.
  unfold noCR. induction a as [|c a IH].
  - change ("" +:+ b) with b. simpl. tauto.
  - rewrite str_app_cons. simpl. rewrite !andb_true_iff, IH. tauto.
Qed.

Lemma oneLine_noCR (s : string) : oneLine s → noCR s.
Proof.
  unfold oneLine, noCR. induction s as [|c s IH]; [done|]. simpl.
  rewrite !andb_true_iff. intros [Hc Hs]. split; [|by apply IH].
  unfold is_line_term in Hc. apply negb_true_iff, orb_false_iff in Hc as [_ Hc].
  by rewrite Hc.
Qed.

Lemma noCR_join (lines : list string) :
  Forall oneLine lines → noCR (str_join LF lines).
Proof.
  induction 1 as [|line rest Hline Hrest IH]; [done|].
  destruct rest as [|next rest'].
  - simpl. by apply oneLine_noCR.
  - change (str_join LF (line :: next :: rest'))
      with (line +:+ LF +:+ str_join LF (next :: rest')).
    apply noCR_app. split; [by apply oneLine_noCR|].
    apply noCR_app. split; [done|exact IH].
Qed.

Lemma oneLine_no_LF (s : string) : oneLine s → "010"%char ∉ chars s.
Proof.
  intros H. apply (str_forallb_absent (λ c, negb (is_line_term c))); done.
Qed.

Lemma split_on_none (sep : ascii) (a : string) :
  sep ∉ chars a → split_on sep a = [a].
Proof.
  induction a as [|c a IH]; simpl; [done|]. intros H.
  rewrite not_elem_of_cons in H. destruct H as [Hc Ha].
  destruct (Ascii.eqb_spec c sep) as [->|_]; [done|]. by rewrite IH.
Qed.

Lemma split_on_sep (sep : ascii) (a b : string) :
  sep ∉ chars a →
  split_on sep (a +:+ String sep b) = a :: split_on sep b.
Proof.
  induction a as [|c a IH]; intros H.
  - change ("" +:+ String sep b) with (String sep b). simpl.
    by rewrite Ascii.eqb_refl.
  - simpl in H. rewrite not_elem_of_cons in H. destruct H as [Hc Ha].
    rewrite str_app_cons. simpl.
    destruct (Ascii.eqb_spec c sep) as [->|_]; [done|]. by rewrite IH.
Qed.

Lemma split_on_lines (lines : list string) :
  lines ≠ [] → Forall oneLine lines →
  split_on "010" (str_join LF lines) = lines.
Proof.
  intros Hne Hall. induction Hall as [|line rest Hline Hrest IH]; [done|].
  destruct rest as [|next rest'].
  - simpl. by apply split_on_none, oneLine_no_LF.
  - change (str_join LF (line :: next :: rest'))
      with (line +:+ String "010" (str_join LF (next :: rest'))).
    rewrite split_on_sep by (by apply oneLine_no_LF). by rewrite IH.
Qed.

(** The blocks of a text given by its lines. *)
Lemma markdownToNotionBlocks_lines (lines : list string) :
  lines ≠ [] → Forall oneLine lines →
  markdownToNotionBlocks (str_join LF lines) = encodeLines lines.
Proof.
  intros Hne Hall. unfold markdownToNotionBlocks.
  rewrite replace_crlf_noCR by (by apply noCR_join).
  by rewrite split_on_lines.
Qed.

Lemma filter_all {A : Type} (P : A → Prop) `{∀ x, Decision (P x)}
    (l : list A) :
  Forall P l → filter P l = l.
Proof.
  induction 1 as [|x l Hx Hl IH]; [done|].
  rewrite filter_cons. rewrite decide_True by done. by rewrite IH.
Qed.

(** The text of blocks whose sections are known and not empty. *)
Lemma notionBlocksToMarkdown_of_sections (blocks : list Block)
    (sections : list string) :
  map blockSection blocks = sections →
  Forall (λ section, str_nonempty section = true) sections →
  notionBlocksToMarkdown blocks = str_join (LF +:+ LF) sections.
Proof.
  intros Hmap Hall. rewrite notionBlocksToMarkdown_sections.
  rewrite Hmap. by rewrite filter_all.
Qed.

Lemma cleanText_spec (text : string) :
  cleanText text →
  trimEnd text = text ∧ str_nonempty text = true ∧ oneLine text
  ∧ ∃ c rest, text = String c rest ∧ is_ws c = false.
Proof.
  intros (_ & Hne & Htrim & Hline).
  destruct (trim_fixed text Htrim Hne) as [Hend Hfirst].
  split; [done|]. split; [by apply str_nonempty_true|]. done.
Qed.

Lemma after_spaces_clean (text : string) :
  cleanText text → after_spaces (" " +:+ text) = Some text.
Proof.
  intros Hclean.
  destruct (cleanText_spec text Hclean) as (_ & _ & Hline & c & rest & -> & Hc).
  unfold after_spaces.
  rewrite (span_while_app is_ws " " (String c rest)); [|done|done].
  cbn [str_nonempty andb]. unfold oneLine in Hline. by rewrite Hline.
Qed.

(** A line that ends with a clean text, behind a marker that starts with a
    character that is not white space, is left alone by the trims. *)
Lemma trim_marker_line (m : ascii) (marker text : string) :
  is_ws m = false → cleanText text →
  trim (trimEnd (String m marker +:+ text)) = String m marker +:+ text.
Proof.
  intros Hm Hclean.
  destruct (cleanText_spec text Hclean) as (Hend & Hne & _).
  assert (Hkeep : trimEnd (String m marker +:+ text) = String m marker +:+ text).
  { rewrite trimEnd_app; rewrite Hend; done. }
  rewrite Hkeep. unfold trim. rewrite str_app_cons. simpl trimStart.
  rewrite Hm. rewrite <- str_app_cons. exact Hkeep.
Qed.

Lemma trimEnd_marker_line (m : ascii) (marker text : string) :
  cleanText text →
  trimEnd (String m marker +:+ text) = String m marker +:+ text.
Proof.
  intros Hclean.
  destruct (cleanText_spec text Hclean) as (Hend & Hne & _).
  rewrite trimEnd_app; rewrite Hend; done.
Qed.

Lemma match_todo_first (d : ascii) (rest : string) :
  Ascii.eqb d "-" = false → match_todo (String d rest) = None.
Proof.
  intros Hd. unfold match_todo.
  destruct rest as [|w [|l [|m [|r rest]]]]; try done. by rewrite Hd.
Qed.

Lemma match_heading_first (d : ascii) (rest : string) :
  Ascii.eqb d "#" = false → match_heading (String d rest) = None.
Proof. intros Hd. unfold match_heading. simpl. by rewrite Hd. Qed.

Lemma match_codeStart_first (d : ascii) (rest : string) :
  Ascii.eqb "`" d = false → match_codeStart (String d rest) = None.
Proof.
  intros Hd. unfold match_codeStart. cbn [strip_prefix]. by rewrite Hd.
Qed.

Lemma match_bullet_first (d : ascii) (rest : string) :
  Ascii.eqb d "-" = false → match_bullet (String d rest) = None.
Proof. intros Hd. unfold match_bullet. by rewrite Hd. Qed.

Lemma digit_marks (d : ascii) :
  is_digit d = true →
  is_ws d = false ∧ Ascii.eqb "`" d = false ∧ Ascii.eqb d "#" = false
  ∧ Ascii.eqb d "-" = false.
Proof.
  intros Hd. split; [by apply digit_not_ws|].
  split; [destruct (Ascii.eqb_spec "`" d) as [<-|]; done|].
  split; [destruct (Ascii.eqb_spec d "#") as [->|]; done|].
  destruct (Ascii.eqb_spec d "-") as [->|]; done.
Qed.

(** The main loop on the line of a numbered item. *)
Lemma encodeLines_numbered (digits text : string) (rest : list string) :
  digits ≠ "" → str_forallb is_digit digits = true → cleanText text →
  encodeLines ((digits +:+ ". " +:+ text) :: rest)
  = textBlock "numbered_list_item" text :: encodeLines rest.
Proof.
  intros Hne Hdigits Hclean. rewrite encodeLines_cons. cbv zeta.
  destruct digits as [|d ds]; [done|].
  simpl in Hdigits. apply andb_true_iff in Hdigits as [Hd Hds].
  destruct (digit_marks d Hd) as (Hws & Hcode & Hhash & Hdash).
  rewrite <- str_app_assoc.
  change ((String d ds +:+ ". ") +:+ text)
    with (String d (ds +:+ ". ") +:+ text).
  rewrite trim_marker_line by done.
  rewrite trimEnd_marker_line by done.
  rewrite !str_app_cons. cbn [str_nonempty negb].
  rewrite match_codeStart_first, match_heading_first, match_todo_first,
    match_bullet_first by done.
  assert (Hnum : match_number (String d ((ds +:+ ". ") +:+ text)) = Some text).
  { unfold match_number.
    replace (String d ((ds +:+ ". ") +:+ text))
      with (String d ds +:+ ". " +:+ text)
      by (by rewrite !str_app_cons, str_app_assoc).
    rewrite (span_while_app is_digit (String d ds) (". " +:+ text));
      [|by simpl; rewrite Hd, Hds|done].
    cbn [str_nonempty].
    change (". " +:+ text) with (String "." (" " +:+ text)).
    change (Ascii.eqb "." ".") with true. cbn iota.
    by apply after_spaces_clean. }
  by rewrite Hnum.
Qed.

Lemma section_of_line (m : ascii) (marker text : string) :
  is_ws m = false → cleanText text →
  trimEnd (String m marker +:+ text) = String m marker +:+ text
  ∧ str_nonempty (String m marker +:+ text) = true.
Proof.
  intros Hm Hclean. split; [by apply trimEnd_marker_line|].
  by rewrite str_app_cons.
Qed.

(** X15.  A numbered list written one item a line, each a number, a
    dot, a space and a clean text (ASCII, not empty, on one line, no
    white space at its ends), comes back, after a write and a read, with
    every item numbered 1 and a blank line between the items: the numbers
    of the items are not kept. *)
Theorem roundTrip_numbered_list (items : list (string * string)) :
  items ≠ [] →
  Forall (λ item, item.1 ≠ "" ∧ str_forallb is_digit item.1 = true
                  ∧ cleanText item.2) items →
  markdownToNotionBlocks
    (str_join LF (map (λ item, item.1 +:+ ". " +:+ item.2) items))
  = map (λ item, textBlock "numbered_list_item" item.2) items
  ∧ roundTrip (str_join LF (map (λ item, item.1 +:+ ". " +:+ item.2) items))
    = str_join (LF +:+ LF) (map (λ item, "1. " +:+ item.2) items).
Proof.
  intros Hne Hall.
  assert (Hblocks :
    markdownToNotionBlocks
      (str_join LF (map (λ item, item.1 +:+ ". " +:+ item.2) items))
    = map (λ item, textBlock "numbered_list_item" item.2) items).
  { rewrite markdownToNotionBlocks_lines.
    - clear Hne. induction Hall as [|[digits text] rest (H1 & H2 & H3) _ IH];
        [done|].
      cbn [map fst snd]. rewrite encodeLines_numbered by done. by rewrite IH.
    - by destruct items.
    - apply Forall_fmap. eapply Forall_impl; [exact Hall|].
      intros [digits text] (H1 & H2 & H3). simpl.
      apply oneLine_app. split.
      + unfold oneLine. apply str_forallb_chars. intros c Hc.
        rewrite str_forallb_chars in H2. specialize (H2 c Hc).
        unfold is_digit in H2. unfold is_line_term.
        apply andb_true_iff in H2 as [Hlo Hhi].
        apply N.leb_le in Hlo. apply negb_true_iff, orb_false_iff.
        split; apply N.eqb_neq; lia.
      + apply oneLine_app. split; [done|]. apply H3. }
  split; [exact Hblocks|]. unfold roundTrip. rewrite Hblocks.
  apply notionBlocksToMarkdown_of_sections.
  - rewrite !map_map. apply map_ext_Forall.
    eapply Forall_impl; [exact Hall|].
    intros [digits text] (H1 & H2 & H3). simpl.
    change (blockSection (materializeBlock (textBlock "numbered_list_item" text)))
      with (trimEnd ("1. " +:+ text)).
    by apply (trimEnd_marker_line "1" ". ").
  - apply Forall_fmap. eapply Forall_impl; [exact Hall|].
    intros [digits text] _. reflexivity.
Qed.

Lemma markdownToNotionBlocks_line (line : string) :
  oneLine line → markdownToNotionBlocks line = encodeLines [line].
Proof.
  intros Hline. apply (markdownToNotionBlocks_lines [line]); [done|].
  by constructor.
Qed.

(** The main loop on a heading line. *)
Lemma encodeLines_heading (hashes text : string) (rest : list string) :
  hashes ∈ ["#"; "##"; "###"] → cleanText text →
  encodeLines ((hashes +:+ " " +:+ text) :: rest)
  = textBlock ("heading_" +:+ nat_to_string (String.length hashes)) text
      :: encodeLines rest.
Proof.
  intros Hin Hclean. rewrite encodeLines_cons. cbv zeta.
  assert (Hshape : ∃ marker, hashes = String "#" marker
                             ∧ str_forallb (λ c, Ascii.eqb c "#") hashes = true
                             ∧ 1 ≤ String.length hashes ≤ 3).
  { repeat (apply elem_of_cons in Hin as [->|Hin];
              [eexists; split; [reflexivity|split; [reflexivity|simpl; lia]]|]).
    by apply elem_of_nil in Hin. }
  destruct Hshape as (marker & Hm & Hall & Hlen).
  assert (Hline : hashes +:+ " " +:+ text
                  = String "#" (marker +:+ " ") +:+ text)
    by (rewrite Hm; by rewrite !str_app_cons, str_app_assoc).
  rewrite Hline. rewrite trim_marker_line by done.
  rewrite trimEnd_marker_line by done. rewrite <- Hline.
  assert (Hne : str_nonempty (hashes +:+ " " +:+ text) = true)
    by (by rewrite Hline, str_app_cons).
  assert (Hcode : match_codeStart (hashes +:+ " " +:+ text) = None)
    by (rewrite Hline, str_app_cons; by apply match_codeStart_first).
  rewrite Hne, Hcode. cbn [negb].
  assert (Hhead : match_heading (hashes +:+ " " +:+ text)
                  = Some (String.length hashes, text)).
  { unfold match_heading.
    rewrite (span_while_app (λ c, Ascii.eqb c "#") hashes (" " +:+ text));
      [|done|done].
    rewrite decide_True by done. by rewrite after_spaces_clean. }
  by rewrite Hhead.
Qed.

(** X16.  A heading of level 1, 2 or 3 with a clean text (ASCII, on one
    line, not empty, no white space at its ends) is one heading block of
    that level with that text, and a write followed by a read gives the
    same line back. *)
Theorem roundTrip_heading (hashes text : string) :
  hashes ∈ ["#"; "##"; "###"] → cleanText text →
  markdownToNotionBlocks (hashes +:+ " " +:+ text)
  = [textBlock ("heading_" +:+ nat_to_string (String.length hashes)) text]
  ∧ roundTrip (hashes +:+ " " +:+ text) = hashes +:+ " " +:+ text.
Proof.
  intros Hin Hclean.
  assert (Hblocks :
    markdownToNotionBlocks (hashes +:+ " " +:+ text)
    = [textBlock ("heading_" +:+ nat_to_string (String.length hashes)) text]).
  { rewrite markdownToNotionBlocks_line.
    - by rewrite encodeLines_heading.
    - apply oneLine_app. split.
      + repeat (apply elem_of_cons in Hin as [->|Hin]; [done|]).
        by apply elem_of_nil in Hin.
      + apply oneLine_app. split; [done|apply Hclean]. }
  split; [exact Hblocks|]. unfold roundTrip. rewrite Hblocks.
  rewrite (notionBlocksToMarkdown_of_sections _ [hashes +:+ " " +:+ text]).
  - reflexivity.
  - cbn [map]. f_equal.
    repeat (apply elem_of_cons in Hin as [->|Hin];
      [match goal with
       | |- blockSection _ = String ?m ?marker +:+ " " +:+ text =>
           change (trimEnd (String m (marker +:+ " ") +:+ text)
                   = String m marker +:+ " " +:+ text);
           rewrite trimEnd_marker_line by done;
           by rewrite !str_app_cons, str_app_assoc
       end|]).
    by apply elem_of_nil in Hin.
  - constructor; [|constructor].
    repeat (apply elem_of_cons in Hin as [->|Hin]; [reflexivity|]).
    by apply elem_of_nil in Hin.
Qed.

Lemma codeLoop_body (language : string) (body codeLines : list string) :
  Forall (λ l, startsWith "```" (trim l) = false) body →
  codeLoop encodeLines language (body ++ ["```"]) codeLines
  = [codeBlock language (codeLines ++ body)].
Proof.
  intros Hall. revert codeLines.
  induction Hall as [|l body Hl Hbody IH]; intros codeLines.
  - by rewrite app_nil_r.
  - cbn [app]. rewrite codeLoop_cons, Hl. rewrite IH.
    by rewrite <- app_assoc.
Qed.

(** X17.  A fenced code block of ASCII text whose body has no fence line
    comes back, after a write and a read, with the same body and the same
    language; a fence without language comes back labelled [plain text],
    and an empty body comes back as one empty line. *)
Theorem roundTrip_code_fence (lang : string) (body : list string) :
  lang = "" ∨ cleanText lang →
  Forall (λ l, asciiText l ∧ oneLine l
               ∧ startsWith "```" (trim l) = false) body →
  markdownToNotionBlocks (str_join LF (("```" +:+ lang) :: body ++ ["```"]))
  = [codeBlock (if str_nonempty lang then lang else "plain text") body]
  ∧ roundTrip (str_join LF (("```" +:+ lang) :: body ++ ["```"]))
    = str_join LF
        ["```" +:+ (if str_nonempty lang then lang else "plain text");
         str_join LF body; "```"].
Proof.
  intros Hlang Hbody.
  assert (Hl : trimEnd ("```" +:+ lang) = "```" +:+ lang
               ∧ trim lang = lang ∧ oneLine lang).
  { destruct Hlang as [->|Hclean]; [done|].
    split; [by apply (trimEnd_marker_line "`" "``")|].
    split; apply Hclean. }
  destruct Hl as (Hend & Htrim & Hline).
  assert (Hblocks :
    markdownToNotionBlocks (str_join LF (("```" +:+ lang) :: body ++ ["```"]))
    = [codeBlock (if str_nonempty lang then lang else "plain text") body]).
  { rewrite markdownToNotionBlocks_lines.
    - rewrite encodeLines_cons. cbv zeta. rewrite Hend.
      assert (Hkeep : trim ("```" +:+ lang) = "```" +:+ lang).
      { unfold trim.
        change (trimStart ("```" +:+ lang)) with ("```" +:+ lang). exact Hend. }
      rewrite Hkeep.
      change (str_nonempty ("```" +:+ lang)) with true. cbn [negb].
      assert (Hcode : match_codeStart ("```" +:+ lang) = Some lang).
      { unfold match_codeStart.
        change (strip_prefix "```" ("```" +:+ lang)) with (Some lang).
        cbn beta iota. unfold oneLine in Hline. by rewrite Hline. }
      rewrite Hcode, Htrim.
      rewrite codeLoop_body; [done|].
      eapply Forall_impl; [exact Hbody|]. by intros l (_ & _ & H).
    - done.
    - constructor.
      + apply oneLine_app. by split.
      + apply Forall_app. split; [|by repeat constructor].
        eapply Forall_impl; [exact Hbody|]. by intros l (_ & H & _). }
  split; [exact Hblocks|]. unfold roundTrip. rewrite Hblocks.
  set (language := if str_nonempty lang then lang else "plain text").
  rewrite (notionBlocksToMarkdown_of_sections _
             [str_join LF ["```" +:+ language; str_join LF body; "```"]]).
  - reflexivity.
  - cbn [map]. f_equal.
    change (blockSection (materializeBlock (codeBlock language body)))
      with (trimEnd (str_join LF ["```" +:+ language; str_join LF body; "```"])).
    change (str_join LF ["```" +:+ language; str_join LF body; "```"])
      with (("```" +:+ language) +:+ LF +:+ str_join LF body +:+ LF +:+ "```").
    rewrite <- !str_app_assoc. by rewrite trimEnd_app.
  - constructor; [|constructor].
    change (str_join LF ["```" +:+ language; str_join LF body; "```"])
      with (String "`" ("``" +:+ language +:+ LF +:+ str_join LF body
                          +:+ LF +:+ "```")).
    reflexivity.
Qed.

(* ----------------------------------------------------------------- *)
(** ** The root filter is the closure under parent page links *)

Lemma filterByRoot_step_reach (records : list NotionRecordMeta) (root : string)
    (acc : gset string * bool) (item : NotionRecordMeta) :
  item ∈ records →
  (∀ x, x ∈ acc.1 → reachable records root x) →
  ∀ x, x ∈ (filterByRoot_step acc item).1 → reachable records root x.
Proof.
  destruct acc as [inc ch]. simpl. intros Hitem Hinv x.
  unfold filterByRoot_step.
  destruct (decide (idNoDash item ∈ inc)); [by apply Hinv|].
  destruct (parentPageNoDash item) as [p|] eqn:Hp; [|by apply Hinv].
  destruct (str_nonempty p) eqn:Hne; [|by apply Hinv]. cbn [andb].
  destruct (bool_decide (p ∈ inc)) eqn:Hin; [|by apply Hinv].
  apply bool_decide_eq_true in Hin. simpl. intros Hx.
  apply elem_of_union in Hx as [Hx|Hx]; [|by apply Hinv].
  apply elem_of_singleton in Hx as ->.
  apply (reachable_child records root item p); try done.
  - by apply str_nonempty_true.
  - by apply Hinv.
Qed.

Lemma filterByRoot_fold_reach (records : list NotionRecordMeta) (root : string)
    (items : list NotionRecordMeta) (acc : gset string * bool) :
  (∀ item, item ∈ items → item ∈ records) →
  (∀ x, x ∈ acc.1 → reachable records root x) →
  ∀ x, x ∈ (fold_left filterByRoot_step items acc).1 →
    reachable records root x.
Proof.
  revert acc. induction items as [|item items IH]; intros acc Hsub Hinv;
    simpl; [done|].
  apply IH.
  - intros y Hy. by apply Hsub, list_elem_of_further.
  - apply filterByRoot_step_reach; [|done]. apply Hsub, list_elem_of_here.
Qed.

Lemma filterByRoot_fold_closed (items : list NotionRecordMeta)
    (included : gset string) :
  (fold_left filterByRoot_step items (included, false)).2 = false →
  closedUnder items included.
Proof.
  induction items as [|item items IH]; intros Hch.
  - intros item p Hin. by apply elem_of_nil in Hin.
  - cbn [fold_left] in Hch.
    remember (filterByRoot_step (included, false) item) as acc1 eqn:Hacc1.
    pose proof (filterByRoot_fold_spec items acc1) as Hspec.
    cbv zeta in Hspec. destruct Hspec as (_ & _ & H3 & _).
    destruct (H3 Hch) as [_ Hstep].
    pose proof (filterByRoot_step_spec (included, false) item) as Hs.
    cbv zeta in Hs. rewrite <- Hacc1 in Hs.
    destruct Hs as (_ & _ & S3 & _).
    destruct (S3 Hstep) as [Hsame _].
    assert (Hacc : acc1 = (included, false)).
    { destruct acc1 as [i c]. cbn [fst snd] in *. by subst. }
    rewrite Hacc in Hch. specialize (IH Hch).
    intros it p Hit Hp Hne Hin. apply elem_of_cons in Hit as [->|Hit];
      [|by apply (IH it p)].
    rewrite Hacc in Hacc1. unfold filterByRoot_step in Hacc1.
    destruct (decide (idNoDash item ∈ included)) as [Hok|Hno]; [done|].
    rewrite Hp in Hacc1. apply str_nonempty_true in Hne. rewrite Hne in Hacc1.
    rewrite bool_decide_eq_true_2 in Hacc1 by done. cbn [andb] in Hacc1.
    discriminate Hacc1.
Qed.

Lemma filterByRoot_loop_closure (records : list NotionRecordMeta)
    (root : string) (fuel : nat) (included final : gset string) :
  filterByRoot_loop fuel records included = Some final →
  (∀ x, x ∈ included → reachable records root x) →
  included ⊆ final
  ∧ (∀ x, x ∈ final → reachable records root x)
  ∧ closedUnder records final.
Proof.
  revert included. induction fuel as [|fuel IH]; intros included Hloop Hinv;
    [done|].
  simpl in Hloop. unfold filterByRoot_pass in Hloop.
  pose proof (filterByRoot_fold_spec records (included, false)) as Hspec.
  pose proof (filterByRoot_fold_reach records root records (included, false)
                (λ _ H, H) Hinv) as Hreach.
  pose proof (filterByRoot_fold_closed records included) as Hclosed.
  destruct (fold_left filterByRoot_step records (included, false))
    as [included' changed]. cbn [fst snd] in *. cbv zeta in Hspec.
  cbn [fst snd] in Hspec.
  destruct Hspec as (H1 & _ & H3 & _).
  destruct changed.
  - destruct (IH included' Hloop Hreach) as (Hsub & Hr & Hc).
    split; [by transitivity included'|]. done.
  - injection Hloop as <-. destruct (H3 eq_refl) as [-> _].
    split; [done|]. split; [done|]. by apply Hclosed.
Qed.

(** X18.  With a root id, [filterByRoot] returns, in their order, exactly
    the records of the list whose id is the root or is reached from the
    root by parent page links through records of the same list; ids are
    compared with their dashes removed.  Parents that are not pages
    (workspace, database) are never followed. *)
Theorem filterByRoot_closure (records : list NotionRecordMeta)
    (rootPageId : string) :
  rootPageId ≠ "" →
  ∃ kept,
    filterByRoot records (Some rootPageId) = Some kept
    ∧ kept `sublist_of` records
    ∧ ∀ item,
        item ∈ kept
        ↔ item ∈ records
          ∧ reachable records (remove_dashes rootPageId) (idNoDash item).
Proof.
  intros Hroot. unfold filterByRoot.
  apply str_nonempty_true in Hroot. rewrite Hroot. cbn [negb].
  destruct (filterByRoot_loop_total records (S (length records))
              {[remove_dashes rootPageId]}) as [included Hloop].
  { pose proof (size_idsOf records).
    assert (size (idsOf records ∖ {[remove_dashes rootPageId]})
            ≤ size (idsOf records)) by (apply subseteq_size; set_solver).
    lia. }
  rewrite Hloop.
  destruct (filterByRoot_loop_closure records (remove_dashes rootPageId)
              _ _ _ Hloop) as (Hsub & Hsound & Hclosed).
  { intros x Hx. apply elem_of_singleton in Hx as ->. constructor. }
  eexists. split; [reflexivity|]. split; [apply sublist_filter|].
  intros item. rewrite list_elem_of_filter. split.
  - intros [Hin Hitem]. split; [done|]. by apply Hsound.
  - intros [Hitem Hreach]. split; [|done].
    assert (Hall : ∀ x, reachable records (remove_dashes rootPageId) x →
                        x ∈ included).
    { clear -Hsub Hclosed. induction 1 as [|it p Hit Hp Hne Hr IH].
      - apply Hsub. by apply elem_of_singleton.
      - by apply (Hclosed it p). }
    by apply Hall.
Qed.

(* ----------------------------------------------------------------- *)
(** ** resolveVirtualPath gives canonical paths *)

Lemma split_on_no_sep (s : string) : Forall no_slash (split_on "/" s).
Proof.
  induction s as [|c s IH]; simpl.
  - constructor; [|constructor]. unfold no_slash. simpl. apply not_elem_of_nil.
  - destruct (Ascii.eqb_spec c "/") as [->|Hc].
    + constructor; [|done]. unfold no_slash. simpl. apply not_elem_of_nil.
    + destruct (split_on "/" s) as [|w ws].
      * constructor; [|constructor]. unfold no_slash. simpl.
        rewrite not_elem_of_cons. split; [done|apply not_elem_of_nil].
      * inversion IH as [|? ? Hw Hws]; subst. constructor; [|done].
        unfold no_slash in *. simpl. rewrite not_elem_of_cons. by split.
Qed.

Lemma normalizeSegments_segments (res segs : list string) :
  Forall pathSegment res → Forall no_slash segs →
  Forall pathSegment (normalizeSegments false res segs).
Proof.
  intros Hres Hsegs. revert res Hres.
  induction Hsegs as [|seg rest Hseg Hrest IH]; intros res Hres; simpl.
  - by apply Forall_rev.
  - destruct (decide (seg = "")); [by apply IH|].
    destruct (decide (seg = ".")); [by apply IH|].
    destruct (decide (seg = "..")).
    + destruct res as [|last res']; [by apply IH|].
      destruct (decide (last = "..")); [by apply IH|].
      apply IH. by inversion Hres.
    + apply IH. constructor; [|done]. done.
Qed.

Lemma normalizeSegments_keep (allowAboveRoot : bool) (res segs : list string) :
  Forall pathSegment segs →
  normalizeSegments allowAboveRoot res segs = rev res ++ segs.
Proof.
  intros Hall. revert res.
  induction Hall as [|seg rest (_ & H1 & H2 & H3) Hrest IH]; intros res; simpl.
  - by rewrite app_nil_r.
  - rewrite !decide_False by done. rewrite IH. simpl.
    by rewrite <- app_assoc.
Qed.

Lemma split_on_segments (segs : list string) :
  segs ≠ [] → Forall pathSegment segs →
  split_on "/" (str_join "/" segs) = segs.
Proof.
  intros Hne Hall. induction Hall as [|seg rest [Hseg _] Hrest IH]; [done|].
  destruct rest as [|next rest'].
  - simpl. by apply split_on_no_slash.
  - change (str_join "/" (seg :: next :: rest'))
      with (seg +:+ "/" +:+ str_join "/" (next :: rest')).
    rewrite split_on_app by done. by rewrite IH.
Qed.

Lemma str_join_segments_nonempty (segs : list string) :
  Forall pathSegment segs →
  str_nonempty (str_join "/" segs) = bool_decide (segs ≠ []).
Proof.
  intros Hall. destruct Hall as [|seg rest (_ & Hne & _) Hrest]; [done|].
  rewrite bool_decide_eq_true_2 by done.
  destruct seg as [|c seg]; [done|]. destruct rest; [done|].
  change (str_join "/" (String c seg :: s :: rest))
    with (String c (seg +:+ "/" +:+ str_join "/" (s :: rest))).
  done.
Qed.

Lemma endsWithSlash_segments (segs : list string) :
  segs ≠ [] → Forall pathSegment segs →
  endsWithSlash ("/" +:+ str_join "/" segs) = false.
Proof.
  intros Hne Hall.
  assert (Hn : str_nonempty (str_join "/" segs) = true)
    by (rewrite str_join_segments_nonempty by done;
        by apply bool_decide_eq_true_2).
  rewrite endsWithSlash_app by done.
  destruct segs as [|s segs'] using rev_ind; [done|].
  apply Forall_app in Hall as [Hall' Hs].
  inversion Hs as [|? ? (Hns & Hs' & _) _]; subst.
  destruct segs' as [|s0 segs0].
  - simpl. by apply endsWithSlash_no_slash.
  - rewrite str_join_snoc by done. rewrite <- str_app_assoc.
    rewrite endsWithSlash_app by (by apply str_nonempty_true).
    by apply endsWithSlash_no_slash.
Qed.

Lemma endsWithSlash_snoc (a : string) : endsWithSlash (a +:+ "/") = true.
Proof. by rewrite endsWithSlash_app. Qed.

Lemma dropLast_snoc (a : string) (c : ascii) :
  dropLast (a +:+ String c "") = a.
Proof.
  induction a as [|x a IH]; [done|]. rewrite str_app_cons. simpl.
  rewrite IH. destruct a; [done|]. by rewrite str_app_cons.
Qed.

Lemma length_app_str (a b : string) :
  String.length (a +:+ b) = String.length a + String.length b.
Proof.
  induction a as [|x a IH]; [done|]. rewrite str_app_cons. simpl. by rewrite IH.
Qed.

(** [posix.normalize] of an absolute path: the canonical path of its
    segments, with a slash behind it when the path ended in one and there
    is a segment. *)
Lemma posix_normalize_absolute (path : string) :
  startsWith "/" path = true →
  ∃ segs,
    Forall pathSegment segs
    ∧ posix_normalize path
      = "/" +:+ str_join "/" segs
        +:+ (if endsWithSlash path && bool_decide (segs ≠ []) then "/" else "").
Proof.
  intros Habs. unfold posix_normalize.
  assert (Hne : str_nonempty path = true) by (by destruct path).
  rewrite Hne, Habs. cbn [negb]. unfold normalizeString.
  set (segs := normalizeSegments false [] (split_on "/" path)).
  assert (Hsegs : Forall pathSegment segs).
  { apply normalizeSegments_segments; [constructor|apply split_on_no_sep]. }
  exists segs. split; [done|].
  rewrite (str_join_segments_nonempty segs Hsegs).
  destruct (decide (segs = [])) as [Hnil|Hcons].
  - rewrite Hnil. simpl. by rewrite andb_false_r.
  - rewrite bool_decide_eq_true_2 by done. cbn [negb]. rewrite andb_true_r.
    destruct (endsWithSlash path); [reflexivity|by rewrite str_app_nil_r].
Qed.

(** A canonical path is left alone, whatever the working directory. *)
Lemma resolveVirtualPath_fixed (path cwd : string) :
  canonicalPath path → resolveVirtualPath path cwd = path.
Proof.
  intros (segs & Hall & ->). unfold resolveVirtualPath.
  change (startsWith "/" ("/" +:+ str_join "/" segs)) with true. cbn iota.
  destruct (decide (segs = [])) as [->|Hne]; [reflexivity|].
  assert (Hnorm : posix_normalize ("/" +:+ str_join "/" segs)
                  = "/" +:+ str_join "/" segs).
  { unfold posix_normalize, normalizeString.
    change (str_nonempty ("/" +:+ str_join "/" segs)) with true.
    change (startsWith "/" ("/" +:+ str_join "/" segs)) with true.
    cbn [negb].
    change (split_on "/" ("/" +:+ str_join "/" segs))
      with ("" :: split_on "/" (str_join "/" segs)).
    rewrite split_on_segments by done.
    cbn [normalizeSegments]. rewrite decide_True by done.
    rewrite normalizeSegments_keep by done. cbn [rev app].
    rewrite str_join_segments_nonempty by done.
    rewrite bool_decide_eq_true_2 by done. cbn [negb].
    by rewrite endsWithSlash_segments. }
  rewrite Hnorm.
  change (startsWith "/" ("/" +:+ str_join "/" segs)) with true. cbn iota.
  rewrite endsWithSlash_segments by done. by rewrite andb_false_r.
Qed.

(** X19.  From an absolute working directory (or with an absolute
    input), [resolveVirtualPath] gives an absolute path in normal form:
    segments that are not empty, [.] or [..], one slash between them, no
    slash at the end; so no path leads above the root.  Resolving the
    result again, from any directory, changes nothing. *)
Theorem resolveVirtualPath_canonical (input cwd : string) :
  startsWith "/" input = true ∨ startsWith "/" cwd = true →
  canonicalPath (resolveVirtualPath input cwd)
  ∧ ∀ cwd', resolveVirtualPath (resolveVirtualPath input cwd) cwd'
            = resolveVirtualPath input cwd.
Proof.
  intros Habs.
  assert (Hcanon : canonicalPath (resolveVirtualPath input cwd)).
  { unfold resolveVirtualPath.
    set (base := if startsWith "/" input then input else posix_join cwd input).
    assert (Hbase : startsWith "/" base = true).
    { unfold base. destruct (startsWith "/" input) eqn:Hin; [done|].
      destruct Habs as [?|Hcwd]; [done|].
      assert (Hc : str_nonempty cwd = true) by (by destruct cwd).
      unfold posix_join. rewrite Hc.
      assert (Hq : ∀ q, startsWith "/" q = true →
                        startsWith "/" (posix_normalize q) = true).
      { intros q Hq. destruct (posix_normalize_absolute q Hq) as (segs & _ & ->).
        reflexivity. }
      destruct (str_nonempty input); apply Hq; [|done].
      destruct cwd as [|c cwd]; [done|]. rewrite str_app_cons.
      unfold startsWith in *. cbn [strip_prefix] in *.
      by destruct (Ascii.eqb "/" c). }
    destruct (posix_normalize_absolute base Hbase) as (segs & Hsegs & ->).
    change (startsWith "/" ("/" +:+ str_join "/" segs +:+
              (if endsWithSlash base && bool_decide (segs ≠ [])
               then "/" else ""))) with true. cbn iota.
    exists segs. split; [done|].
    destruct (decide (segs = [])) as [->|Hne].
    - rewrite andb_false_r. reflexivity.
    - rewrite bool_decide_eq_true_2 by done. rewrite andb_true_r.
      destruct (endsWithSlash base).
      + rewrite <- !str_app_assoc. rewrite endsWithSlash_snoc.
        rewrite andb_true_r.
        assert (Hlen : (1 <? String.length (("/" +:+ str_join "/" segs) +:+ "/"))
                       = true).
        { apply Nat.ltb_lt. rewrite length_app_str. simpl. lia. }
        rewrite Hlen. apply dropLast_snoc.
      + rewrite !str_app_nil_r. rewrite endsWithSlash_segments by done.
        by rewrite andb_false_r. }
  split; [exact Hcanon|]. intros cwd'. by apply resolveVirtualPath_fixed.
Qed.

(* ----------------------------------------------------------------- *)
(** ** A free path for a database placeholder (findUniquePath) *)

Lemma findUniquePath_loop_least (fuel : nat) (parentPath filename : string)
    (es : gmap string FsEntry) (i : nat) :
  match findUniquePath_loop fuel parentPath filename es i with
  | Some j =>
      i ≤ j
      ∧ es !! posix_join parentPath (numbered filename j) = None
      ∧ ∀ k, i ≤ k < j →
          is_Some (es !! posix_join parentPath (numbered filename k))
  | None => True
  end.
Proof.
  revert i. induction fuel as [|fuel IH]; intros i; simpl; [done|].
  fold (numbered filename i).
  destruct (es !! posix_join parentPath (numbered filename i)) eqn:Hi.
  - specialize (IH (S i)).
    destruct (findUniquePath_loop fuel parentPath filename es (S i)); [|done].
    destruct IH as (Hle & Hfree & Hbelow). split; [lia|]. split; [done|].
    intros k Hk. destruct (decide (k = i)) as [->|]; [by rewrite Hi|].
    apply Hbelow. lia.
  - split; [lia|]. split; [done|]. intros k Hk. lia.
Qed.

(** X20.  For a normalized parent directory and a plain name,
    [findUniquePath] returns a path that no entry has: the parent, a
    slash and the name when that is free, and otherwise the name with
    [-i] appended for the least [i], from 2 on, that is free. *)
Theorem findUniquePath_free (fs : VirtualFs) (parentPath name : string) :
  normAbs parentPath → plain name →
  ∃ path,
    findUniquePath parentPath name fs = Some path
    ∧ entries fs !! path = None
    ∧ ((entries fs !! (parentPath +:+ "/" +:+ name) = None
        ∧ path = parentPath +:+ "/" +:+ name)
       ∨ (is_Some (entries fs !! (parentPath +:+ "/" +:+ name))
          ∧ ∃ i, 2 ≤ i
                 ∧ path = parentPath +:+ "/" +:+ numbered name i
                 ∧ ∀ k, 2 ≤ k < i →
                     is_Some (entries fs
                                !! (parentPath +:+ "/" +:+ numbered name k)))).
Proof.
  intros Hnorm Hname.
  destruct (findUniquePath_fresh fs parentPath name Hnorm Hname)
    as (path & Hfind & Hfree & _).
  exists path. split; [exact Hfind|]. split; [exact Hfree|].
  unfold findUniquePath in Hfind.
  rewrite (posix_join_plain parentPath name Hnorm Hname) in Hfind.
  destruct (entries fs !! (parentPath +:+ "/" +:+ name)) eqn:Hfirst.
  - right. split; [by eexists|].
    pose proof (findUniquePath_loop_least (S (size (entries fs))) parentPath
                  name (entries fs) 2) as Hleast.
    change (λ i, name +:+ "-" +:+ nat_to_string i) with (numbered name) in *.
    destruct (findUniquePath_loop (S (size (entries fs))) parentPath name
                (entries fs) 2) as [j|]; [|done].
    destruct Hleast as (Hle & _ & Hbelow). injection Hfind as <-.
    exists j. split; [done|]. split.
    + fold (numbered name j).
      by rewrite posix_join_plain by (by try apply plain_numbered).
    + intros k Hk. rewrite <- (posix_join_plain parentPath (numbered name k))
        by (by try apply plain_numbered).
      by apply Hbelow.
  - left. by injection Hfind as <-.
Qed.

(* ----------------------------------------------------------------- *)
(** ** Reading after a write *)

Lemma getPageMeta_blocks (pageId : string) (w w' : World)
    (r : res NotionRecordMeta) :
  getPageMeta pageId w = (w', r) → w_blocks w' = w_blocks w.
Proof.
  unfold getPageMeta.
  destruct (find _ (w_pages (gatewayCall (CallGetPageMeta pageId) w)));
    by intros [= <- _].
Qed.

(** What a write that succeeded has done: the entry it found is still
    the file of that path, with the same page id; the cache holds the
    written text, stamped with the time the write ended; the remote page
    holds the blocks of the text. *)
Lemma writeFile_done (fs fs' : VirtualFs) (w w' : World)
    (pathInput markdown cwd : string) :
  writeFile pathInput markdown cwd fs w = (fs', w', Done ()) →
  ∃ key file pageId,
    ensurePageFile pathInput cwd fs' = Done (key, file)
    ∧ pageIdOf file = pageId
    ∧ (∀ databaseId n p q m,
         entries fs' !! resolve pathInput cwd
         ≠ Some (DbPlaceholderEntry n p q databaseId m))
    ∧ (∃ cached, cache fs' !! pageId = Some cached
                 ∧ c_markdown cached = markdown
                 ∧ c_fetchedAt cached = w_now w')
    ∧ ttlMs fs' = ttlMs fs
    ∧ w_blocks w' !! pageId
      = Some (map materializeBlock (markdownToNotionBlocks markdown)).
Proof.
  unfold writeFile, ensurePageFile.
  destruct (entries fs !! resolve pathInput cwd) as [[n p q c m|n p q ro pid m|]|]
    eqn:He; try discriminate.
  - (* a directory: its index file *)
    destruct (entries fs !! posix_join p "index.md")
      as [[|n' p' q' ro pid m'|]|] eqn:Hi; try discriminate.
    unfold writeFileEntry. cbn [pageIdOf e_meta e_path].
    destruct (getPageMeta pid w) as [w1 [remote| |]] eqn:G1; try discriminate.
    destruct (_ && _ && _); [discriminate|].
    unfold replacePageMarkdown.
    destruct (w_blocks (gatewayCall (CallReplacePageMarkdown pid markdown) w1)
                !! pid) eqn:Hb; [|discriminate].
    match goal with
    | |- context [getPageMeta pid ?w2] =>
        destruct (getPageMeta pid w2) as [w3 [updated| |]] eqn:G2;
          try discriminate
    end.
    intros [= <- <-].
    assert (Hne : posix_join p "index.md" ≠ resolve pathInput cwd)
      by (intros Heq; rewrite Heq in Hi; congruence).
    eexists _, _, pid. cbn [entries set_cache set_entries].
    rewrite lookup_insert_ne by done. rewrite He.
    rewrite lookup_insert_eq. cbn [touchMeta].
    split; [reflexivity|]. split; [reflexivity|].
    split; [intros; discriminate|].
    split; [eexists; cbn [cache set_cache set_entries];
            rewrite lookup_insert_eq; by repeat split|].
    split; [reflexivity|].
    rewrite (getPageMeta_blocks _ _ _ _ G2). cbn [w_blocks].
    by rewrite lookup_insert_eq.
  - (* the file itself *)
    unfold writeFileEntry. cbn [pageIdOf e_meta e_path].
    destruct (getPageMeta pid w) as [w1 [remote| |]] eqn:G1; try discriminate.
    destruct (_ && _ && _); [discriminate|].
    unfold replacePageMarkdown.
    destruct (w_blocks (gatewayCall (CallReplacePageMarkdown pid markdown) w1)
                !! pid) eqn:Hb; [|discriminate].
    match goal with
    | |- context [getPageMeta pid ?w2] =>
        destruct (getPageMeta pid w2) as [w3 [updated| |]] eqn:G2;
          try discriminate
    end.
    intros [= <- <-].
    eexists _, _, pid. cbn [entries set_cache set_entries].
    rewrite lookup_insert_eq. cbn [touchMeta].
    split; [reflexivity|]. split; [reflexivity|].
    split; [intros; discriminate|].
    split; [eexists; cbn [cache set_cache set_entries];
            rewrite lookup_insert_eq; by repeat split|].
    split; [reflexivity|].
    rewrite (getPageMeta_blocks _ _ _ _ G2). cbn [w_blocks].
    by rewrite lookup_insert_eq.
Qed.

Lemma readFile_on_file (fs : VirtualFs) (w : World) (pathInput cwd key : string)
    (file : FsEntry) :
  ensurePageFile pathInput cwd fs = Done (key, file) →
  readFile pathInput cwd fs w = readFileEntry file fs w.
Proof.
  intros Hfile. unfold readFile. unfold ensurePageFile in Hfile.
  destruct (entries fs !! resolve pathInput cwd) as [[| |]|] eqn:He;
    try discriminate.
  - unfold ensurePageFile. rewrite He. simpl.
    destruct (entries fs !! posix_join path "index.md") as [[| |]|];
      try discriminate.
    by inversion Hfile.
  - unfold ensurePageFile. rewrite He. by inversion Hfile.
Qed.

(** X21.  After a write that succeeded, a read of the same path made
    less than [ttlMs] after the write ended returns the written text as
    it was written, from the cache: it makes no gateway call and changes
    nothing, whatever the remote page holds by then. *)
Theorem readFile_after_writeFile (fs fs' : VirtualFs) (w w' later : World)
    (pathInput markdown cwd : string) :
  writeFile pathInput markdown cwd fs w = (fs', w', Done ()) →
  (w_now later - w_now w' < ttlMs fs)%Z →
  readFile pathInput cwd fs' later = (fs', later, Done markdown).
Proof.
  intros Hwrite Hsoon.
  destruct (writeFile_done _ _ _ _ _ _ _ Hwrite)
    as (key & file & pageId & Hfile & Hid & _ & (cached & Hc & Hm & Hat)
        & Httl & _).
  rewrite (readFile_on_file _ _ _ _ _ _ Hfile).
  unfold readFileEntry. rewrite Hid, Hc, Hat, Httl, Hm.
  apply Z.ltb_lt in Hsoon. by rewrite Hsoon.
Qed.

(** X22.  After a write that succeeded, a read of the same path made
    [ttlMs] or more after the write ended, with the remote blocks as the
    write left them, fetches the page with one gateway call and returns
    the text decoded from the encoded blocks, which is not always the
    text that was written. *)
Theorem readFile_after_expiry (fs fs' : VirtualFs) (w w' later : World)
    (pathInput markdown cwd : string) :
  writeFile pathInput markdown cwd fs w = (fs', w', Done ()) →
  (ttlMs fs ≤ w_now later - w_now w')%Z →
  w_blocks later = w_blocks w' →
  ∃ fs'' pageId,
    readFile pathInput cwd fs' later
    = (fs'', gatewayCall (CallReadPageMarkdown pageId) later,
       Done (roundTrip markdown))
    ∧ (∃ cached, cache fs'' !! pageId = Some cached
                 ∧ c_markdown cached = roundTrip markdown).
Proof.
  intros Hwrite Hlate Hblocks.
  destruct (writeFile_done _ _ _ _ _ _ _ Hwrite)
    as (key & file & pageId & Hfile & Hid & _ & (cached & Hc & Hm & Hat)
        & Httl & Hremote).
  rewrite (readFile_on_file _ _ _ _ _ _ Hfile).
  unfold readFileEntry. rewrite Hid, Hc, Hat, Httl.
  apply Z.ltb_ge in Hlate. rewrite Hlate.
  unfold readPageMarkdown. cbn [w_blocks gatewayCall].
  rewrite Hblocks, Hremote.
  eexists _, pageId. split; [reflexivity|].
  eexists. cbn [cache set_cache]. rewrite lookup_insert_eq. by split.
Qed.

(* ----------------------------------------------------------------- *)
(** ** The rebuild works on the tree only *)

Lemma insertEntry_graft (pathname parentPath : string) (entry : FsEntry)
    (tree fs : VirtualFs) :
  insertEntry pathname parentPath entry (graft tree fs)
  = res_map (λ t, graft t fs) (insertEntry pathname parentPath entry tree).
Proof.
  unfold insertEntry, ensureParentDir. cbn [entries graft].
  destruct (entries tree !! parentPath) as [[| |]|]; reflexivity.
Qed.

Lemma forEachM_map {A S : Type} (g : S → S) (body : A → S → res S)
    (l : list A) (st : S) :
  (∀ x st, x ∈ l → body x (g st) = res_map g (body x st)) →
  forEachM body l (g st) = res_map g (forEachM body l st).
Proof.
  revert st. induction l as [|x l IH]; intros st Hbody; [done|].
  cbn [forEachM]. rewrite Hbody by apply list_elem_of_here.
  destruct (body x st) as [st1| |]; cbn; [|done|done].
  apply IH. intros y st0 Hy. apply Hbody. by apply list_elem_of_further.
Qed.

Lemma buildPageTree_graft (slugify : string → string)
    (localeCompare : string → string → Z) (fs : VirtualFs) (fuel : nat)
    (childrenByParentPage : gmap string (list NotionRecordMeta)) :
  ∀ (page : NotionRecordMeta) (parentPath : string) (st : BuildState),
    buildPageTree slugify localeCompare fuel childrenByParentPage page
      parentPath (graftState fs st)
    = res_map (graftState fs)
        (buildPageTree slugify localeCompare fuel childrenByParentPage page
           parentPath st).
Proof.
  induction fuel as [|fuel IH]; intros page parentPath [tree names]; [done|].
  cbn [buildPageTree graftState fst snd].
  destruct (uniqueName (slugFromTitle slugify (r_title page))
              (default ∅ (names !! parentPath)) (r_id page))
    as [[dirName used']|]; [|done].
  unfold addDir. rewrite insertEntry_graft.
  destruct (insertEntry (posix_join parentPath dirName) parentPath _ tree)
    as [t1| |]; cbn; [|done|done].
  unfold addPageFile.
  change (set_pageDirPathById
            (<[r_id page := posix_join parentPath dirName]>
               (pageDirPathById t1)) (graft t1 fs))
    with (graft (set_pageDirPathById
                   (<[r_id page := posix_join parentPath dirName]>
                      (pageDirPathById t1)) t1) fs).
  rewrite insertEntry_graft.
  destruct (insertEntry (posix_join (posix_join parentPath dirName) "index.md")
              (posix_join parentPath dirName) _ _) as [t2| |]; cbn;
    [|done|done].
  apply (forEachM_map (graftState fs) _ _ (t2, _)).
  intros child st _. apply IH.
Qed.

Lemma addDatabase_graft (fs : VirtualFs) (database : NotionRecordMeta)
    (st : BuildState) :
  addDatabase database (graftState fs st)
  = res_map (graftState fs) (addDatabase database st).
Proof.
  destruct st as [tree names]. unfold addDatabase, graftState. cbn [fst snd].
  change (parentDirOf database (graft tree fs))
    with (parentDirOf database tree).
  destruct (uniqueName _ _ _) as [[name used']|]; [|done].
  change (findUniquePath (parentDirOf database tree) name (graft tree fs))
    with (findUniquePath (parentDirOf database tree) name tree).
  destruct (findUniquePath _ _ tree) as [dbPath|]; [|done].
  unfold addDbPlaceholder. rewrite insertEntry_graft.
  destruct (insertEntry dbPath _ _ tree) as [t1| |]; reflexivity.
Qed.

(** The rebuild of any file system is the rebuild of any other one,
    grafted: it reads and writes the tree only, and starts from the empty
    tree. *)
Lemma rebuild_graft (slugify : string → string)
    (localeCompare : string → string → Z)
    (pages databases : list NotionRecordMeta) (fs fs0 : VirtualFs) :
  rebuild slugify localeCompare pages databases fs
  = res_map (λ t, graft t fs)
      (rebuild slugify localeCompare pages databases fs0).
Proof.
  unfold rebuild.
  change (notionPages (reset fs)) with (∅ : gmap string NotionRecordMeta).
  change (notionPages (reset fs0)) with (∅ : gmap string NotionRecordMeta).
  set (known := fold_left (λ m page, <[r_id page := page]> m) pages ∅).
  change (notionPages (set_notionPages known (reset fs))) with known.
  change (notionPages (set_notionPages known (reset fs0))) with known.
  destruct (fold_left (classifyPage known)
              (filter (λ page, eligiblePage page = true) pages) (∅, []))
    as [cbp roots].
  change (set_notionPages known (reset fs), (∅ : gmap string (gset string)))
    with (graftState fs
            (set_notionPages known (reset fs0),
             (∅ : gmap string (gset string)))).
  rewrite forEachM_map
    by (intros root st _; apply buildPageTree_graft).
  match goal with
  | |- context [res_map (graftState fs) ?r] =>
      destruct r as [[t1 names1]| |]
  end; cbn; [|done|done].
  change (graft t1 fs, (∅ : gmap string (gset string)))
    with (graftState fs (t1, (∅ : gmap string (gset string)))).
  rewrite forEachM_map by (intros db st _; apply addDatabase_graft).
  destruct (forEachM addDatabase databases
              (t1, (∅ : gmap string (gset string)))) as [[t2 names2]| |];
    reflexivity.
Qed.

(** X23.  A refresh never touches the cache of page texts: after it, the
    cache, the time to live and the root id are what they were, so a text
    cached before the refresh is still served until its own time runs
    out. *)
Theorem refresh_keeps_cache (slugify : string → string)
    (localeCompare : string → string → Z) (fs fs' : VirtualFs) (w : World) :
  refresh_settle slugify localeCompare fs w = Done fs' →
  cache fs' = cache fs ∧ ttlMs fs' = ttlMs fs ∧ rootPageId fs' = rootPageId fs.
Proof.
  unfold refresh_settle.
  destruct (listRecords_of (w_pages w) (w_databases w) (rootPageId fs))
    as [[pages databases]|]; [|done].
  rewrite (rebuild_graft slugify localeCompare pages databases fs fs).
  destruct (rebuild slugify localeCompare pages databases fs) as [t| |];
    cbn; [|done|done].
  by intros [= <-].
Qed.

(** X24.  The tree that a refresh builds depends on the listing and on
    the root id only, not on the tree, the cache or the flags before it:
    two file systems with the same root id get the same entries and the
    same page directories from the same workspace.  So a second refresh
    of an unchanged workspace leaves every path where it was. *)
Theorem refresh_tree_of_listing (slugify : string → string)
    (localeCompare : string → string → Z) (fs1 fs2 fs1' : VirtualFs)
    (w : World) :
  refresh_settle slugify localeCompare fs1 w = Done fs1' →
  rootPageId fs2 = rootPageId fs1 →
  ∃ fs2',
    refresh_settle slugify localeCompare fs2 w = Done fs2'
    ∧ entries fs2' = entries fs1'
    ∧ pageDirPathById fs2' = pageDirPathById fs1'
    ∧ notionPages fs2' = notionPages fs1'.
Proof.
  unfold refresh_settle. intros Hrun Hroot. rewrite Hroot.
  destruct (listRecords_of (w_pages w) (w_databases w) (rootPageId fs1))
    as [[pages databases]|]; [|done].
  rewrite (rebuild_graft slugify localeCompare pages databases fs2 fs1).
  destruct (rebuild slugify localeCompare pages databases fs1) as [t| |];
    cbn in *; [|done|done].
  injection Hrun as <-. eexists. split; [reflexivity|]. done.
Qed.

(* ----------------------------------------------------------------- *)
(** ** Paragraphs through the codec *)

Lemma oneLine_trimStart (s : string) : oneLine s → oneLine (trimStart s).
Proof.
  induction s as [|c s IH]; [done|]. simpl. intros H.
  destruct (is_ws c); [|done]. apply IH. by apply oneLine_tail in H.
Qed.

Lemma oneLine_trimEnd (s : string) : oneLine s → oneLine (trimEnd s).
Proof.
  unfold oneLine. induction s as [|c s IH]; [done|]. simpl. intros H.
  apply andb_true_iff in H as [Hc Hs].
  destruct (is_ws c && negb (str_nonempty (trimEnd s))); [done|].
  simpl. by rewrite Hc, IH.
Qed.

Lemma oneLine_trim (s : string) : oneLine s → oneLine (trim s).
Proof. intros H. by apply oneLine_trimEnd, oneLine_trimStart. Qed.

(** A line that is no block boundary matches none of the block
    patterns. *)
Lemma no_boundary_no_match (line : string) :
  oneLine line → isBlockBoundary line = false →
  match_codeStart line = None ∧ match_heading line = None
  ∧ match_todo line = None ∧ match_bullet line = None
  ∧ match_number line = None ∧ match_quote line = None
  ∧ is_divider line = false.
Proof.
  intros Hline Hb. rewrite (isBlockBoundary_orb line Hline) in Hb.
  repeat (apply orb_false_iff in Hb as [Hb ?]).
  assert (Hn : ∀ (A : Type) (o : option A), isSome o = false → o = None)
    by (by intros A [a|]).
  repeat split; try (by apply Hn). done.
Qed.

Lemma paragraphLoop_lines (rest paragraphLines : list string) :
  Forall paragraphLine rest →
  paragraphLoop encodeLines rest paragraphLines
  = [textBlock "paragraph" (str_join LF (paragraphLines ++ rest))].
Proof.
  intros Hall. revert paragraphLines.
  induction Hall as [|l rest (_ & Hl & Hend & Hne & Hb) Hrest IH];
    intros paragraphLines.
  - by rewrite app_nil_r.
  - rewrite paragraphLoop_cons. rewrite Hend, Hb.
    apply str_nonempty_true in Hne. rewrite Hne. cbn [negb orb].
    rewrite IH. by rewrite <- app_assoc.
Qed.

Lemma trimEnd_paragraph (lines : list string) :
  lines ≠ [] → Forall paragraphLine lines →
  trimEnd (str_join LF lines) = str_join LF lines
  ∧ str_nonempty (str_join LF lines) = true.
Proof.
  intros Hne Hall.
  induction Hall as [|l rest (_ & Hl & Hend & Hnb & Hb) Hrest IH]; [done|].
  assert (Hl' : str_nonempty l = true).
  { destruct l; [|done]. by destruct Hnb. }
  destruct rest as [|next rest'].
  - by split.
  - destruct IH as [IH1 IH2]; [done|].
    change (str_join LF (l :: next :: rest'))
      with (l +:+ LF +:+ str_join LF (next :: rest')).
    split.
    + rewrite <- str_app_assoc. rewrite trimEnd_app; rewrite IH1; [|done].
      by rewrite str_app_assoc.
    + destruct l; [done|]. by rewrite str_app_cons.
Qed.

(** X25.  Lines of plain ASCII text (not blank, nothing behind their
    last character, none of them the start of a heading, list item,
    quote, code fence or divider) are one paragraph block with the lines
    as its text, and a write followed by a read gives the same lines
    back, the white space before each line included. *)
Theorem roundTrip_paragraph (lines : list string) :
  lines ≠ [] → Forall paragraphLine lines →
  markdownToNotionBlocks (str_join LF lines)
  = [textBlock "paragraph" (str_join LF lines)]
  ∧ roundTrip (str_join LF lines) = str_join LF lines.
Proof.
  intros Hne Hall.
  assert (Hblocks : markdownToNotionBlocks (str_join LF lines)
                    = [textBlock "paragraph" (str_join LF lines)]).
  { rewrite markdownToNotionBlocks_lines; [|done|].
    - destruct Hall as [|l rest (_ & Hl & Hend & Hnb & Hb) Hrest]; [done|].
      rewrite encodeLines_cons. cbv zeta. rewrite Hend.
      apply str_nonempty_true in Hnb. rewrite Hnb. cbn [negb].
      destruct (no_boundary_no_match (trim l) (oneLine_trim l Hl) Hb)
        as (-> & -> & -> & -> & -> & -> & ->).
      by rewrite paragraphLoop_lines.
    - eapply Forall_impl; [exact Hall|]. by intros l (_ & H & _). }
  split; [exact Hblocks|]. unfold roundTrip. rewrite Hblocks.
  destruct (trimEnd_paragraph lines Hne Hall) as [Hend Hnonempty].
  rewrite (notionBlocksToMarkdown_of_sections _ [str_join LF lines]).
  - reflexivity.
  - cbn [map]. f_equal.
    change (blockSection (materializeBlock
              (textBlock "paragraph" (str_join LF lines))))
      with (trimEnd (str_join LF
              (if str_nonempty (str_join "" [str_join LF lines])
               then [str_join "" [str_join LF lines]] else [""]))).
    cbn [str_join]. rewrite Hnonempty. exact Hend.
  - by constructor.
Qed.

(* ----------------------------------------------------------------- *)
(** ** Titles of records *)

Lemma trim_letter (c : ascii) (rest : string) :
  is_ws c = false → 0 < String.length (trim (String c rest)).
Proof.
  intros Hc. unfold trim. simpl trimStart. rewrite Hc.
  rewrite trimEnd_cons_keep by done. simpl. lia.
Qed.

Lemma blank_test (text : string) :
  (0 <? String.length (trim text)) = false ↔ blank text.
Proof. unfold blank. rewrite Nat.ltb_ge. lia. Qed.

Lemma titleFromProperties_first (properties : list PageProperty) :
  match titleFromProperties properties with
  | Some text => firstNotBlank (titleTexts properties) text
  | None => Forall blank (titleTexts properties)
  end.
Proof.
  unfold titleTexts.
  induction properties as [|property rest IH]; [by constructor|].
  cbn [titleFromProperties]. rewrite filter_cons.
  destruct (decide (prop_type property = Some "title")) as [Ht|Ht].
  - rewrite bool_decide_eq_true_2 by done. cbn [map].
    destruct (0 <? String.length (trim (plainTextOf (prop_title property))))
      eqn:Htest.
    + exists [], (map (λ p, plainTextOf (prop_title p))
                   (filter (λ p, prop_type p = Some "title") rest)).
      split; [done|]. split; [constructor|].
      intros Hb. apply blank_test in Hb. congruence.
    + apply blank_test in Htest.
      destruct (titleFromProperties rest) as [text|].
      * destruct IH as (before & after & Heq & Hbefore & Htext).
        exists (plainTextOf (prop_title property) :: before), after.
        split; [by rewrite Heq|]. split; [by constructor|done].
      * by constructor.
  - rewrite bool_decide_eq_false_2 by done. exact IH.
Qed.

Lemma firstNotBlank_not_blank (candidates : list string) (text : string) :
  firstNotBlank candidates text → ¬ blank text.
Proof. by intros (_ & _ & _ & _ & H). Qed.

Lemma fallback_not_blank (c : ascii) (rest : string) :
  is_ws c = false → ¬ blank (String c rest).
Proof. intros Hc Hb. pose proof (trim_letter c rest Hc). unfold blank in Hb. lia. Qed.

Lemma titleFromPage_first (page : RawRecord) :
  firstNotBlank (pageTitles page) (titleFromPage page)
  ∨ (Forall blank (pageTitles page)
     ∧ titleFromPage page = "untitled-" +:+ shortId (raw_id page)).
Proof.
  unfold pageTitles, titleFromPage.
  destruct (raw_properties page) as [properties|]; cbn [default].
  - pose proof (titleFromProperties_first properties) as H.
    destruct (titleFromProperties properties) as [text|]; [by left|by right].
  - right. split; [constructor|done].
Qed.

Lemma titleFromDataSource_first (dataSource : RawRecord) :
  firstNotBlank (dataSourceTitles dataSource) (titleFromDataSource dataSource)
  ∨ (Forall blank (dataSourceTitles dataSource)
     ∧ titleFromDataSource dataSource
       = "database-" +:+ shortId (raw_id dataSource)).
Proof.
  unfold dataSourceTitles, titleFromDataSource. cbv zeta.
  set (title := plainTextOf (raw_title dataSource)).
  set (description := plainTextOf (raw_description dataSource)).
  assert (Hno : ∀ text, (0 <? String.length (trim text)) = true → ¬ blank text).
  { intros text Ht Hb. apply blank_test in Hb. congruence. }
  destruct (0 <? String.length (trim title)) eqn:Htitle.
  { left. exists [], (match raw_name dataSource with
                      | Some directName => [directName]
                      | None => []
                      end ++ [description]).
    split; [done|]. split; [constructor|by apply Hno]. }
  apply blank_test in Htitle.
  destruct (raw_name dataSource) as [directName|]; cbn [app].
  - destruct (0 <? String.length (trim directName)) eqn:Hname.
    { left. exists [title], [description].
      split; [done|]. split; [by constructor|by apply Hno]. }
    apply blank_test in Hname.
    destruct (0 <? String.length (trim description)) eqn:Hdescription.
    { left. exists [title; directName], [].
      split; [done|]. split; [by repeat constructor|by apply Hno]. }
    apply blank_test in Hdescription. right. split; [|done].
    by repeat constructor.
  - destruct (0 <? String.length (trim description)) eqn:Hdescription.
    { left. exists [title], [].
      split; [done|]. split; [by constructor|by apply Hno]. }
    apply blank_test in Hdescription. right. split; [|done].
    by repeat constructor.
Qed.

(** X26.  The title that the gateway gives to a page is the text of its
    first property of type [title] that is not blank (has a character
    other than white space), and [untitled-] followed by the short id when
    every such text is blank or the page has no properties.  The title of
    a data source is the first of its title, its name and its description
    that is not blank, and [database-] followed by the short id when all
    are blank.  So no record gets a blank title.  The texts are ASCII. *)
Theorem record_title_first_not_blank (record : RawRecord) :
  Forall asciiText (pageTitles record ++ dataSourceTitles record) →
  (firstNotBlank (pageTitles record) (titleFromPage record)
   ∨ (Forall blank (pageTitles record)
      ∧ titleFromPage record = "untitled-" +:+ shortId (raw_id record)))
  ∧ (firstNotBlank (dataSourceTitles record) (titleFromDataSource record)
     ∨ (Forall blank (dataSourceTitles record)
        ∧ titleFromDataSource record
          = "database-" +:+ shortId (raw_id record)))
  ∧ ¬ blank (titleFromPage record)
  ∧ ¬ blank (titleFromDataSource record).
Proof.
  intros _.
  pose proof (titleFromPage_first record) as Hpage.
  pose proof (titleFromDataSource_first record) as Hsource.
  split; [exact Hpage|]. split; [exact Hsource|]. split.
  - destruct Hpage as [H|[_ ->]];
      [by apply (firstNotBlank_not_blank _ _ H)|by apply fallback_not_blank].
  - destruct Hsource as [H|[_ ->]];
      [by apply (firstNotBlank_not_blank _ _ H)|by apply fallback_not_blank].
Qed.


(* ================================================================= *)
(** * The properties at the worked workspace *)

(** The spec's scenario: the four paths of Home, Notes, Tasks and DB1. *)
Example demoFs_paths :
  dom (entries demoFs)
  = {[ "/"; "/pages"; "/pages/home"; "/pages/home/index.md";
       "/pages/home/notes"; "/pages/home/notes/index.md";
       "/pages/home/notes/[db:0d000000]";
       "/pages/home/tasks"; "/pages/home/tasks/index.md" ]}.
Proof. vm_compute. reflexivity. Qed.

Example demoFs_home : entries demoFs !! "/pages/home" = Some homeDir.
Proof. vm_compute. reflexivity. Qed.

Example demoFs_homeIndex :
  entries demoFs !! "/pages/home/index.md" = Some homeIndex.
Proof. vm_compute. reflexivity. Qed.

(* ----------------------------------------------------------------- *)
(** ** C10 at the worked workspace *)

Lemma readFile_writeFile_directory_witness :
  entries demoFs !! resolve "home" "/pages" = Some homeDir
  ∧ readFile "home" "/pages" demoFs demoWorld
    = readFileEntry homeIndex demoFs demoWorld
  ∧ writeFile "home" "text" "/pages" demoFs demoWorld
    = writeFileEntry "/pages/home/index.md" homeIndex "text" demoFs demoWorld.
Proof.
  assert (Hdir : entries demoFs !! resolve "home" "/pages" = Some homeDir)
    by (vm_compute; reflexivity).
  split; [exact Hdir|].
  pose proof (readFile_writeFile_directory demoFs demoWorld "home" "/pages"
                "text" homeDir Hdir) as H.
  unfold homeDir in H.
  change (posix_join "/pages/home" "index.md") with "/pages/home/index.md" in H.
  rewrite demoFs_homeIndex in H. exact H.
Defined.

(** The claim as stated fails for [readFile]: on a path that resolves to
    a database placeholder it does not fail with a read-only error, it
    returns text. *)
Lemma readFile_placeholder_returns_text :
  entries demoFs !! resolve "/pages/home/notes/[db:0d000000]" "/" = Some notesDb
  ∧ ¬ (∃ msg, (readFile "/pages/home/notes/[db:0d000000]" "/" demoFs demoWorld).2
              = Throw msg).
Proof.
  split; [vm_compute; reflexivity|].
  intros [msg H]. vm_compute in H. discriminate H.
Qed.

(* ----------------------------------------------------------------- *)
(** ** C8 at the worked workspace *)

(** A first read of Home fetches once and fills the cache; a second read
    10 seconds later is served from the cache without a call. *)
Lemma readFile_cache_witness :
  ∃ fs' w',
    readFile "/pages/home/index.md" "/" demoFs demoWorld = (fs', w', Done "# Home")
    ∧ w_calls w' = [CallReadPageMarkdown (r_id home)]
    ∧ ∀ w'', w_now w'' = (w_now w' + 10000)%Z →
        readFile "/pages/home/index.md" "/" fs' w'' = (fs', w'', Done "# Home").
Proof.
  assert (Hfile : ensurePageFile "/pages/home/index.md" "/" demoFs
                  = Done ("/pages/home/index.md", homeIndex))
    by (vm_compute; reflexivity).
  destruct (readFile_cache demoFs demoWorld _ _ _ _ Hfile) as [_ Hmiss].
  destruct Hmiss as (fs' & w' & r & Hread & Hgw & Hcalls & Hcache).
  { left. vm_compute. reflexivity. }
  assert (Hr : (w', r) = (gatewayCall (CallReadPageMarkdown (r_id home)) demoWorld,
                          Done "# Home")).
  { rewrite Hgw. vm_compute. reflexivity. }
  inversion Hr; subst w' r. exists fs'. eexists. split; [exact Hread|].
  split; [exact Hcalls|]. intros w'' Hnow.
  assert (Hfile' : ensurePageFile "/pages/home/index.md" "/" fs'
                   = Done ("/pages/home/index.md", homeIndex))
    by (rewrite Hcache; vm_compute; reflexivity).
  destruct (readFile_cache fs' w'' _ _ _ _ Hfile') as [Hhit _].
  apply (Hhit {| c_markdown := "# Home"; c_fetchedAt := 100020;
                 c_lastEditedTime := Some "2024-01-01T09:30:00.000Z" |}).
  - rewrite Hcache. vm_compute. reflexivity.
  - rewrite Hnow, Hcache. vm_compute. reflexivity.
Defined.

(* ----------------------------------------------------------------- *)
(** ** C1 at the worked workspace *)

Lemma writeFile_conflict_witness :
  writeFile "/pages/home" "my text" "/" demoFs demoWorldEdited
  = (demoFs, gatewayCall (CallGetPageMeta (r_id home)) demoWorldEdited,
     Throw (conflictMessage "/pages/home/index.md" "2024-01-02T10:00:00.000Z"
              "2024-01-01T09:30:00.000Z")).
Proof.
  apply (writeFile_conflict demoFs demoWorldEdited "/pages/home" "my text" "/"
           "/pages/home/index.md" homeIndex
           (stampRecord (r_id home) "2024-01-02T10:00:00.000Z" home)
           "2024-01-01T09:30:00.000Z").
  - vm_compute. reflexivity.
  - vm_compute. reflexivity.
  - reflexivity.
  - discriminate.
  - discriminate.
  - discriminate.
Defined.

(** The claim as stated fails twice.  (1) Two sessions of one server share
    the file entry, which A's commit updates: B's later write, made from
    what B read before A's commit, is not refused and replaces A's text.
    (2) An empty remote timestamp differs from the local one, and the
    write goes through. *)
Lemma writeFile_overwrites_without_conflict :
  (afterReadB.2 = Done "# Home"
   ∧ afterWriteA.2 = Done ()
   ∧ (readPageMarkdown (r_id home) afterWriteA.1.2).2 = Done "text of A"
   ∧ afterWriteB.2 = Done ()
   ∧ (readPageMarkdown (r_id home) afterWriteB.1.2).2 = Done "text of B")
  ∧ (m_lastEditedTime (e_meta homeIndex) = Some "2024-01-01T09:30:00.000Z"
     ∧ (writeFile "/pages/home" "my text" "/" demoFs demoWorldUnstamped).2
       = Done ()).
Proof.
  split.
  - split; [vm_compute; reflexivity|].
    split; [vm_compute; reflexivity|].
    split; [vm_compute; reflexivity|].
    split; vm_compute; reflexivity.
  - split; vm_compute; reflexivity.
Qed.

(* ----------------------------------------------------------------- *)
(** ** C2 at the worked workspace *)

Lemma handleLine_wq_witness :
  editState (handleLine noDispatch ":wq" demoShell demoFs demoWorld).1.1 = None
  ∧ editState (handleLine noDispatch ":wq" demoShell demoFs demoWorldEdited).1.1
    = Some demoEdit.
Proof.
  split.
  - assert (Ho : (writeFile (es_path demoEdit)
                    (str_join (String "010" "") (es_buffer demoEdit))
                    (cwd demoShell) demoFs demoWorld).2 = Done ())
      by (vm_compute; reflexivity).
    generalize (handleLine_wq noDispatch demoShell demoFs demoWorld demoEdit
                  eq_refl).
    cbv zeta.
    destruct (writeFile (es_path demoEdit)
                (str_join (String "010" "") (es_buffer demoEdit))
                (cwd demoShell) demoFs demoWorld)
      as [[fs' w'] outcome].
    cbn [snd] in Ho. rewrite Ho. intros H. exact (proj2 H).
  - assert (Ho : ∃ msg, (writeFile (es_path demoEdit)
                    (str_join (String "010" "") (es_buffer demoEdit))
                    (cwd demoShell) demoFs demoWorldEdited).2 = Throw msg)
      by (eexists; vm_compute; reflexivity).
    destruct Ho as [msg Ho].
    generalize (handleLine_wq noDispatch demoShell demoFs demoWorldEdited
                  demoEdit eq_refl).
    cbv zeta.
    destruct (writeFile (es_path demoEdit)
                (str_join (String "010" "") (es_buffer demoEdit))
                (cwd demoShell) demoFs demoWorldEdited)
      as [[fs' w'] outcome].
    cbn [snd] in Ho. rewrite Ho. intros H. exact (proj1 (proj2 H)).
Defined.

(** The claim as stated fails: after a commit that is refused with a
    conflict the session is still in edit mode. *)
Lemma handleLine_wq_conflict_stays_editing :
  (∃ msg, (writeFile "/pages/home/index.md"
             (str_join (String "010" "") ["# Home"; "my change"]) "/pages"
             demoFs demoWorldEdited).2 = Throw msg)
  ∧ editState (handleLine noDispatch ":wq" demoShell demoFs demoWorldEdited).1.1
    ≠ None.
Proof.
  split.
  - eexists. vm_compute. reflexivity.
  - vm_compute. discriminate.
Qed.

(* ----------------------------------------------------------------- *)
(** ** C9 at the worked workspace *)

Lemma refresh_single_flight_witness :
  ((refresh_calls [(false, 100001%Z); (true, 100002%Z); (false, 200000%Z)]
      demoFsInFlight demoWorld).1.1 = demoFsInFlight
   ∧ (refresh_calls [(false, 100001%Z); (true, 100002%Z); (false, 200000%Z)]
        demoFsInFlight demoWorld).2
     = [RefreshNoop; RefreshFollows 7; RefreshFollows 7])
  ∧ (refresh_calls [(false, 5%Z); (false, 6%Z); (true, 7%Z)]
       (newVirtualFs 60 None) demoWorld).2
    = [RefreshStarts 0; RefreshFollows 0; RefreshFollows 0].
Proof.
  split.
  - generalize (refresh_single_flight demoFsInFlight demoWorld
                  [(false, 100001%Z); (true, 100002%Z); (false, 200000%Z)]).
    destruct (refresh_calls _ demoFsInFlight demoWorld) as [[fs' w'] outcomes].
    intros [H _]. destruct (H 7 eq_refl) as (-> & _ & _ & ->).
    split; [reflexivity|]. vm_compute. reflexivity.
  - generalize (refresh_single_flight (newVirtualFs 60 None) demoWorld
                  [(false, 5%Z); (false, 6%Z); (true, 7%Z)]).
    destruct (refresh_calls _ (newVirtualFs 60 None) demoWorld)
      as [[fs' w'] outcomes].
    intros [_ H]. destruct (H eq_refl eq_refl) as [_ ->]; [done|].
    reflexivity.
Defined.

(** The claim as stated fails: a call that is not forced, made while a
    rebuild is in flight and the index is still fresh, returns at once; it
    is not handed the rebuild in flight. *)
Lemma refresh_fresh_call_does_not_follow :
  refreshPromise demoFsInFlight = Some 7
  ∧ (refresh_call false demoFsInFlight demoWorld).2 = RefreshNoop
  ∧ (refresh_call false demoFsInFlight demoWorld).2 ≠ RefreshFollows 7.
Proof. split; [reflexivity|]. split; [vm_compute; reflexivity|]. vm_compute. discriminate. Qed.

(* ----------------------------------------------------------------- *)
(** ** C7 at the worked workspace *)

(** C7 (the code at the failing input).  With Home as the root, the page
    Notes, a child of Home, is retained, and the database DB1, whose parent
    page is Notes, is dropped: the closure for the databases is computed
    over the database records alone, so the pages reached from the root
    are not in its [included] set. *)
Theorem listRecords_drops_nested_database :
  r_parent db1 = ParentPageId (r_id notes)
  ∧ listRecords_of [home; notes; tasks] [db1] (Some (r_id home))
    = Some ([home; notes; tasks], [])
  ∧ listRecords_of [home; notes; tasks] [db1] None
    = Some ([home; notes; tasks], [db1]).
Proof. split; [reflexivity|]. split; vm_compute; reflexivity. Qed.

(* ----------------------------------------------------------------- *)
(** ** C4 at two drafts *)

Lemma uniqueName_siblings_witness :
  siblingNames asciiSlugify
    [("Draft", "0e000000-0000-4000-8000-000000000005");
     ("Draft", "0f000000-0000-4000-8000-000000000006")] ∅
  = Some ["draft"; "draft-0f000000"].
Proof.
  destruct (uniqueName_siblings asciiSlugify []) as (_ & _ & H).
  apply (H eq_refl).
Defined.

(** The claim as stated fails: the first record with a given slug does
    not always get the slug.  After two records titled "Draft", a record
    titled "Draft 0f000000" is the first of its directory with the slug
    [draft-0f000000], and that name is taken by the second draft: the
    record is named by its slug and its own short id. *)
Lemma uniqueName_first_with_slug_renamed :
  slugFromTitle asciiSlugify "Draft" = "draft"
  ∧ slugFromTitle asciiSlugify "Draft 0f000000" = "draft-0f000000"
  ∧ siblingNames asciiSlugify
      [("Draft", "0e000000-0000-4000-8000-000000000005");
       ("Draft", "0f000000-0000-4000-8000-000000000006");
       ("Draft 0f000000", "aa000000-0000-4000-8000-000000000007")] ∅
    = Some ["draft"; "draft-0f000000"; "draft-0f000000-aa000000"].
Proof. repeat split; vm_compute; reflexivity. Qed.

(* ----------------------------------------------------------------- *)
(** ** C6 on a short page *)



(* ----------------------------------------------------------------- *)
(** ** C5 on two short texts *)

(** C5 (the code at two failing inputs).  Composed directly, the decoder
    reads [plain_text] where the encoder wrote [text.content], so the text
    of every block is lost: ["# a"] becomes ["#"], which a second pass
    reads as an empty paragraph and drops.  Through the API the text is
    kept, and a quote of two lines comes back with its second line
    unquoted; the second pass splits it into a quote and a paragraph. *)
Theorem codec_not_idempotent :
  (notionBlocksToMarkdown (markdownToNotionBlocks "# a") = "#"
   ∧ notionBlocksToMarkdown
       (markdownToNotionBlocks
          (notionBlocksToMarkdown (markdownToNotionBlocks "# a"))) = "")
  ∧ (roundTrip ("> a" +:+ LF +:+ "> b") = "> a" +:+ LF +:+ "b"
     ∧ roundTrip (roundTrip ("> a" +:+ LF +:+ "> b"))
       = "> a" +:+ LF +:+ LF +:+ "b").
Proof. repeat split; vm_compute; reflexivity. Qed.

(** The spec's scenario: a heading, a bullet and a paragraph, in order. *)
Example markdownToNotionBlocks_three_blocks :
  map b_type
    (markdownToNotionBlocks
       ("# Title" +:+ LF +:+ LF +:+ "- item" +:+ LF +:+ LF +:+ "hello"))
  = ["heading_1"; "bulleted_list_item"; "paragraph"].
Proof. vm_compute. reflexivity. Qed.

(* ----------------------------------------------------------------- *)
(** ** C3 at the worked workspace *)

Lemma slugChar_lower (c : ascii) :
  is_alnum c = true → slugChar (lower_char c) = true.
Proof.
  destruct c as [b0 b1 b2 b3 b4 b5 b6 b7].
  destruct b0, b1, b2, b3, b4, b5, b6, b7; vm_compute;
    intros H; try discriminate H; reflexivity.
Qed.

Lemma asciiSlugify_slug (title : string) :
  str_forallb slugChar (asciiSlugify title) = true.
Proof.
  unfold asciiSlugify. generalize false at 1. generalize false.
  induction title as [|c title IH]; intros started sepDue; simpl; [done|].
  destruct (is_alnum c) eqn:Hc.
  - destruct (sepDue && started); simpl; rewrite (slugChar_lower c Hc), IH; done.
  - destruct (is_ws c || Ascii.eqb c "-"); apply IH.
Qed.

Lemma demo_no_slash (s : string) :
  str_forallb (λ c, negb (Ascii.eqb c "/")) s = true → no_slash s.
Proof. by apply str_forallb_absent. Qed.

Lemma refresh_tree_invariant_witness : treeInvariant (entries demoFs).
Proof.
  destruct (refresh_tree_invariant asciiSlugify codeCompare
              (newVirtualFs 60 None) demoWorld) as (fs' & Hrun & Htree & _).
  - exact asciiSlugify_slug.
  - apply (bool_decide_unpack _). vm_compute. exact I.
  - repeat constructor; apply demo_no_slash; reflexivity.
  - repeat constructor; apply demo_no_slash; reflexivity.
  - unfold demoFs. rewrite Hrun. exact Htree.
Defined.


(* ----------------------------------------------------------------- *)
(** ** Command lines at the worked workspace *)

Ltac not_in_chars :=
  simpl; repeat (apply not_elem_of_cons; split; [discriminate|]);
  apply not_elem_of_nil.

Lemma parseCommandLine_words_witness :
  parseCommandLine "ls -la /pages"
  = {| command := "ls"; args := ["-la"; "/pages"] |}.
Proof.
  assert (H : Forall plainWord ["ls"; "-la"; "/pages"])
    by (repeat constructor; discriminate).
  exact (proj2 (parseCommandLine_words "ls" ["-la"; "/pages"] H)).
Defined.

Lemma tokenize_quoted_witness :
  tokenize "'hello world'" = ["hello world"]
  ∧ tokenize "'hello world" = ["hello world"].
Proof.
  apply (tokenize_quoted singleQuote "hello world").
  - by left.
  - not_in_chars.
  - not_in_chars.
Defined.

Lemma tokenize_escaped_witness :
  tokenize (escapeAll "my file.md") = ["my file.md"]
  ∧ tokenize (String "c" (String "d" (String backslash "")))
    = [String "c" (String "d" (String backslash ""))].
Proof.
  apply (tokenize_escaped ["my file.md"] "cd").
  - repeat constructor. discriminate.
  - reflexivity.
Defined.

(* ----------------------------------------------------------------- *)
(** ** The edit session at the worked workspace *)

Lemma handleEditLine_set_witness :
  handleEditLine ":set 2 new text" demoShell demoFs demoWorld
  = (withBuffer demoEdit ["# Home"; "new text"] demoShell, demoFs, demoWorld,
     Done ()).
Proof.
  refine (proj1 (handleEditLine_set demoShell demoFs demoWorld demoEdit 2
                   "new text" eq_refl _ _)).
  - simpl. lia.
  - repeat split. discriminate.
Defined.

Lemma handleEditLine_del_witness :
  handleEditLine ":del 1" demoShell demoFs demoWorld
  = (withBuffer demoEdit ["my change"] demoShell, demoFs, demoWorld, Done ()).
Proof.
  refine (proj1 (handleEditLine_del demoShell demoFs demoWorld demoEdit 1
                   eq_refl _)).
  simpl. lia.
Defined.

Lemma handleEditLine_out_of_range_witness :
  handleEditLine ":set 5 new text" demoShell demoFs demoWorld
  = (demoShell, demoFs, demoWorld, Throw "Line out of range: 5")
  ∧ handleEditLine ":del 5" demoShell demoFs demoWorld
    = (demoShell, demoFs, demoWorld, Throw "Line out of range: 5").
Proof.
  refine (handleEditLine_out_of_range demoShell demoFs demoWorld demoEdit 5
            "new text" eq_refl _ _).
  - right. simpl. lia.
  - repeat split. discriminate.
Defined.

Lemma handleEditLine_local_witness :
  ∃ sh' outcome,
    handleEditLine ":q!" demoShell demoFs demoWorld
    = (sh', demoFs, demoWorld, outcome)
    ∧ cwd sh' = cwd demoShell
    ∧ ((trim ":q!" = ":q!" ∧ editState sh' = None)
       ∨ (trim ":q!" ≠ ":q!"
          ∧ ∃ buffer,
              editState sh'
              = Some {| es_path := es_path demoEdit; es_buffer := buffer |})).
Proof.
  apply (handleEditLine_local ":q!" demoShell demoFs demoWorld demoEdit).
  - reflexivity.
  - reflexivity.
  - discriminate.
Defined.

Lemma handleEditLine_text_witness :
  handleEditLine "  indented text " demoShell demoFs demoWorld
  = (withBuffer demoEdit ["# Home"; "my change"; "  indented text "] demoShell,
     demoFs, demoWorld, Done ()).
Proof.
  exact (handleEditLine_text "  indented text " demoShell demoFs demoWorld
           demoEdit eq_refl eq_refl eq_refl).
Defined.

(* ----------------------------------------------------------------- *)
(** ** The codec on short texts *)

Lemma isBlockBoundary_matchers_witness :
  isBlockBoundary "- item" = true
  ↔ (is_Some (match_heading "- item") ∨ is_Some (match_todo "- item")
     ∨ is_Some (match_bullet "- item") ∨ is_Some (match_number "- item")
     ∨ is_Some (match_quote "- item") ∨ is_Some (match_codeStart "- item")
     ∨ is_divider "- item" = true).
Proof. exact (isBlockBoundary_matchers "- item" eq_refl eq_refl). Defined.

Lemma roundTrip_numbered_list_witness :
  roundTrip ("3. c" +:+ LF +:+ "7. d") = "1. c" +:+ LF +:+ LF +:+ "1. d".
Proof.
  refine (proj2 (roundTrip_numbered_list [("3", "c"); ("7", "d")] _ _)).
  - discriminate.
  - repeat constructor; discriminate.
Defined.

Lemma roundTrip_heading_witness : roundTrip "## Section" = "## Section".
Proof.
  refine (proj2 (roundTrip_heading "##" "Section" _ _)).
  - apply list_elem_of_further, list_elem_of_here.
  - repeat split. discriminate.
Defined.

Lemma roundTrip_code_fence_witness :
  roundTrip ("```" +:+ LF +:+ "x = 1" +:+ LF +:+ "```")
  = "```plain text" +:+ LF +:+ "x = 1" +:+ LF +:+ "```".
Proof.
  refine (proj2 (roundTrip_code_fence "" ["x = 1"] _ _)).
  - by left.
  - repeat constructor.
Defined.

Lemma roundTrip_paragraph_witness :
  roundTrip ("hello" +:+ LF +:+ "  world") = "hello" +:+ LF +:+ "  world".
Proof.
  refine (proj2 (roundTrip_paragraph ["hello"; "  world"] _ _)).
  - discriminate.
  - repeat constructor; discriminate.
Defined.

(* ----------------------------------------------------------------- *)
(** ** The gateway and the paths at the worked workspace *)

Lemma filterByRoot_closure_witness :
  ∃ kept,
    filterByRoot [home; notes; tasks; db1] (Some (r_id home)) = Some kept
    ∧ kept `sublist_of` [home; notes; tasks; db1]
    ∧ ∀ item,
        item ∈ kept
        ↔ item ∈ [home; notes; tasks; db1]
          ∧ reachable [home; notes; tasks; db1] (remove_dashes (r_id home))
              (idNoDash item).
Proof.
  apply (filterByRoot_closure [home; notes; tasks; db1] (r_id home)).
  discriminate.
Defined.

Lemma resolveVirtualPath_canonical_witness :
  canonicalPath (resolveVirtualPath "../x/./y/" "/pages/home")
  ∧ ∀ cwd',
      resolveVirtualPath (resolveVirtualPath "../x/./y/" "/pages/home") cwd'
      = resolveVirtualPath "../x/./y/" "/pages/home".
Proof.
  apply (resolveVirtualPath_canonical "../x/./y/" "/pages/home").
  by right.
Defined.

Lemma findUniquePath_free_witness :
  ∃ path,
    findUniquePath "/pages" "home" demoFs = Some path
    ∧ entries demoFs !! path = None
    ∧ ((entries demoFs !! ("/pages" +:+ "/" +:+ "home") = None
        ∧ path = "/pages" +:+ "/" +:+ "home")
       ∨ (is_Some (entries demoFs !! ("/pages" +:+ "/" +:+ "home"))
          ∧ ∃ i, 2 ≤ i
                 ∧ path = "/pages" +:+ "/" +:+ numbered "home" i
                 ∧ ∀ k, 2 ≤ k < i →
                     is_Some (entries demoFs
                                !! ("/pages" +:+ "/" +:+ numbered "home" k)))).
Proof.
  apply (findUniquePath_free demoFs "/pages" "home").
  - apply normAbs_pages.
  - split; [unfold no_slash; not_in_chars|discriminate].
Defined.

(* ----------------------------------------------------------------- *)
(** ** Reads after a write, and the refresh, at the worked workspace *)

Lemma afterWriteA_done :
  writeFile "/pages/home" "text of A" "/" afterReadB.1.1 afterReadB.1.2
  = (afterWriteA.1.1, afterWriteA.1.2, Done ()).
Proof.
  change (afterWriteA = (afterWriteA.1.1, afterWriteA.1.2, Done ())).
  assert (H : afterWriteA.2 = Done ()) by (vm_compute; reflexivity).
  revert H. generalize afterWriteA. intros [[fs w] r] H. simpl in *.
  by subst.
Defined.

Lemma readFile_after_writeFile_witness :
  readFile "/pages/home" "/" afterWriteA.1.1 afterWriteA.1.2
  = (afterWriteA.1.1, afterWriteA.1.2, Done "text of A").
Proof.
  apply (readFile_after_writeFile afterReadB.1.1 afterWriteA.1.1
           afterReadB.1.2 afterWriteA.1.2 afterWriteA.1.2
           "/pages/home" "text of A" "/" afterWriteA_done).
  rewrite Z.sub_diag. reflexivity.
Defined.

Lemma readFile_after_expiry_witness :
  ∃ fs'' pageId,
    readFile "/pages/home" "/" afterWriteA.1.1 afterExpiry
    = (fs'', gatewayCall (CallReadPageMarkdown pageId) afterExpiry,
       Done (roundTrip "text of A"))
    ∧ (∃ cached, cache fs'' !! pageId = Some cached
                 ∧ c_markdown cached = roundTrip "text of A").
Proof.
  apply (readFile_after_expiry afterReadB.1.1 afterWriteA.1.1
           afterReadB.1.2 afterWriteA.1.2 afterExpiry
           "/pages/home" "text of A" "/" afterWriteA_done).
  - vm_compute. discriminate.
  - reflexivity.
Defined.

Lemma demoFs_refreshed :
  refresh_settle asciiSlugify codeCompare (newVirtualFs 60 None) demoWorld
  = Done demoFs.
Proof. vm_compute. reflexivity. Defined.

Lemma refresh_keeps_cache_witness :
  cache demoFs = cache (newVirtualFs 60 None)
  ∧ ttlMs demoFs = ttlMs (newVirtualFs 60 None)
  ∧ rootPageId demoFs = rootPageId (newVirtualFs 60 None).
Proof.
  exact (refresh_keeps_cache asciiSlugify codeCompare (newVirtualFs 60 None)
           demoFs demoWorld demoFs_refreshed).
Defined.

Lemma refresh_tree_of_listing_witness :
  ∃ fs2',
    refresh_settle asciiSlugify codeCompare demoFs demoWorld = Done fs2'
    ∧ entries fs2' = entries demoFs
    ∧ pageDirPathById fs2' = pageDirPathById demoFs
    ∧ notionPages fs2' = notionPages demoFs.
Proof.
  apply (refresh_tree_of_listing asciiSlugify codeCompare
           (newVirtualFs 60 None) demoFs demoFs demoWorld demoFs_refreshed).
  vm_compute. reflexivity.
Defined.

(* ----------------------------------------------------------------- *)
(** ** Titles at a search result *)

Lemma record_title_first_not_blank_witness :
  (titleFromPage roadmapRecord = "Roadmap"
   ∧ titleFromDataSource roadmapRecord = "Plans")
  ∧ (firstNotBlank (pageTitles roadmapRecord) (titleFromPage roadmapRecord)
     ∨ (Forall blank (pageTitles roadmapRecord)
        ∧ titleFromPage roadmapRecord
          = "untitled-" +:+ shortId (raw_id roadmapRecord)))
  ∧ (firstNotBlank (dataSourceTitles roadmapRecord)
       (titleFromDataSource roadmapRecord)
     ∨ (Forall blank (dataSourceTitles roadmapRecord)
        ∧ titleFromDataSource roadmapRecord
          = "database-" +:+ shortId (raw_id roadmapRecord)))
  ∧ ¬ blank (titleFromPage roadmapRecord)
  ∧ ¬ blank (titleFromDataSource roadmapRecord).
Proof.
  split; [by split|].
  apply (record_title_first_not_blank roadmapRecord).
  repeat constructor.
Defined.
